(** * CCTV exposure: a shallow embedding of [exposure_python/main.py]

    The development follows the source top-down: the geometry helpers
    ([haversine_distance], [get_coordinates], [quick_distance],
    [get_bearing]), the camera catalogue ([load_cameras]), the field-of-view
    test ([check_dist_to_cam]), the membership pass ([track_route]), the
    directional exposure pass ([calculate_direction]), the distance
    statistics ([calc_distance_stats]) and the per-segment report of
    [main].  The predicates and sample inputs of the properties come next,
    and the properties last.

    Conventions of the embedding.
    - Floating-point numbers are idealised as real numbers ([R]): there is
      no rounding error.  The properties of [get_bearing] keep a margin from
      the inputs where rounding decides a comparison of the source.
    - A numpy division by zero does not raise but yields [inf] or [nan]: in
      the exposure pass, where the program goes on with such a speed, it is
      a value ([xnum], [or_nan]); in the report, where it ends up in a
      printed percentage, it is the outcome [NonFinite].
    - Python exceptions are values of type [exn]; a computation that may
      raise returns a [result].
    - A Python object that is mutated in place ([self]) is threaded
      explicitly: a method is a function from the object to the mutated
      object and an outcome, so that the mutations made before an exception
      are still visible. *)

From Stdlib Require Import Reals Lra Lia ZArith Ascii String.
From stdpp Require Import gmap strings list sorting.

(** ** Outcomes *)

Inductive exn : Type :=
| TypeError
| ValueError
| ZeroDivisionError
| IndexError
| AttributeError
| KeyError
| StopIteration
| FileNotFoundError
| PermissionError.

(** [NonFinite]: a percentage of the report is a numpy [float64] division
    by zero.  The source prints [inf] or [nan] there (with a
    [RuntimeWarning]); the model, whose percentages are real, ends with this
    outcome.  Inside the exposure pass a division by zero is a value
    instead ([xnum]), since the pass goes on with it. *)
Inductive result (A : Type) : Type :=
| Ok (a : A)
| Raise (e : exn)
| NonFinite.

Arguments Ok {A} a.
Arguments Raise {A} e.
Arguments NonFinite {A}.

#[global] Instance result_ret : MRet result := fun _ a => Ok a.
#[global] Instance result_bind : MBind result := fun _ _ k r =>
  match r with
  | Ok a => k a
  | Raise e => Raise e
  | NonFinite => NonFinite
  end.

#[global] Instance result_fmap : FMap result := fun _ _ f r =>
  match r with
  | Ok a => Ok (f a)
  | Raise e => Raise e
  | NonFinite => NonFinite
  end.

(** ** Decidable order on the reals *)

#[global] Instance R_eq_dec : EqDecision R := Req_dec_T.
#[global] Instance Rle_decision : RelDecision Rle := Rle_dec.
#[global] Instance Rlt_decision : RelDecision Rlt := Rlt_dec.

(** ** Python values held by a camera record

    [load_cameras] stores the raw CSV cells, which are strings; [main] later
    adds two floats to the records it reports.  [cam.get(key, default)] may
    also yield [None] or an [int] default. *)

Inductive pyval : Type :=
| VNone
| VStr (s : string)
| VInt (z : Z)
| VFloat (x : R).

Abbreviation camera := (gmap string pyval).

(** [cam.get(key, default)] *)
Definition dict_get (cam : camera) (key : string) (default : pyval) : pyval :=
  match cam !! key with
  | Some v => v
  | None => default
  end.

(** *** The builtins [float()] and [int()]

    On strings the model reads plain decimal notation: an optional sign,
    digits, and for [float()] an optional fractional part.  Python accepts
    more (surrounding blanks, exponents, underscores, [inf], [nan]); such
    cells are outside the model and are reported as [ValueError]. *)

Definition digit_of_ascii (c : ascii) : option Z :=
  let n := Z.of_nat (nat_of_ascii c) in
  if ((48 <=? n) && (n <=? 57))%Z then Some (n - 48)%Z else None.

Fixpoint parse_digits (s : string) (acc : Z) : option Z :=
  match s with
  | EmptyString => Some acc
  | String c s' =>
      match digit_of_ascii c with
      | Some d => parse_digits s' (10 * acc + d)%Z
      | None => None
      end
  end.

Definition parse_nat (s : string) : option Z :=
  match s with
  | EmptyString => None
  | _ => parse_digits s 0%Z
  end.

Definition parse_sign (s : string) : bool * string :=
  match s with
  | String "-" s' => (true, s')
  | String "+" s' => (false, s')
  | _ => (false, s)
  end.

Definition int_of_string (s : string) : option Z :=
  let '(neg, body) := parse_sign s in
  match parse_nat body with
  | Some n => Some (if neg then (- n)%Z else n)
  | None => None
  end.

Fixpoint split_dot (s : string) : string * option string :=
  match s with
  | EmptyString => (EmptyString, None)
  | String "." s' => (EmptyString, Some s')
  | String c s' => let '(a, b) := split_dot s' in (String c a, b)
  end.

(** A decimal literal as mantissa and number of fractional digits. *)
Definition decimal_of_string (s : string) : option (Z * nat) :=
  let '(neg, body) := parse_sign s in
  let '(ip, fp) := split_dot body in
  let fp := default EmptyString fp in
  match ip, fp with
  | EmptyString, EmptyString => None
  | _, _ =>
      match parse_digits ip 0%Z with
      | Some i =>
          match parse_digits fp i with
          | Some m => Some (if neg then (- m)%Z else m, String.length fp)
          | None => None
          end
      | None => None
      end
  end.

Definition decimal_to_R (d : Z * nat) : R :=
  (IZR (fst d) / IZR (10 ^ Z.of_nat (snd d)))%R.

Definition float_of_string (s : string) : option R :=
  decimal_to_R <$> decimal_of_string s.

(** Truncation toward zero, as [int()] does on a float. *)
Definition Ztrunc (x : R) : Z :=
  if decide (0 <= x)%R then Zfloor x else Zceil x.

Definition py_float (v : pyval) : result R :=
  match v with
  | VStr s =>
      match float_of_string s with
      | Some x => Ok x
      | None => Raise ValueError
      end
  | VInt z => Ok (IZR z)
  | VFloat x => Ok x
  | VNone => Raise TypeError
  end.

Definition py_int (v : pyval) : result Z :=
  match v with
  | VStr s =>
      match int_of_string s with
      | Some z => Ok z
      | None => Raise ValueError
      end
  | VInt z => Ok z
  | VFloat x => Ok (Ztrunc x)
  | VNone => Raise TypeError
  end.

(** [v == 'literal'] for a string literal: only an equal string is equal. *)
Definition py_eq_str (v : pyval) (s : string) : bool :=
  match v with
  | VStr s' => bool_decide (s' = s)
  | _ => false
  end.

(** [v - y] and [v + y] with a float [y]: a [str] or [None] operand is a
    [TypeError]. *)
Definition py_sub_float (v : pyval) (y : R) : result R :=
  match v with
  | VInt z => Ok (IZR z - y)%R
  | VFloat x => Ok (x - y)%R
  | VStr _ | VNone => Raise TypeError
  end.

Definition py_add_float (v : pyval) (y : R) : result R :=
  match v with
  | VInt z => Ok (IZR z + y)%R
  | VFloat x => Ok (x + y)%R
  | VStr _ | VNone => Raise TypeError
  end.

(** ** GeometryKernel *)

Module Geometry.
Local Open Scope R_scope.

(** [R = 6371] (kilometres; renamed, [R] being the type of the reals) and
    [resolution = 0.5] (metres). *)
Definition R_earth : R := 6371.
Definition resolution : R := 5 / 10.

Definition deg2rad (x : R) : R := x * (PI / 180).
Definition degrees (x : R) : R := x * (180 / PI).

(** [np.arctan2(y, x)], the angle of the point [(x, y)] in [(-PI, PI]]. *)
Definition arctan2 (y x : R) : R :=
  if decide (0 < x) then atan (y / x)
  else if decide (x < 0) then
         if decide (0 <= y) then atan (y / x) + PI else atan (y / x) - PI
  else if decide (0 < y) then PI / 2
  else if decide (y < 0) then - (PI / 2)
  else 0.

(** Python's [x % m] on floats, for a positive [m]: the result carries the
    sign of the divisor. *)
Definition py_fmod (x m : R) : R := x - IZR (Zfloor (x / m)) * m.

(** [np.rint]: round to the nearest integer, ties to the even one. *)
Definition rint (x : R) : Z :=
  let f := Zfloor x in
  let r := x - IZR f in
  if decide (r < 1 / 2) then f
  else if decide (1 / 2 < r) then (f + 1)%Z
  else if Z.even f then f else (f + 1)%Z.

(** [round(x, 2)] *)
Definition round2 (x : R) : R := IZR (rint (x * 100)) / 100.

Definition haversine_distance (lat0 lon0 lat1 lon1 : R) : R :=
  let lat_diff_rad := deg2rad (lat1 - lat0) in
  let lon_diff_rad := deg2rad (lon1 - lon0) in
  let radlat := deg2rad lat0 in
  let radlat1 := deg2rad lat1 in
  let a := (sin (lat_diff_rad / 2))² + (sin (lon_diff_rad / 2))² * cos radlat * cos radlat1 in
  let c := 2 * arctan2 (sqrt a) (sqrt (1 - a)) in
  R_earth * c * 1000.

Definition get_coordinates (lat lng bearing distance : R) : R * R :=
  let brng := deg2rad bearing in
  let d := distance / 1000 in
  let lat1 := deg2rad lat in
  let lon1 := deg2rad lng in
  let lat2 := asin (sin lat1 * cos (d / R_earth) + cos lat1 * sin (d / R_earth) * cos brng) in
  let lon2 := lon1 + arctan2 (sin brng * sin (d / R_earth) * cos lat1)
                             (cos (d / R_earth) - sin lat1 * sin lat2) in
  (degrees lat2, degrees lon2).

Definition quick_distance (lat0 lon0 lat1 lon1 : R) : R :=
  let x := lat1 - lat0 in
  let y := (lon1 - lon0) * cos ((lat1 + lat0) * (872664626 / 100000000000)) in
  111319 * sqrt (x * x + y * y).

Definition get_bearing (lat0 lon0 lat1 lon1 : R) : R :=
  let dlon := deg2rad lon1 - deg2rad lon0 in
  let dphi := ln (tan (deg2rad lat1 / 2 + PI / 4) / tan (deg2rad lat0 / 2 + PI / 4)) in
  let dlon :=
    if decide (PI < Rabs dlon) then
      if decide (0 < dlon) then - (2 * PI - dlon) else 2 * PI + dlon
    else dlon in
  py_fmod (degrees (arctan2 dlon dphi) + 360) 360.

End Geometry.
Export Geometry.

(** ** Python numbers whose kind matters

    [a / b] raises [ZeroDivisionError] on a zero divisor when both operands
    are Python numbers, and yields a non-finite [float64] when one of them
    is a numpy [float64].  The kind is therefore tracked wherever a number
    can reach a division. *)

Inductive num : Type :=
| PyInt (z : Z)
| PyFloat (x : R)
| NpFloat (x : R).

Definition num_val (n : num) : R :=
  match n with
  | PyInt z => IZR z
  | PyFloat x => x
  | NpFloat x => x
  end.

Definition is_np (n : num) : bool :=
  match n with
  | NpFloat _ => true
  | _ => false
  end.

Definition num_add (a b : num) : num :=
  match a, b with
  | PyInt x, PyInt y => PyInt (x + y)
  | NpFloat _, _ | _, NpFloat _ => NpFloat (num_val a + num_val b)
  | _, _ => PyFloat (num_val a + num_val b)
  end.

Definition num_mul (a b : num) : num :=
  match a, b with
  | PyInt x, PyInt y => PyInt (x * y)
  | NpFloat _, _ | _, NpFloat _ => NpFloat (num_val a * num_val b)
  | _, _ => PyFloat (num_val a * num_val b)
  end.

(** True division [a / b]. *)
Definition num_div (a b : num) : result num :=
  if is_np a || is_np b then
    if decide (num_val b = 0%R) then NonFinite
    else Ok (NpFloat (num_val a / num_val b))
  else
    if decide (num_val b = 0%R) then Raise ZeroDivisionError
    else Ok (PyFloat (num_val a / num_val b)).

(** [round(n, 2)] keeps the kind of a float. *)
Definition num_round2 (n : num) : num :=
  match n with
  | PyInt z => PyInt z
  | PyFloat x => PyFloat (round2 x)
  | NpFloat x => NpFloat (round2 x)
  end.

(** *** Non-finite floats in the exposure pass

    The quotient of two numpy floats by a zero divisor is [inf], or [nan]
    for [0 / 0]; numpy warns and the program goes on.  The sign of an
    infinity is not tracked: its only use is as a divisor, which gives a
    zero. *)
Inductive xnum : Type :=
| Finite (n : num)
| Infinity
| NotANumber.

(** [a / b] for two numpy floats. *)
Definition np_div (a b : R) : xnum :=
  if decide (b = 0%R) then (if decide (a = 0%R) then NotANumber else Infinity)
  else Finite (NpFloat (a / b)).

(** A float that may be [nan]. *)
Inductive or_nan (A : Type) : Type :=
| Number (a : A)
| Nan.
Arguments Number {A} a.
Arguments Nan {A}.

(** [a + b] and [round(t, 2)], which keep a [nan]. *)
Definition nan_add (a b : or_nan R) : or_nan R :=
  match a, b with
  | Number x, Number y => Number (x + y)%R
  | _, _ => Nan
  end.

Definition nan_round2 (t : or_nan num) : or_nan R :=
  match t with
  | Number c => Number (round2 (num_val c))
  | Nan => Nan
  end.

(** ** Track points and sequences *)

(** A [gpxpy] track point: [time] is a [datetime], held as its
    [timestamp()] in seconds, or [None]; [speed] is a float or [None]. *)
Record point : Type := Point {
  latitude : R;
  longitude : R;
  time : option R;
  speed : option R
}.

(** [l[i]] with Python's negative indices. *)
Definition py_index {A} (l : list A) (i : Z) : result A :=
  let n := Z.of_nat (length l) in
  let j := if (i <? 0)%Z then (n + i)%Z else i in
  if (j <? 0)%Z then Raise IndexError
  else match l !! Z.to_nat j with
       | Some a => Ok a
       | None => Raise IndexError
       end.

(** [enumerate(l)], counting from [i]. *)
Fixpoint enumerate_from {A} (i : nat) (l : list A) : list (nat * A) :=
  match l with
  | [] => []
  | x :: l' => (i, x) :: enumerate_from (S i) l'
  end.

Definition enumerate {A} (l : list A) : list (nat * A) := enumerate_from 0 l.

(** A [for] loop whose body may raise, with the loop variables in [b]. *)
Fixpoint for_result {A B} (body : B -> A -> result B) (l : list A) (b : B) : result B :=
  match l with
  | [] => Ok b
  | x :: l' => b' ← body b x; for_result body l' b'
  end.

(** ** The [CCTVExposure] object *)

(** One entry of [cam_expo]: [{'points': [], 'dist': 0.0, 'time': 0.0}]. *)
Record expo : Type := Expo {
  expo_points : list nat;
  expo_dist : R;
  expo_time : or_nan R
}.

(** The attributes of [self].  [cams] maps the row index to the record, so
    it is the list of records; [cameras_per_point] keeps its insertion
    order; a prediction dict is represented by its keys, its values being
    the records of [cams].  [total_time] is the length of the [timedelta] in
    seconds (the source stores the int [0] when time is disabled and never
    reads it then). *)
Record exposure : Type := Exposure {
  radius : option Z;
  accept_range : R;
  cams : list camera;
  time_enabled : bool;
  points : list point;
  distances : list R;
  cameras_per_point : list (nat * list nat);
  unique_cameras : gset nat;
  cam_amount : nat;
  cam_expo : gmap nat expo;
  speed_enabled : bool;
  total_distance : num;
  total_time : R
}.

Definition set_time_enabled (b : bool) (s : exposure) : exposure :=
  Exposure (radius s) (accept_range s) (cams s) b (points s) (distances s)
    (cameras_per_point s) (unique_cameras s) (cam_amount s) (cam_expo s)
    (speed_enabled s) (total_distance s) (total_time s).
Definition set_speed_enabled (b : bool) (s : exposure) : exposure :=
  Exposure (radius s) (accept_range s) (cams s) (time_enabled s) (points s) (distances s)
    (cameras_per_point s) (unique_cameras s) (cam_amount s) (cam_expo s)
    b (total_distance s) (total_time s).
Definition set_distances (d : list R) (s : exposure) : exposure :=
  Exposure (radius s) (accept_range s) (cams s) (time_enabled s) (points s) d
    (cameras_per_point s) (unique_cameras s) (cam_amount s) (cam_expo s)
    (speed_enabled s) (total_distance s) (total_time s).
Definition set_cameras_per_point (c : list (nat * list nat)) (s : exposure) : exposure :=
  Exposure (radius s) (accept_range s) (cams s) (time_enabled s) (points s) (distances s)
    c (unique_cameras s) (cam_amount s) (cam_expo s)
    (speed_enabled s) (total_distance s) (total_time s).
Definition set_unique_cameras (u : gset nat) (s : exposure) : exposure :=
  Exposure (radius s) (accept_range s) (cams s) (time_enabled s) (points s) (distances s)
    (cameras_per_point s) u (cam_amount s) (cam_expo s)
    (speed_enabled s) (total_distance s) (total_time s).
Definition set_cam_amount (n : nat) (s : exposure) : exposure :=
  Exposure (radius s) (accept_range s) (cams s) (time_enabled s) (points s) (distances s)
    (cameras_per_point s) (unique_cameras s) n (cam_expo s)
    (speed_enabled s) (total_distance s) (total_time s).
Definition set_cam_expo (e : gmap nat expo) (s : exposure) : exposure :=
  Exposure (radius s) (accept_range s) (cams s) (time_enabled s) (points s) (distances s)
    (cameras_per_point s) (unique_cameras s) (cam_amount s) e
    (speed_enabled s) (total_distance s) (total_time s).
Definition set_totals (d : num) (t : R) (s : exposure) : exposure :=
  Exposure (radius s) (accept_range s) (cams s) (time_enabled s) (points s) (distances s)
    (cameras_per_point s) (unique_cameras s) (cam_amount s) (cam_expo s)
    (speed_enabled s) d t.

(** A method that mutates [self]: the mutated object comes back with the
    outcome, also when the outcome is an exception. *)
Definition method (A : Type) : Type := exposure -> exposure * result A.

#[global] Instance method_ret : MRet method := fun _ a s => (s, Ok a).
#[global] Instance method_bind : MBind method := fun _ _ k m s =>
  match m s with
  | (s', Ok a) => k a s'
  | (s', Raise e) => (s', Raise e)
  | (s', NonFinite) => (s', NonFinite)
  end.

Definition lift {A} (r : result A) : method A := fun s => (s, r).
Definition self_get {A} (f : exposure -> A) : method A := fun s => (s, Ok (f s)).
Definition self_set (f : exposure -> exposure) : method unit := fun s => (f s, Ok tt).

(** A [for] loop in a method, with the loop variables in [b]. *)
Fixpoint for_method {A B} (body : B -> A -> method B) (l : list A) (b : B) : method B :=
  match l with
  | [] => mret b
  | x :: l' => b' ← body b x; for_method body l' b'
  end.

(** ** CameraCatalog *)

(** One row of the table: every non-empty cell is stored, as the string it
    is, under the header of its column; a cell beyond the header row is an
    [IndexError] ([columns[i]]). *)
Definition load_row (columns : list string) (row : list string) : result camera :=
  for_result
    (fun (cam : camera) '(i, column) =>
       if bool_decide (column ≠ "") then
         name ← py_index columns (Z.of_nat i);
         Ok (<[name := VStr column]> cam)
       else Ok cam)
    (enumerate row) ∅.

(** [load_cameras]: [camfile] is what opening and reading the file gives,
    an exception or the rows of the table.  [PermissionError] and
    [FileNotFoundError] are logged and raised again. *)
Definition load_cameras (camfile : result (list (list string))) : result (list camera) :=
  rows ← camfile;
  match rows with
  | [] => Raise StopIteration
  | columns :: reader =>
      for_result (fun cams row => cam ← load_row columns row; Ok (cams ++ [cam])) reader []
  end.

(** [self.radius if self.radius else float(cam.get('radius', 10))] *)
Definition fov_radius (self : exposure) (cam : camera) : result R :=
  match radius self with
  | Some r => if bool_decide (r ≠ 0%Z) then Ok (IZR r)
              else py_float (dict_get cam "radius" (VInt 10))
  | None => py_float (dict_get cam "radius" (VInt 10))
  end.

Definition check_dist_to_cam (self : exposure) (d : R) (cam : camera)
    (lat lon : R) (addon : R) : result bool :=
  fov ← fov_radius self cam;
  if decide (d <= fov + addon)%R then
    let camtype := dict_get cam "camera type" (VStr "round") in
    if py_eq_str camtype "round" then Ok true
    else if py_eq_str camtype "directed" then
      angle ← py_int (dict_get cam "angle of view" (VStr "360"));
      let direction := dict_get cam "direction" VNone in
      if bool_decide (angle < 360)%Z then
        lo ← py_sub_float direction (IZR angle / 2);
        hi ← py_add_float direction (IZR angle / 2);
        let fov_range := (py_fmod (lo + 360) 360, py_fmod (hi + 360) 360) in
        clat ← py_float (dict_get cam "latitude" VNone);
        clon ← py_float (dict_get cam "longitude" VNone);
        let bearing := get_bearing clat clon lat lon in
        if bool_decide (fov_range.1 <= bearing)%R && bool_decide (bearing <= fov_range.2)%R
        then Ok true
        else Ok false
      else Ok true
    else Ok false
  else Ok false.

(** The FOV test of a point against one camera, as both callers write it:
    the quick distance to the camera, then [check_dist_to_cam]. *)
Definition is_in_fov (self : exposure) (cam : camera) (lat lon : R) (addon : R)
    : result (R * bool) :=
  clat ← py_float (dict_get cam "latitude" VNone);
  clon ← py_float (dict_get cam "longitude" VNone);
  let distance := quick_distance lat lon clat clon in
  b ← check_dist_to_cam self distance cam lat lon addon;
  Ok (distance, b).

(** ** RouteExposureTracker *)

Definition point_in_camera_fov (self : exposure) (lat lon : R)
    : result (list nat * list R) :=
  for_result
    (fun (acc : list nat * list R) (item : nat * camera) =>
       let '(results, distances) := acc in
       let '(cam_id, cam) := item in
       '(distance, b) ← is_in_fov self cam lat lon 0%R;
       let distances := distances ++ [distance] in
       if (b : bool) then Ok (results ++ [cam_id], distances) else Ok (results, distances))
    (enumerate (cams self)) ([], []).

Definition track_point (item : nat * point) : method unit :=
  let '(index, p) := item in
  (match time p with Some _ => mret tt | None => self_set (set_time_enabled false) end);;
  self ← self_get (fun s => s);
  '(predictions, dists) ← lift (point_in_camera_fov self (latitude p) (longitude p));
  (match speed p with
   | Some v => if bool_decide (v ≠ 0%R) then self_set (set_speed_enabled true) else mret tt
   | None => mret tt
   end);;
  self_set (fun s => set_distances (distances s ++ dists) s);;
  match (predictions : list nat) with
  | [] => mret tt
  | _ =>
      self_set (fun s => set_cameras_per_point (cameras_per_point s ++ [(index, predictions)]) s);;
      self_set (fun s => set_unique_cameras (unique_cameras s ∪ list_to_set predictions) s)
  end.

Definition track_route : method unit :=
  pts ← self_get points;
  for_method (fun _ item => track_point item) (enumerate pts) tt;;
  self_set (fun s => set_cam_amount (size (unique_cameras s)) s).

Definition get_total_distance (self : exposure) : result num :=
  let number_of_points := length (points self) in
  for_result
    (fun distance (i : nat) =>
       a ← py_index (points self) (-1 - Z.of_nat i);
       b ← py_index (points self) (-2 - Z.of_nat i);
       Ok (num_add distance
             (NpFloat (quick_distance (latitude a) (longitude a) (latitude b) (longitude b)))))
    (seq 0 (number_of_points - 1)) (PyInt 0).

(** [self.cams[cam]] *)
Definition cams_lookup (self : exposure) (cam : nat) : result camera :=
  match cams self !! cam with
  | Some c => Ok c
  | None => Raise KeyError
  end.

(** The difference of two [datetime]s, in seconds; [None] is no operand. *)
Definition time_diff (a b : option R) : result R :=
  match a, b with
  | Some x, Some y => Ok (x - y)%R
  | _, _ => Raise TypeError
  end.

(** [p.time.timestamp()] *)
Definition timestamp (p : point) : result R :=
  match time p with
  | Some t => Ok t
  | None => Raise AttributeError
  end.

(** [dist] and [np.absolute(...)] are numpy floats: for equal times the
    quotient is [inf] or [nan], not an exception. *)
Definition avg_speed_per_point (self : exposure) (dist : R) (point1 point2 : nat)
    : result xnum :=
  p2 ← py_index (points self) (Z.of_nat point2);
  p1 ← py_index (points self) (Z.of_nat point1);
  dt ← time_diff (time p2) (time p1);
  Ok (np_div dist (Rabs dt)).

(** The loop of [test_points]: [n] hops are left, [(lat, lon)] is the last
    pseudo point and [res] (the source's [result]) the number of hops
    accepted so far. *)
Fixpoint test_points_loop (self : exposure) (cam : nat) (course : R) (n : nat)
    (lat lon : R) (res : Z) : result Z :=
  match n with
  | O => Ok res
  | S n' =>
      let '(new_lat, new_lon) := get_coordinates lat lon course resolution in
      c ← cams_lookup self cam;
      '(_, b) ← is_in_fov self c new_lat new_lon (accept_range self);
      if (b : bool) then test_points_loop self cam course n' new_lat new_lon (res + 1)%Z
      else Ok res
  end.

Definition test_points (self : exposure) (ind : nat) (npoints : Z) (cam : nat)
    (course : R) : result Z :=
  p ← py_index (points self) (Z.of_nat ind);
  test_points_loop self cam course (Z.to_nat npoints) (latitude p) (longitude p) 0%Z.

(** [d.get(k)] on [cameras_per_point]. *)
Fixpoint assoc_get {V} (l : list (nat * V)) (k : nat) : option V :=
  match l with
  | [] => None
  | (k', v) :: l' => if bool_decide (k' = k) then Some v else assoc_get l' k
  end.

(** Lines 204-212 of [calculate_direction]: the speed and the time in the
    FOV.  The speed is [None], the int [0] or a float, which is [inf] or
    [nan] when [avg_speed_per_point] divided by zero: [inf != 0] and
    [nan != 0] hold, a float divided by [inf] is [0.0] and divided by
    [nan] is [nan]. *)
Definition exposure_time (self : exposure) (point_ind other_point : nat)
    (distance : R) (pseudo_points : Z) : result (or_nan num) :=
  speed ← (if speed_enabled self then
             p ← py_index (points self) (Z.of_nat point_ind);
             Ok ((fun v => Finite (PyFloat v)) <$> speed p)
           else if time_enabled self then
             Some <$> avg_speed_per_point self distance point_ind other_point
           else Ok (Some (Finite (PyInt 0))));
  match speed with
  | None => Raise TypeError
  | Some (Finite v) =>
      if bool_decide (num_val v ≠ 0%R) then
        Number <$> num_div (PyFloat (IZR pseudo_points / (1 / resolution))) v
      else
        po ← py_index (points self) (Z.of_nat other_point);
        to ← timestamp po;
        pp ← py_index (points self) (Z.of_nat point_ind);
        tp ← timestamp pp;
        Ok (Number (NpFloat (Rabs (to - tp))))
  | Some Infinity => Ok (Number (NpFloat 0))
  | Some NotANumber => Ok Nan
  end.

Definition new_expo : expo := Expo [] 0 (Number 0%R).

Definition expo_append (i : nat) (e : expo) : expo :=
  Expo (expo_points e ++ [i]) (expo_dist e) (expo_time e).
Definition expo_add_time (t : or_nan R) (e : expo) : expo :=
  Expo (expo_points e) (expo_dist e) (nan_add (expo_time e) t).
Definition expo_add_dist (d : R) (e : expo) : expo :=
  Expo (expo_points e) (expo_dist e + d) (expo_time e).

(** [self.cam_expo[cam]] is updated in place. *)
Definition update_expo (cam : nat) (f : expo -> expo) : method unit :=
  self_set (fun s => set_cam_expo (alter f cam (cam_expo s)) s).

(** [self.cameras_per_point.get(k) and cam in self.cameras_per_point[k]] *)
Definition seen_at (self : exposure) (k cam : nat) : bool :=
  match assoc_get (cameras_per_point self) k with
  | Some (c :: cs) => bool_decide (cam ∈ c :: cs)
  | _ => false
  end.

(** The body of the inner loop of [calculate_direction], for one camera
    of the point; [highest] holds [highest_dist] and [highest_time]. *)
Definition calculate_camera (backward : bool) (point_ind other_point : nat)
    (distance : R) (npoints : Z) (course : R)
    (highest : R * num) (cam : nat) : method (R * num) :=
  let '(highest_dist, highest_time) := highest in
  known ← self_get (fun s => cam_expo s !! cam);
  (match known with
   | None => self_set (fun s => set_cam_expo (<[cam := new_expo]> (cam_expo s)) s)
   | Some _ => mret tt
   end);;
  e ← self_get (fun s => default new_expo (cam_expo s !! cam));
  if negb backward && bool_decide (point_ind + 1 ∈ expo_points e) then
    mret highest
  else
    (if bool_decide (point_ind ∉ expo_points e)
     then update_expo cam (expo_append point_ind)
     else mret tt);;
    self ← self_get (fun s => s);
    pseudo_points ←
      lift (if backward && seen_at self (point_ind - 1) cam then Ok npoints
            else test_points self point_ind npoints cam course);
    cam_time ← lift (exposure_time self point_ind other_point distance pseudo_points);
    let highest_time :=
      match cam_time with
      | Number c => if decide (num_val highest_time < num_val c)%R then c else highest_time
      | Nan => highest_time
      end in
    update_expo cam (expo_add_time (nan_round2 cam_time));;
    let cam_dist := (IZR pseudo_points / (1 / resolution))%R in
    let highest_dist :=
      if decide (highest_dist < cam_dist)%R then cam_dist else highest_dist in
    update_expo cam (expo_add_dist cam_dist);;
    mret (highest_dist, highest_time).

(** The neighbour of a point in the direction of the pass, [None] where
    the source [continue]s. *)
Definition neighbour (backward : bool) (number_of_points point_ind : nat) : option nat :=
  if backward then
    if bool_decide (point_ind ≠ 0) then Some (point_ind - 1) else None
  else
    if bool_decide (Z.of_nat point_ind ≠ Z.of_nat number_of_points - 1)%Z
    then Some (point_ind + 1) else None.

(** The body of the outer loop, for one entry of [cameras_per_point];
    [totals] holds [total_seconds] and [total_meters]. *)
Definition calculate_point (backward : bool) (totals : num * R)
    (item : nat * list nat) : method (num * R) :=
  let '(total_seconds, total_meters) := totals in
  let '(point_ind, cameras) := item in
  self ← self_get (fun s => s);
  match neighbour backward (length (points self)) point_ind with
  | None => mret totals
  | Some other_point =>
      p ← lift (py_index (points self) (Z.of_nat point_ind));
      q ← lift (py_index (points self) (Z.of_nat other_point));
      let course := get_bearing (latitude p) (longitude p) (latitude q) (longitude q) in
      let distance := quick_distance (latitude p) (longitude p) (latitude q) (longitude q) in
      let npoints :=
        if decide (resolution < distance)%R then rint (distance / resolution) else 1%Z in
      '(highest_dist, highest_time) ←
        for_method (calculate_camera backward point_ind other_point distance npoints course)
          cameras (0%R, PyFloat 0);
      mret (num_add total_seconds highest_time, (total_meters + highest_dist)%R)
  end.

(** Returns [(total_meters, total_seconds)]. *)
Definition calculate_direction (backward : bool) : method (R * num) :=
  items ← self_get cameras_per_point;
  '(total_seconds, total_meters) ←
    for_method (calculate_point backward) items (PyFloat 0, 0%R);
  mret (total_meters, total_seconds).

Definition time_and_distance_in_camera_fov : method (R * num) :=
  '(back_d, back_t) ← calculate_direction true;
  '(front_d, front_t) ← calculate_direction false;
  mret ((back_d + front_d)%R, num_add back_t front_t).

(** The attributes as [__init__] sets them before it calls
    [track_route]. *)
Definition fresh_exposure (args_radius : option Z) (loaded : list camera)
    (gpx_points : list point) : exposure :=
  Exposure args_radius 1 loaded true gpx_points [] [] ∅ 0 ∅ false (PyInt 0) 0.

(** [CCTVExposure.__init__]: [args_radius] is [args.radius], [camfile] what
    reading [args.camfile] gives and [gpx_points] the points of the
    segment. *)
Definition init (args_radius : option Z) (camfile : result (list (list string)))
    (gpx_points : list point) : result exposure :=
  loaded ← load_cameras camfile;
  match track_route (fresh_exposure args_radius loaded gpx_points) with
  | (self, Ok _) =>
      distance ← get_total_distance self;
      elapsed ← (if time_enabled self then
                   last_point ← py_index (points self) (-1);
                   first_point ← py_index (points self) 0;
                   time_diff (time last_point) (time first_point)
                 else Ok 0%R);
      Ok (set_totals distance elapsed self)
  | (_, Raise e) => Raise e
  | (_, NonFinite) => NonFinite
  end.

(** ** DistanceStats: [calc_distance_stats] *)

(** [np.average] of a non-empty list. *)
Definition average (l : list R) : R := (foldr Rplus 0 l / INR (length l))%R.

(** [np.median] of a non-empty list: the middle element of the sorted
    list, or the mean of the two middle elements. *)
Definition median (l : list R) : R :=
  let sorted := merge_sort Rle l in
  let n := length l in
  if Nat.even n then
    ((default 0 (sorted !! (n / 2 - 1)%nat) + default 0 (sorted !! (n / 2)%nat)) / 2)%R
  else default 0%R (sorted !! (n / 2)).

(** Returns [(avg, median)], the int 0 twice when no distance was
    recorded. *)
Definition calc_distance_stats (self : exposure) : num * num :=
  match distances self with
  | [] => (PyInt 0, PyInt 0)
  | _ => (NpFloat (average (distances self)), NpFloat (median (distances self)))
  end.

(** ** StatisticsAggregator: the report of [main] for one segment

    The numeric entries of the [result] dict: [timing] holds [avg_speed],
    [time_percentage] and [exposure_time] and is present when time is
    enabled; [cameras] holds, per observed camera, [time_in_camera_fov] and
    [distance_in_camera_fov].  The file name, the track and segment numbers
    and the two statistics of [calc_distance_stats] are left out. *)
Record report : Type := Report {
  rep_total_distance : num;
  number_of_unique_cams : nat;
  exposure_distance : R;
  dist_percentage : num;
  timing : option (num * num * num);
  rep_fov_radius : option Z;
  rep_cameras : list (nat * (or_nan R * R))
}.

Definition main_segment (args_radius : option Z)
    (camfile : result (list (list string))) (segment : list point) : result report :=
  exposure ← init args_radius camfile segment;
  match time_and_distance_in_camera_fov exposure with
  | (exposure, Ok (dist, elapsed)) =>
      ratio ← num_div (PyFloat dist) (total_distance exposure);
      let dist_percentage := num_mul ratio (PyInt 100) in
      timing ←
        (if time_enabled exposure then
           tratio ← num_div elapsed (PyFloat (total_time exposure));
           let time_percentage := num_mul tratio (PyInt 100) in
           v ← num_div (total_distance exposure) (PyFloat (total_time exposure));
           Ok (Some (num_round2 (num_mul v (PyFloat (36 / 10))),
                     num_round2 time_percentage, elapsed))
         else Ok None);
      let shown_radius :=
        match radius exposure with
        | Some r => if bool_decide (r ≠ 0%Z) then Some r else None
        | None => None
        end in
      per_camera ←
        for_result
          (fun acc cam =>
             match cam_expo exposure !! cam with
             | Some e => Ok (acc ++ [(cam, (expo_time e, expo_dist e))])
             | None => Raise KeyError
             end)
          (elements (unique_cameras exposure)) [];
      Ok (Report (total_distance exposure) (cam_amount exposure) dist
            (num_round2 dist_percentage) timing shown_radius per_camera)
  | (_, Raise e) => Raise e
  | (_, NonFinite) => NonFinite
  end.

(** * Specifications and sample inputs

    The predicates the properties are stated with, and the concrete
    catalogues and tracks they are checked on. *)

(** A camera is round when its type is ['round'] or is not given. *)
Definition is_round (cam : camera) : Prop :=
  py_eq_str (dict_get cam "camera type" (VStr "round")) "round" = true.

(** A camera is directed when its type cell is ['directed']. *)
Definition is_directed (cam : camera) : Prop :=
  dict_get cam "camera type" (VStr "round") = VStr "directed".

(** The camera's own radius: its cell, or 10 when the cell is missing. *)
Definition own_radius (cam : camera) : result R :=
  match cam !! "radius" with
  | Some v => py_float v
  | None => Ok 10%R
  end.

(** The effective radius as the specification words it: the override
    whenever one was configured. *)
Definition claimed_radius (override : option Z) (cam : camera) : result R :=
  match override with
  | Some z => Ok (IZR z)
  | None => own_radius cam
  end.

(** The effective radius as the source computes it: an override of 0 counts
    as no override. *)
Definition effective_radius (override : option Z) (cam : camera) : result R :=
  match override with
  | Some z => if bool_decide (z = 0%Z) then own_radius cam else Ok (IZR z)
  | None => own_radius cam
  end.

(** The record of a table row that gives a position only: a round camera
    at the origin with the default radius. *)
Definition cam_origin : camera :=
  <["latitude" := VStr "0"]> (<["longitude" := VStr "0"]> ∅).

(** The same camera declared directed with a full angle of view. *)
Definition cam_directed_360 : camera :=
  <["camera type" := VStr "directed"]> (<["angle of view" := VStr "360"]> cam_origin).

(** Every cell of the record is a string. *)
Definition all_str (cam : camera) : Prop :=
  forall key v, cam !! key = Some v -> exists s, v = VStr s.

(** A table with one directed camera looking towards 350 degrees with an
    angle of view of 40, and the record [load_cameras] builds from it. *)
Definition catalog_directed : list (list string) :=
  [ ["latitude"; "longitude"; "camera type"; "angle of view"; "direction"];
    ["0"; "0"; "directed"; "40"; "350"] ].

Definition cam_directed_350 : camera :=
  <["latitude" := VStr "0"]> (<["longitude" := VStr "0"]>
  (<["camera type" := VStr "directed"]> (<["angle of view" := VStr "40"]>
  (<["direction" := VStr "350"]> ∅)))).

(** The angular range of the specification: [b] lies in [[lo, hi]] taken
    modulo 360. *)
Definition in_range_mod_360 (lo hi b : R) : Prop :=
  exists k : Z, (lo <= b + 360 * IZR k <= hi)%R.

(** The same record with the direction as a number instead of a cell. *)
Definition cam_directed_350_numeric : camera :=
  <["direction" := VFloat 350]> cam_directed_350.

(** The length of a route for a given distance between two points. *)
Fixpoint route_length (dist : point -> point -> R) (l : list point) : R :=
  match l with
  | p :: (q :: _) as l' => (dist p q + route_length dist l')%R
  | _ => 0%R
  end.

(** The two distances of the source between two track points. *)
Definition quick_leg (p q : point) : R :=
  quick_distance (latitude p) (longitude p) (latitude q) (longitude q).

Definition haversine_leg (p q : point) : R :=
  haversine_distance (latitude p) (longitude p) (latitude q) (longitude q).

(** The loop of [get_total_distance] over a list of points. *)
Definition total_distance_loop (l : list point) (acc : num) : result num :=
  for_result
    (fun distance (i : nat) =>
       a ← py_index l (-1 - Z.of_nat i);
       b ← py_index l (-2 - Z.of_nat i);
       Ok (num_add distance
             (NpFloat (quick_distance (latitude a) (longitude a) (latitude b) (longitude b)))))
    (seq 0 (length l - 1)) acc.

(** Two points a thousandth of a degree apart on the zero meridian. *)
Definition track_meridian : list point :=
  [Point 0 0 None None; Point (1 / 1000) 0 None None].

(** [triple P m Q E]: from an object satisfying [P], the method [m] either
    returns [a] leaving an object that satisfies [Q a], or stops with an
    exception or a non-finite value leaving an object that satisfies [E]. *)
Definition triple {A} (P : exposure -> Prop) (m : method A)
    (Q : A -> exposure -> Prop) (E : exposure -> Prop) : Prop :=
  forall s, P s ->
    match m s with
    | (s', Ok a) => Q a s'
    | (s', _) => E s'
    end.

(** No camera's list of visited points holds an index twice. *)
Definition expo_nodup (s : exposure) : Prop :=
  forall cam e, cam_expo s !! cam = Some e -> NoDup (expo_points e).

(** The loop variables of the exposure pass are not negative. *)
Definition nonneg_highest (b : R * num) : Prop := (0 <= b.1)%R /\ (0 <= num_val b.2)%R.

Definition nonneg_totals (b : num * R) : Prop := (0 <= num_val b.1)%R /\ (0 <= b.2)%R.

(** The pass touches [cam_expo] only. *)
Definition same_but_expo (s0 s : exposure) : Prop :=
  set_cam_expo ∅ s = set_cam_expo ∅ s0.

(** The point lies outside the effective radius of the camera. *)
Definition outside (override : option Z) (cam : camera) (p : point) : Prop :=
  exists clat clon r,
    py_float (dict_get cam "latitude" VNone) = Ok clat
    /\ py_float (dict_get cam "longitude" VNone) = Ok clon
    /\ effective_radius override cam = Ok r
    /\ (r < quick_distance (latitude p) (longitude p) clat clon)%R.

(** What the membership pass maintains on such a track. *)
Definition outside_inv (override : option Z) (catalog : list camera)
    (segment : list point) (seen : list (nat * point)) (s : exposure) : Prop :=
  radius s = override /\ cams s = catalog /\ points s = segment
  /\ cameras_per_point s = [] /\ unique_cameras s = ∅
  /\ (time_enabled s = true -> forall item, item ∈ seen -> time item.2 <> None).

(** The table whose only row is the camera at the origin. *)
Definition catalog_origin : list (list string) :=
  [ ["latitude"; "longitude"]; ["0"; "0"] ].

(** Two points one and two degrees north of the origin, without time. *)
Definition track_far : list point :=
  [Point 1 0 None None; Point 2 0 None None].

(** Two points 0.111319 m apart, 10 s apart, both within 10 m of the
    origin. *)
Definition track_short : list point :=
  [Point 0 0 (Some 0%R) None; Point (1 / 1000000) 0 (Some 10%R) None].

(** The object [__init__] builds for [track_short] under the catalogue
    [catalog_origin]: both points see camera 0. *)
Definition demo_exposure : exposure :=
  Exposure None 1 [cam_origin] true track_short
    [0%R; (111319 / 1000000)%R] [(0, [0]); (1, [0])] {[0]} 1 ∅ false
    (NpFloat (111319 / 1000000)) 10.

(** A track of one point, at the origin. *)
Definition track_single : list point := [Point 0 0 (Some 0%R) None].

(** The object [__init__] builds for the single point. *)
Definition single_exposure : exposure :=
  Exposure None 1 [cam_origin] true track_single [0%R] [(0, [0])] {[0]} 1 ∅ false
    (PyInt 0) 0.

(** An outcome that is neither a division fault nor a non-finite number. *)
Definition division_guarded {A} (r : result A) : Prop :=
  r <> Raise ZeroDivisionError /\ r <> NonFinite.

(** The point carries a nonzero speed. *)
Definition has_speed (p : point) : Prop :=
  exists v, speed p = Some v /\ v <> 0%R.


(** [track_short] with a speed of 1 m/s on the first point and none on the
    second. *)
Definition track_speed : list point :=
  [Point 0 0 (Some 0%R) (Some 1%R); Point (1 / 1000000) 0 (Some 10%R) None].

(** The object after [track_route] on [track_speed]. *)
Definition speed_exposure : exposure :=
  Exposure None 1 [cam_origin] true track_speed
    [0%R; (111319 / 1000000)%R] [(0, [0]); (1, [0])] {[0]} 1 ∅ true (PyInt 0) 0.

(** What a cell contributes to the record: nothing when it is empty. *)
Definition cell_value (row : list string) (i : nat) : option pyval :=
  match row !! i with
  | Some cell => if bool_decide (cell ≠ "") then Some (VStr cell) else None
  | None => None
  end.

(** A row reaches beyond the header with a non-empty cell. *)
Definition surplus_cell (columns row : list string) : Prop :=
  exists i cell, row !! i = Some cell /\ cell ≠ "" /\ length columns <= i.

(** The loop of [load_row] from column [k] on. *)
Definition load_row_loop (columns : list string) (k : nat) (cells : list string)
    (acc : camera) : result camera :=
  for_result
    (fun (cam : camera) '(i, column) =>
       if bool_decide (column ≠ "") then
         name ← py_index columns (Z.of_nat i);
         Ok (<[name := VStr column]> cam)
       else Ok cam)
    (enumerate_from k cells) acc.

(** The object [track_point] leaves when it returns, given the outcome
    of [point_in_camera_fov]. *)
Definition after_track_point (index : nat) (p : point) (predictions : list nat)
    (dists : list R) (s : exposure) : exposure :=
  let s1 := match time p with Some _ => s | None => set_time_enabled false s end in
  let s2 := match speed p with
            | Some v => if bool_decide (v ≠ 0%R) then set_speed_enabled true s1 else s1
            | None => s1
            end in
  let s3 := set_distances (distances s2 ++ dists) s2 in
  match predictions with
  | [] => s3
  | _ => set_unique_cameras (unique_cameras s3 ∪ list_to_set predictions)
           (set_cameras_per_point (cameras_per_point s3 ++ [(index, predictions)]) s3)
  end.

(** What [track_route] has established after the points [seen], starting
    from the object [s0]. *)
Definition track_inv (s0 : exposure) (seen : list (nat * point)) (s : exposure) : Prop :=
  radius s = radius s0 /\ cams s = cams s0 /\ points s = points s0
  /\ cam_expo s = cam_expo s0
  /\ length (distances s) = length (distances s0) + length seen * length (cams s0)
  /\ (forall k item ds c d,
        seen !! k = Some item ->
        point_in_camera_fov s0 (latitude item.2) (longitude item.2) = Ok ds ->
        ds.2 !! c = Some d ->
        distances s !! (length (distances s0) + k * length (cams s0) + c) = Some d)
  /\ (time_enabled s = true <->
      time_enabled s0 = true /\ forall item, item ∈ seen -> time item.2 <> None)
  /\ (speed_enabled s = true <->
      speed_enabled s0 = true \/ exists item, item ∈ seen /\ has_speed item.2)
  /\ (forall item, item ∈ seen ->
        exists ds, point_in_camera_fov s0 (latitude item.2) (longitude item.2) = Ok ds)
  /\ (exists added, cameras_per_point s = cameras_per_point s0 ++ added
        /\ added.*1 `sublist_of` seen.*1
        /\ forall i preds, (i, preds) ∈ added <->
             preds <> [] /\ exists p dists, (i, p) ∈ seen
               /\ point_in_camera_fov s0 (latitude p) (longitude p) = Ok (preds, dists))
  /\ (forall c, c ∈ unique_cameras s <->
        c ∈ unique_cameras s0
        \/ exists item preds dists, item ∈ seen
             /\ point_in_camera_fov s0 (latitude item.2) (longitude item.2)
                = Ok (preds, dists)
             /\ c ∈ preds).

(** The pseudo point reached after [k] hops of [resolution] metres from
    [(lat, lon)] on the bearing [course], as [test_points] computes it. *)
Definition pseudo_point (lat lon course : R) (k : nat) : R * R :=
  Nat.iter k (fun pos => get_coordinates pos.1 pos.2 course resolution) (lat, lon).

(** The test [test_points] applies to a pseudo point. *)
Definition hop_in_fov (self : exposure) (cam : nat) (pos : R * R) : result bool :=
  c ← cams_lookup self cam;
  '(_, b) ← is_in_fov self c pos.1 pos.2 (accept_range self);
  Ok b.

(** A length that is a whole number of steps of [resolution] metres. *)
Definition whole_steps (x : R) : Prop := exists k : Z, x = (IZR k * resolution)%R.

(** The cameras with an entry in [cam_expo] include [D] and are among [U]. *)
Definition expo_between (D U : gset nat) (s : exposure) : Prop :=
  D ⊆ dom (cam_expo s) /\ dom (cam_expo s) ⊆ U.

(** The cameras of the entries of [cameras_per_point] that have a
    neighbour in the direction of the pass. *)
Definition attributed (backward : bool) (number_of_points : nat)
    (items : list (nat * list nat)) : gset nat :=
  ⋃ ((fun item : nat * list nat =>
        match neighbour backward number_of_points item.1 with
        | Some _ => list_to_set item.2
        | None => ∅
        end) <$> items).

(** Three covered points, the first two with the same time: the speed
    between them is a quotient by zero. *)
Definition track_stall : list point :=
  [Point 0 0 (Some 0%R) None; Point (1 / 1000000) 0 (Some 0%R) None;
   Point 0 0 (Some 10%R) None].

(** The object [__init__] builds for [track_stall], the object the exposure
    pass leaves and the totals it returns: the step between the two points
    of equal time counts 0.5 m and 0 s. *)
Definition stall_exposure : exposure :=
  Exposure None 1 [cam_origin] true track_stall
    [0%R; (111319 / 1000000)%R; 0%R] [(0, [0]); (1, [0]); (2, [0])] {[0]} 1 ∅ false
    (NpFloat (0 + 111319 / 1000000 + 111319 / 1000000)) 10.

Definition stall_passed : exposure :=
  set_cam_expo
    (<[0 := Expo [1; 2] (0 + 1 / (1 / (5 / 10)) + 1 / (1 / (5 / 10)))
              (Number (0 + round2 0
                       + round2 (1 / (1 / (5 / 10)) / (111319 / 1000000 / 10)))%R)]> ∅)
    stall_exposure.

Definition stall_meters : R := (0 + 1 / (1 / (5 / 10)) + 1 / (1 / (5 / 10)) + (0 + 0 + 0))%R.

Definition stall_seconds : num :=
  NpFloat (0 + 0 + 1 / (1 / (5 / 10)) / (111319 / 1000000 / 10) + (0 + 0 + 0)).

(** Two covered points at the same place and time, and a third: the speed
    between the first two is [0 / 0]. *)
Definition track_still : list point :=
  [Point 0 0 (Some 0%R) None; Point 0 0 (Some 0%R) None;
   Point (1 / 1000000) 0 (Some 10%R) None].


(** * Properties *)

(** ** Evaluating the model on the reals *)

Lemma check_round self d cam lat lon addon r :
  is_round cam ->
  fov_radius self cam = Ok r ->
  check_dist_to_cam self d cam lat lon addon = Ok (bool_decide (d <= r + addon)%R).
Proof.
  intros Hround Hr. unfold check_dist_to_cam. rewrite Hr. simpl.
  unfold is_round in Hround. rewrite Hround.
  destruct (decide (d <= r + addon)%R) as [Hd|Hd].
  - by rewrite bool_decide_eq_true_2.
  - by rewrite bool_decide_eq_false_2.
Qed.

Lemma check_directed self d cam lat lon addon r angle :
  is_directed cam ->
  fov_radius self cam = Ok r ->
  py_int (dict_get cam "angle of view" (VStr "360")) = Ok angle ->
  (d <= r + addon)%R ->
  check_dist_to_cam self d cam lat lon addon =
    if bool_decide (angle < 360)%Z then
      lo ← py_sub_float (dict_get cam "direction" VNone) (IZR angle / 2);
      hi ← py_add_float (dict_get cam "direction" VNone) (IZR angle / 2);
      clat ← py_float (dict_get cam "latitude" VNone);
      clon ← py_float (dict_get cam "longitude" VNone);
      let bearing := get_bearing clat clon lat lon in
      Ok (bool_decide (py_fmod (lo + 360) 360 <= bearing)%R
          && bool_decide (bearing <= py_fmod (hi + 360) 360)%R)
    else Ok true.
Proof.
  intros Hdir Hr Hangle Hd. unfold check_dist_to_cam. rewrite Hr. simpl.
  rewrite decide_True by done. unfold is_directed in Hdir. rewrite Hdir. simpl.
  rewrite Hangle. simpl. case_bool_decide; [|done].
  destruct (py_sub_float _ _); simpl; try done.
  destruct (py_add_float _ _); simpl; try done.
  destruct (py_float _); simpl; try done.
  destruct (py_float _); simpl; try done.
  by destruct (_ && _).
Qed.

Lemma quick_distance_meridian lat0 lat1 lon :
  quick_distance lat0 lon lat1 lon = (111319 * Rabs (lat1 - lat0))%R.
Proof.
  unfold quick_distance. f_equal.
  replace ((lat1 - lat0) * (lat1 - lat0) +
           (lon - lon) * cos ((lat1 + lat0) * (872664626 / 100000000000)) *
           ((lon - lon) * cos ((lat1 + lat0) * (872664626 / 100000000000))))%R
    with (Rsqr (lat1 - lat0)) by (unfold Rsqr; ring).
  apply sqrt_Rsqr_abs.
Qed.

Lemma quick_distance_nonneg lat0 lon0 lat1 lon1 :
  (0 <= quick_distance lat0 lon0 lat1 lon1)%R.
Proof.
  unfold quick_distance. apply Rmult_le_pos; [lra | apply sqrt_pos].
Qed.

Lemma quick_distance_sym lat0 lon0 lat1 lon1 :
  quick_distance lat0 lon0 lat1 lon1 = quick_distance lat1 lon1 lat0 lon0.
Proof.
  unfold quick_distance. do 2 f_equal.
  replace (lat0 + lat1)%R with (lat1 + lat0)%R by ring. ring.
Qed.

(** *** Reading decimal cells *)

Lemma py_float_str s m e :
  decimal_of_string s = Some (m, e) ->
  py_float (VStr s) = Ok (IZR m / IZR (10 ^ Z.of_nat e))%R.
Proof. intros H. unfold py_float, float_of_string. by rewrite H. Qed.

Lemma py_float_zero : py_float (VStr "0") = Ok 0%R.
Proof.
  rewrite (py_float_str "0" 0 0) by reflexivity. f_equal. simpl. lra.
Qed.

(** ** The radius used by the FOV test *)

Lemma fov_radius_effective self cam :
  fov_radius self cam = effective_radius (radius self) cam.
Proof.
  unfold fov_radius, effective_radius, own_radius, dict_get.
  destruct (radius self) as [z|].
  - destruct (decide (z = 0%Z)) as [->|Hz].
    + simpl. by destruct (cam !! "radius").
    + rewrite bool_decide_eq_true_2, bool_decide_eq_false_2 by done. done.
  - by destruct (cam !! "radius").
Qed.

(** C3, amended: for a round camera and margin 0, the FOV test is true
    exactly when the quick distance from the point to the camera is at most
    the effective radius, which is the global override when one was
    configured and is not 0, and otherwise (no override, or an override of
    0) the camera's own radius, 10 when unspecified. *)
Theorem round_membership self cam lat lon clat clon r :
  is_round cam ->
  py_float (dict_get cam "latitude" VNone) = Ok clat ->
  py_float (dict_get cam "longitude" VNone) = Ok clon ->
  effective_radius (radius self) cam = Ok r ->
  exists b, is_in_fov self cam lat lon 0 = Ok (quick_distance lat lon clat clon, b)
            /\ (b = true <-> (quick_distance lat lon clat clon <= r)%R).
Proof.
  intros Hround Hlat Hlon Hr. rewrite <- fov_radius_effective in Hr.
  exists (bool_decide (quick_distance lat lon clat clon <= r)%R). split.
  - unfold is_in_fov. rewrite Hlat, Hlon. simpl.
    rewrite (check_round _ _ _ _ _ _ r Hround Hr). simpl.
    by rewrite Rplus_0_r.
  - apply bool_decide_eq_true.
Qed.

Lemma round_membership_witness :
  exists b, is_in_fov (fresh_exposure (Some 5%Z) [cam_origin] []) cam_origin (1 / 100000) 0 0
            = Ok (quick_distance (1 / 100000) 0 0 0, b)
            /\ (b = true <-> (quick_distance (1 / 100000) 0 0 0 <= 5)%R).
Proof.
  apply (round_membership (fresh_exposure (Some 5%Z) [cam_origin] []) cam_origin
           (1 / 100000) 0 0 0 5).
  - reflexivity.
  - exact py_float_zero.
  - exact py_float_zero.
  - reflexivity.
Defined.

(** C3 as stated fails for an override of 0: the camera at the origin has no
    radius cell, the point is 1.11319 m north of it, the override is 0; the
    claimed effective radius is 0, yet the test answers true. *)
Lemma round_membership_override_zero :
  let self := fresh_exposure (Some 0%Z) [cam_origin] [] in
  claimed_radius (radius self) cam_origin = Ok 0%R
  /\ is_in_fov self cam_origin (1 / 100000) 0 0 = Ok ((111319 / 100000)%R, true)
  /\ ~ (111319 / 100000 <= 0)%R.
Proof.
  split; [reflexivity|]. split; [|lra].
  unfold is_in_fov.
  replace (dict_get cam_origin "latitude" VNone) with (VStr "0") by reflexivity.
  replace (dict_get cam_origin "longitude" VNone) with (VStr "0") by reflexivity.
  rewrite py_float_zero. simpl.
  rewrite (check_round _ _ _ _ _ _ 10%R); [| reflexivity | reflexivity].
  simpl. rewrite quick_distance_meridian.
  replace (0 - 1 / 100000)%R with (- (1 / 100000))%R by lra.
  rewrite Rabs_Ropp, Rabs_pos_eq by lra.
  rewrite bool_decide_eq_true_2 by lra. f_equal. f_equal. lra.
Qed.

(** ** A directed camera with a full angle *)

Lemma dict_get_agree (cam1 cam2 : camera) key default :
  cam1 !! key = cam2 !! key -> dict_get cam1 key default = dict_get cam2 key default.
Proof. unfold dict_get. by intros ->. Qed.

Lemma fov_radius_agree self (cam1 cam2 : camera) :
  cam1 !! "radius" = cam2 !! "radius" -> fov_radius self cam1 = fov_radius self cam2.
Proof.
  intros H. unfold fov_radius. by rewrite (dict_get_agree cam1 cam2 "radius" _ H).
Qed.

(** C4: a directed camera whose angle of view is 360 gets, for every point
    and every margin, the verdict of the round camera with the same position
    and radius (the same outcome, also when a cell cannot be read). *)
Theorem directed_360_as_round self (cam_d cam_r : camera) lat lon addon :
  is_directed cam_d ->
  py_int (dict_get cam_d "angle of view" (VStr "360")) = Ok 360%Z ->
  is_round cam_r ->
  cam_d !! "latitude" = cam_r !! "latitude" ->
  cam_d !! "longitude" = cam_r !! "longitude" ->
  cam_d !! "radius" = cam_r !! "radius" ->
  is_in_fov self cam_d lat lon addon = is_in_fov self cam_r lat lon addon.
Proof.
  intros Hdir Hangle Hround Hlat Hlon Hrad. unfold is_in_fov.
  rewrite (dict_get_agree cam_d cam_r "latitude" _ Hlat).
  rewrite (dict_get_agree cam_d cam_r "longitude" _ Hlon).
  destruct (py_float (dict_get cam_r "latitude" VNone)) as [clat| |]; simpl; try done.
  destruct (py_float (dict_get cam_r "longitude" VNone)) as [clon| |]; simpl; try done.
  f_equal. unfold check_dist_to_cam.
  rewrite (fov_radius_agree self cam_d cam_r Hrad).
  destruct (fov_radius self cam_r) as [r| |]; simpl; try done.
  destruct (decide (quick_distance lat lon clat clon <= r + addon)%R); [|done].
  unfold is_round in Hround. rewrite Hround.
  unfold is_directed in Hdir. rewrite Hdir. simpl.
  rewrite Hangle. reflexivity.
Qed.

Lemma directed_360_as_round_witness :
  is_in_fov (fresh_exposure None [] []) cam_directed_360 (1 / 100000) 0 1
  = is_in_fov (fresh_exposure None [] []) cam_origin (1 / 100000) 0 1.
Proof.
  apply (directed_360_as_round (fresh_exposure None [] []) cam_directed_360 cam_origin
           (1 / 100000) 0 1); reflexivity.
Defined.

(** ** Cameras read from the table *)

Lemma load_row_loop_str columns (cells : list (nat * string)) (acc cam : camera) :
  all_str acc ->
  for_result
    (fun (cam : camera) '(i, column) =>
       if bool_decide (column ≠ "") then
         name ← py_index columns (Z.of_nat i);
         Ok (<[name := VStr column]> cam)
       else Ok cam) cells acc = Ok cam ->
  all_str cam.
Proof.
  revert acc. induction cells as [|[i column] cells IH]; intros acc Hacc; simpl.
  - intros [= <-]. exact Hacc.
  - case_bool_decide.
    + destruct (py_index columns (Z.of_nat i)) as [name| |]; simpl; try done.
      apply IH. intros key v. rewrite lookup_insert.
      case_decide; [intros [= <-]; eauto | apply Hacc].
    + simpl. by apply IH.
Qed.

Lemma load_row_str columns row cam : load_row columns row = Ok cam -> all_str cam.
Proof.
  apply load_row_loop_str. intros key v. by rewrite lookup_empty.
Qed.

Lemma load_cameras_loop_str columns reader (acc cs : list camera) :
  Forall all_str acc ->
  for_result (fun cams row => cam ← load_row columns row; Ok (cams ++ [cam])) reader acc
    = Ok cs ->
  Forall all_str cs.
Proof.
  revert acc. induction reader as [|row reader IH]; intros acc Hacc; simpl.
  - intros [= <-]. exact Hacc.
  - destruct (load_row columns row) as [cam| |] eqn:Hrow; simpl; try done.
    apply IH. apply Forall_app. split; [done|].
    constructor; [|constructor]. by eapply load_row_str.
Qed.

Lemma load_cameras_str camfile cs : load_cameras camfile = Ok cs -> Forall all_str cs.
Proof.
  unfold load_cameras. destruct camfile as [rows| |]; simpl; try done.
  destruct rows as [|columns reader]; [done|].
  by apply load_cameras_loop_str.
Qed.

(** A directed camera below 360 degrees whose cells are all strings: past
    the radius check the test raises a type error. *)
Lemma directed_str_type_error (cam : camera) self d lat lon addon r angle :
  all_str cam ->
  is_directed cam ->
  py_int (dict_get cam "angle of view" (VStr "360")) = Ok angle ->
  (angle < 360)%Z ->
  fov_radius self cam = Ok r ->
  (d <= r + addon)%R ->
  check_dist_to_cam self d cam lat lon addon = Raise TypeError.
Proof.
  intros Hstr Hdir Hangle Hlt Hr Hd.
  rewrite (check_directed self d cam lat lon addon r angle Hdir Hr Hangle Hd).
  rewrite bool_decide_eq_true_2 by done.
  unfold dict_get. destruct (cam !! "direction") as [v|] eqn:Hv; [|done].
  destruct (Hstr _ _ Hv) as [s ->]. done.
Qed.

(** C9: for a camera record loaded from the table whose type is 'directed'
    and whose angle of view is below 360, the FOV test of any point that
    passes the radius check raises a type error: the direction is the raw
    cell, a string, or [None] when the column is missing, and it is used in
    [direction - angle / 2]. *)
Theorem loaded_directed_type_error camfile cs (cam : camera) self d lat lon addon r angle :
  load_cameras camfile = Ok cs ->
  cam ∈ cs ->
  is_directed cam ->
  py_int (dict_get cam "angle of view" (VStr "360")) = Ok angle ->
  (angle < 360)%Z ->
  fov_radius self cam = Ok r ->
  (d <= r + addon)%R ->
  check_dist_to_cam self d cam lat lon addon = Raise TypeError.
Proof.
  intros Hload Hin. apply directed_str_type_error.
  apply load_cameras_str in Hload. rewrite Forall_forall in Hload. by apply Hload.
Qed.

Lemma load_catalog_directed :
  load_cameras (Ok catalog_directed) = Ok [cam_directed_350].
Proof. vm_compute. reflexivity. Qed.

Lemma loaded_directed_type_error_witness :
  check_dist_to_cam (fresh_exposure None [cam_directed_350] []) 5 cam_directed_350
    (1 / 20000) 0 0 = Raise TypeError.
Proof.
  apply (loaded_directed_type_error (Ok catalog_directed) [cam_directed_350]
           cam_directed_350 _ 5 (1 / 20000) 0 0 10 40).
  - exact load_catalog_directed.
  - apply list_elem_of_here.
  - reflexivity.
  - reflexivity.
  - lia.
  - reflexivity.
  - lra.
Defined.

(** ** Bearings and the angular range *)

Lemma py_fmod_eq x m (k : Z) :
  (0 < m)%R -> (IZR k * m <= x < (IZR k + 1) * m)%R -> py_fmod x m = (x - IZR k * m)%R.
Proof.
  intros Hm [Hlo Hhi]. unfold py_fmod.
  replace (Zfloor (x / m)) with k; [done|]. symmetry. apply Zfloor_eq. split.
  - apply (Rmult_le_reg_r m); [done|]. unfold Rdiv. rewrite Rmult_assoc, Rinv_l by lra. lra.
  - apply (Rmult_lt_reg_r m); [done|]. unfold Rdiv. rewrite Rmult_assoc, Rinv_l by lra. lra.
Qed.

Lemma py_fmod_range x m : (0 < m)%R -> (0 <= py_fmod x m < m)%R.
Proof.
  intros Hm. unfold py_fmod. destruct (Zfloor_bound (x / m)) as [Hlo Hhi].
  assert (Hx : (x = x / m * m)%R) by (field; lra).
  split.
  - apply (Rmult_le_compat_r m) in Hlo; lra.
  - apply (Rmult_lt_compat_r m) in Hhi; lra.
Qed.

Lemma get_bearing_range lat0 lon0 lat1 lon1 :
  (0 <= get_bearing lat0 lon0 lat1 lon1 < 360)%R.
Proof. unfold get_bearing. apply py_fmod_range. lra. Qed.

(** Due north along a meridian the bearing is 0. *)
Lemma get_bearing_north lat0 lat1 lon :
  (-90 < lat0)%R -> (lat0 < lat1)%R -> (lat1 < 90)%R ->
  get_bearing lat0 lon lat1 lon = 0%R.
Proof.
  intros H0 H01 H1. unfold get_bearing.
  pose proof PI_RGT_0 as Hpi.
  replace (deg2rad lon - deg2rad lon)%R with 0%R by ring.
  rewrite Rabs_R0. rewrite (decide_False (P := (PI < 0)%R)) by lra.
  set (a0 := (deg2rad lat0 / 2 + PI / 4)%R).
  set (a1 := (deg2rad lat1 / 2 + PI / 4)%R).
  assert (Ha0 : (0 < a0 < PI / 2)%R).
  { unfold a0, deg2rad. split; nra. }
  assert (Ha1 : (0 < a1 < PI / 2)%R).
  { unfold a1, deg2rad. split; nra. }
  assert (Ha01 : (a0 < a1)%R).
  { unfold a0, a1, deg2rad. nra. }
  assert (Ht0 : (0 < tan a0)%R) by (apply tan_gt_0; lra).
  assert (Ht01 : (tan a0 < tan a1)%R) by (apply tan_increasing; lra).
  assert (Hphi : (0 < ln (tan a1 / tan a0))%R).
  { rewrite <- ln_1. apply ln_increasing; [lra|].
    apply (Rmult_lt_reg_r (tan a0)); [done|].
    unfold Rdiv. rewrite Rmult_assoc, Rinv_l by lra. lra. }
  unfold arctan2. rewrite decide_True by done.
  unfold Rdiv at 1. rewrite Rmult_0_l, atan_0.
  unfold degrees. rewrite Rmult_0_l.
  rewrite (py_fmod_eq _ _ 1%Z) by lra. lra.
Qed.

(** C1 fails on the source.  A directed camera at the origin looks towards
    350 degrees with an angle of view of 40, so its range is [330, 370]; the
    point lies 5.57 m due north of it, at bearing 0, inside the radius 10
    and inside the range.  With the direction as the table gives it, a
    string, the test raises a type error; with a numeric direction it
    compares 330 <= 0 <= 10 and answers false. *)
Theorem directed_fov_wraparound :
  let self := fresh_exposure None [cam_directed_350] [] in
  get_bearing 0 0 (1 / 20000) 0 = 0%R
  /\ in_range_mod_360 (350 - 40 / 2) (350 + 40 / 2) 0
  /\ (quick_distance (1 / 20000) 0 0 0 <= 10 + 0)%R
  /\ is_in_fov self cam_directed_350 (1 / 20000) 0 0 = Raise TypeError
  /\ is_in_fov self cam_directed_350_numeric (1 / 20000) 0 0
     = Ok (quick_distance (1 / 20000) 0 0 0, false).
Proof.
  assert (Hb : get_bearing 0 0 (1 / 20000) 0 = 0%R) by (apply get_bearing_north; lra).
  assert (Hd : (quick_distance (1 / 20000) 0 0 0 <= 10 + 0)%R).
  { rewrite quick_distance_meridian.
    replace (0 - 1 / 20000)%R with (- (1 / 20000))%R by lra.
    rewrite Rabs_Ropp, Rabs_pos_eq by lra. lra. }
  intros self. split; [exact Hb|]. split; [exists 1%Z; lra|]. split; [exact Hd|]. split.
  - unfold is_in_fov.
    replace (dict_get cam_directed_350 "latitude" VNone) with (VStr "0") by reflexivity.
    replace (dict_get cam_directed_350 "longitude" VNone) with (VStr "0") by reflexivity.
    rewrite py_float_zero. simpl.
    rewrite (directed_str_type_error cam_directed_350 self _ _ _ _ 10 40);
      [ reflexivity | | reflexivity | reflexivity | lia | reflexivity | exact Hd ].
    pose proof (load_cameras_str _ _ load_catalog_directed) as Hall.
    by inversion Hall.
  - unfold is_in_fov.
    replace (dict_get cam_directed_350_numeric "latitude" VNone) with (VStr "0") by reflexivity.
    replace (dict_get cam_directed_350_numeric "longitude" VNone) with (VStr "0") by reflexivity.
    rewrite py_float_zero. simpl.
    rewrite (check_directed self _ cam_directed_350_numeric _ _ _ 10 40);
      [| reflexivity | reflexivity | reflexivity | exact Hd].
    rewrite bool_decide_eq_true_2 by lia.
    replace (dict_get cam_directed_350_numeric "direction" VNone) with (VFloat 350)
      by reflexivity.
    replace (dict_get cam_directed_350_numeric "latitude" VNone) with (VStr "0") by reflexivity.
    replace (dict_get cam_directed_350_numeric "longitude" VNone) with (VStr "0") by reflexivity.
    rewrite py_float_zero. simpl. rewrite Hb.
    rewrite (py_fmod_eq (350 - 40 / 2 + 360) 360 1) by lra.
    rewrite (bool_decide_eq_false_2 (_ <= 0)%R) by lra. reflexivity.
Qed.

(** ** The total distance of the route *)

Lemma PI_upper : (PI < 3145 / 1000)%R.
Proof.
  destruct (PI_2_3_7_ineq 1) as [_ H].
  unfold sum_f_R0, tg_alt, PI_2_3_7_tg, Ratan_seq in H. simpl in H. lra.
Qed.

(** Northwards along a meridian the great-circle distance is the arc of the
    latitude difference. *)
Lemma haversine_meridian lat0 lat1 lon :
  (0 <= lat1 - lat0 < 180)%R ->
  haversine_distance lat0 lon lat1 lon = (6371000 * deg2rad (lat1 - lat0))%R.
Proof.
  intros [Hlo Hhi]. unfold haversine_distance, R_earth.
  pose proof PI_RGT_0 as Hpi.
  set (t := (deg2rad (lat1 - lat0) / 2)%R).
  assert (Ht : (0 <= t < PI / 2)%R).
  { unfold t, deg2rad. split; nra. }
  replace (deg2rad (lon - lon) / 2)%R with 0%R by (unfold deg2rad; lra).
  rewrite sin_0.
  replace ((sin t)² + 0² * cos (deg2rad lat0) * cos (deg2rad lat1))%R with ((sin t)²)%R
    by (unfold Rsqr; ring).
  replace (1 - (sin t)²)%R with ((cos t)²)%R by (pose proof (sin2_cos2 t); lra).
  assert (Hsin : (0 <= sin t)%R) by (apply sin_ge_0; lra).
  assert (Hcos : (0 < cos t)%R) by (apply cos_gt_0; lra).
  rewrite !sqrt_Rsqr by lra.
  unfold arctan2. rewrite decide_True by done.
  change (sin t / cos t)%R with (tan t). rewrite atan_tan by lra.
  unfold t. lra.
Qed.

Lemma for_result_ext {A B} (body1 body2 : B -> A -> result B) (l : list A) (b : B) :
  (forall b x, x ∈ l -> body1 b x = body2 b x) ->
  for_result body1 l b = for_result body2 l b.
Proof.
  revert b. induction l as [|x l IH]; intros b H; simpl; [done|].
  rewrite (H b x) by apply list_elem_of_here.
  destruct (body2 b x); simpl; try done.
  apply IH. intros b' y Hy. apply H. by apply list_elem_of_further.
Qed.

Lemma for_result_fmap {A A' B} (g : A' -> A) (body : B -> A -> result B)
    (l : list A') (b : B) :
  for_result body (g <$> l) b = for_result (fun b x => body b (g x)) l b.
Proof.
  revert b. induction l as [|x l IH]; intros b; simpl; [done|].
  destruct (body b (g x)); simpl; try done.
Qed.

(** [l[-1 - i]] is the element [i] places before the last. *)
Lemma py_index_from_end {A} (l : list A) (i : nat) :
  i < length l ->
  py_index l (-1 - Z.of_nat i) =
    match l !! (length l - 1 - i) with
    | Some a => Ok a
    | None => Raise IndexError
    end.
Proof.
  intros Hi. unfold py_index.
  replace (-1 - Z.of_nat i <? 0)%Z with true by (symmetry; apply Z.ltb_lt; lia).
  replace (Z.of_nat (length l) + (-1 - Z.of_nat i) <? 0)%Z with false
    by (symmetry; apply Z.ltb_ge; lia).
  replace (Z.to_nat (Z.of_nat (length l) + (-1 - Z.of_nat i))) with (length l - 1 - i)
    by lia.
  done.
Qed.

Lemma route_length_snoc dist l y x :
  route_length dist (l ++ [y; x]) = (route_length dist (l ++ [y]) + dist y x)%R.
Proof.
  induction l as [|p l IH]; simpl; [lra|].
  destruct l as [|q l]; simpl in *; [lra|]. rewrite IH. lra.
Qed.

Lemma num_val_add a b : num_val (num_add a b) = (num_val a + num_val b)%R.
Proof. destruct a, b; simpl; try done. by rewrite plus_IZR. Qed.

Lemma total_distance_loop_sum (l : list point) (acc : num) :
  exists n, total_distance_loop l acc = Ok n
            /\ num_val n = (num_val acc + route_length quick_leg l)%R
            /\ (length l < 2 -> n = acc)
            /\ (2 <= length l -> is_np n = true).
Proof.
  revert acc. induction l as [|x l IH] using rev_ind; intros acc.
  { exists acc. simpl. repeat split; first [lra | lia]. }
  destruct l as [|y0 l0] using rev_ind.
  { exists acc. simpl. repeat split; first [lra | lia]. }
  clear IHl0. set (l := l0 ++ [y0]) in *.
  assert (Hlen : length l = S (length l0)).
  { unfold l. rewrite length_app. simpl. lia. }
  unfold total_distance_loop.
  replace (length (l ++ [x]) - 1) with (S (length l0))
    by (rewrite length_app; simpl; lia).
  rewrite <- cons_seq. rewrite <- fmap_S_seq. cbn [for_result].
  rewrite (py_index_from_end (l ++ [x]) 0) by (rewrite length_app; simpl; lia).
  replace (-2 - Z.of_nat 0)%Z with (-1 - Z.of_nat 1)%Z by lia.
  rewrite (py_index_from_end (l ++ [x]) 1) by (rewrite length_app; simpl; lia).
  replace (length (l ++ [x]) - 1 - 0) with (length l) by (rewrite length_app; simpl; lia).
  replace (length (l ++ [x]) - 1 - 1) with (length l0) by (rewrite length_app; simpl; lia).
  rewrite (list_lookup_middle l [] x (length l)) by done.
  replace ((l ++ [x]) !! length l0) with (Some y0).
  2:{ unfold l. rewrite <- app_assoc. by rewrite (list_lookup_middle l0 [x] y0). }
  simpl. rewrite for_result_fmap.
  set (acc1 := num_add acc (NpFloat (quick_distance (latitude x) (longitude x)
                                       (latitude y0) (longitude y0)))).
  destruct (IH acc1) as (n & Hn & Hval & _ & _).
  exists n. split; [|split; [|split]].
  - rewrite <- Hn. unfold total_distance_loop.
    replace (length l - 1) with (length l0) by lia.
    apply for_result_ext. intros b i Hi. apply elem_of_seq in Hi.
    rewrite (py_index_from_end (l ++ [x]) (S i)) by (rewrite length_app; simpl; lia).
    rewrite (py_index_from_end l i) by lia.
    replace (-2 - Z.of_nat (S i))%Z with (-1 - Z.of_nat (S (S i)))%Z by lia.
    replace (-2 - Z.of_nat i)%Z with (-1 - Z.of_nat (S i))%Z by lia.
    rewrite (py_index_from_end (l ++ [x]) (S (S i))) by (rewrite length_app; simpl; lia).
    rewrite (py_index_from_end l (S i)) by lia.
    replace (length (l ++ [x]) - 1 - S i) with (length l - 1 - i)
      by (rewrite length_app; simpl; lia).
    replace (length (l ++ [x]) - 1 - S (S i)) with (length l - 1 - S i)
      by (rewrite length_app; simpl; lia).
    rewrite !lookup_app_l by lia. done.
  - rewrite Hval. unfold acc1. rewrite num_val_add. simpl.
    unfold l. rewrite <- app_assoc. simpl. rewrite route_length_snoc.
    unfold quick_leg at 3. rewrite (quick_distance_sym (latitude y0)). lra.
  - rewrite length_app. simpl. lia.
  - intros _. destruct (decide (2 <= length l)) as [H2|H2].
    + destruct (IH acc1) as (n' & Hn' & _ & _ & Hnp). rewrite Hn in Hn'.
      injection Hn' as <-. by apply Hnp.
    + destruct (IH acc1) as (n' & Hn' & _ & Hsmall & _). rewrite Hn in Hn'.
      injection Hn' as <-. rewrite Hsmall by lia. unfold acc1. by destruct acc.
Qed.

(** C6, amended: the total distance of a segment is the sum, over the pairs
    of consecutive track points, of the quick distance between them; the
    haversine distance is not used. *)
Theorem total_distance_quick_sum (self : exposure) :
  exists n, get_total_distance self = Ok n
            /\ num_val n = route_length quick_leg (points self).
Proof.
  destruct (total_distance_loop_sum (points self) (PyInt 0)) as (n & Hn & Hval & _).
  exists n. split; [exact Hn|]. rewrite Hval. simpl. lra.
Qed.

(** C6 as stated fails: for two points a thousandth of a degree apart on a
    meridian the total distance is 111.319 m, the quick distance, while the
    haversine distance between them is 6371000 * PI / 180000 m, which is
    below 111.316 m. *)
Lemma total_distance_not_haversine :
  let self := fresh_exposure None [] track_meridian in
  exists n, get_total_distance self = Ok n
            /\ num_val n = (111319 / 1000)%R
            /\ (route_length haversine_leg (points self) < 111316 / 1000)%R
            /\ num_val n <> route_length haversine_leg (points self).
Proof.
  intros self.
  destruct (total_distance_loop_sum (points self) (PyInt 0)) as (n & Hn & Hval & _).
  assert (Hq : num_val n = (111319 / 1000)%R).
  { rewrite Hval. simpl. unfold quick_leg. simpl. rewrite quick_distance_meridian.
    rewrite Rabs_pos_eq by lra. lra. }
  assert (Hh : (route_length haversine_leg (points self) < 111316 / 1000)%R).
  { simpl. unfold haversine_leg. simpl. rewrite haversine_meridian by lra.
    unfold deg2rad. pose proof PI_upper. lra. }
  exists n. split; [exact Hn|]. split; [exact Hq|]. split; [exact Hh|]. lra.
Qed.

(** ** Reasoning about methods *)

Lemma triple_ret {A} (a : A) (Q : A -> exposure -> Prop) E :
  triple (Q a) (mret a) Q E.
Proof. intros s H. exact H. Qed.

Lemma triple_bind {A B} P (m : method A) (k : A -> method B) Q Q' E :
  triple P m Q E ->
  (forall a, triple (Q a) (k a) Q' E) ->
  triple P (m ≫= k) Q' E.
Proof.
  intros Hm Hk s HP. specialize (Hm s HP).
  unfold mbind, method_bind. destruct (m s) as [s' [a|e|]]; try done.
  by apply Hk.
Qed.

(** The loop rule: the invariant may mention the elements already
    visited. *)
Lemma triple_for {A B} (Inv : list A -> B -> exposure -> Prop) E
    (body : B -> A -> method B) (l : list A) (b0 : B) :
  (forall pre x post b, l = pre ++ x :: post ->
     triple (Inv pre b) (body b x) (fun b' => Inv (pre ++ [x]) b') E) ->
  triple (Inv [] b0) (for_method body l b0) (Inv l) E.
Proof.
  assert (Hgen : forall post pre b, l = pre ++ post ->
            (forall pre x post b, l = pre ++ x :: post ->
               triple (Inv pre b) (body b x) (fun b' => Inv (pre ++ [x]) b') E) ->
            triple (Inv pre b) (for_method body post b) (Inv l) E).
  { induction post as [|x post IH]; intros pre b Hl Hbody.
    - rewrite app_nil_r in Hl. subst pre. simpl. apply triple_ret.
    - simpl. eapply triple_bind.
      + by apply (Hbody pre x post b).
      + intros b'. apply IH; [|done]. by rewrite <- app_assoc. }
  intros Hbody. by apply (Hgen l [] b0).
Qed.

(** The loop rule for an invariant of the object alone. *)
Lemma triple_for_inv {A B} (I : exposure -> Prop) (body : B -> A -> method B)
    (l : list A) (b0 : B) :
  (forall b x, x ∈ l -> triple I (body b x) (fun _ => I) I) ->
  triple I (for_method body l b0) (fun _ => I) I.
Proof.
  intros Hbody.
  apply (triple_for (fun _ _ => I) I body l b0).
  intros pre x post b Hl. apply Hbody. rewrite Hl. set_solver.
Qed.

(** ** The visited points of a camera are distinct *)

Lemma expo_nodup_new cam s :
  expo_nodup s -> expo_nodup (set_cam_expo (<[cam := new_expo]> (cam_expo s)) s).
Proof.
  intros HI c e. simpl. rewrite lookup_insert. case_decide.
  - intros [= <-]. constructor.
  - apply HI.
Qed.

Lemma expo_nodup_append cam i s :
  expo_nodup s ->
  i ∉ expo_points (default new_expo (cam_expo s !! cam)) ->
  expo_nodup (set_cam_expo (alter (expo_append i) cam (cam_expo s)) s).
Proof.
  intros HI Hi c e. simpl. rewrite lookup_alter. case_decide as Hc.
  - subst c. destruct (cam_expo s !! cam) as [e0|] eqn:He0; simpl; [|done].
    intros [= <-]. simpl in *. apply NoDup_app. split; [by eapply HI|].
    split; [|apply NoDup_singleton]. intros x Hx Hx'. apply list_elem_of_singleton in Hx'.
    by subst x.
  - apply HI.
Qed.

Lemma expo_nodup_alter cam (f : expo -> expo) s :
  (forall e, expo_points (f e) = expo_points e) ->
  expo_nodup s -> expo_nodup (set_cam_expo (alter f cam (cam_expo s)) s).
Proof.
  intros Hf HI c e. simpl. rewrite lookup_alter. case_decide as Hc.
  - subst c. destruct (cam_expo s !! cam) as [e0|] eqn:He0; simpl; [|done].
    intros [= <-]. rewrite Hf. by eapply HI.
  - apply HI.
Qed.

Lemma calculate_camera_nodup backward point_ind other_point distance npoints course
    highest cam :
  triple expo_nodup
    (calculate_camera backward point_ind other_point distance npoints course highest cam)
    (fun _ => expo_nodup) expo_nodup.
Proof.
  intros s HI. unfold calculate_camera. destruct highest as [hd ht].
  unfold mbind, method_bind, self_get, self_set, update_expo, lift, mret, method_ret.
  cbn beta iota.
  set (s1 := match cam_expo s !! cam with
             | Some _ => s
             | None => set_cam_expo (<[cam:=new_expo]> (cam_expo s)) s
             end).
  assert (H1 : expo_nodup s1).
  { unfold s1. destruct (cam_expo s !! cam); [done|]. by apply expo_nodup_new. }
  replace (match cam_expo s !! cam with
      | Some _ => λ s0 : exposure, (s0, Ok ())
      | None =>
          λ s0 : exposure,
            (set_cam_expo (<[cam:=new_expo]> (cam_expo s0)) s0, Ok ())
      end s) with (s1, Ok ()) by (unfold s1; by destruct (cam_expo s !! cam)).
  clearbody s1. clear HI s.
  destruct (negb backward && _); [done|].
  set (s2 := if bool_decide (point_ind ∉ expo_points (default new_expo (cam_expo s1 !! cam)))
             then set_cam_expo (alter (expo_append point_ind) cam (cam_expo s1)) s1
             else s1).
  assert (H2 : expo_nodup s2).
  { unfold s2. case_bool_decide; [|done]. by apply expo_nodup_append. }
  match goal with |- context [(if ?c then ?a else ?b) s1] =>
    replace ((if c then a else b) s1) with (s2, Ok ()) by (unfold s2; by destruct c) end.
  clearbody s2. clear H1 s1.
  destruct (if backward && _ then _ else _) as [pp| |]; try done.
  destruct (exposure_time _ _ _ _ _) as [ct| |]; try done.
  apply expo_nodup_alter; [done|]. by apply expo_nodup_alter.
Qed.

Lemma calculate_point_nodup backward totals item :
  triple expo_nodup (calculate_point backward totals item) (fun _ => expo_nodup) expo_nodup.
Proof.
  intros s HI. unfold calculate_point. destruct totals as [ts tm], item as [point_ind cameras].
  unfold mbind, method_bind, self_get, lift, mret, method_ret. cbn beta iota.
  destruct (neighbour backward (length (points s)) point_ind) as [other_point|]; [|done].
  destruct (py_index (points s) (Z.of_nat point_ind)) as [p| |]; try done.
  destruct (py_index (points s) (Z.of_nat other_point)) as [q| |]; try done.
  match goal with |- context [for_method ?body cameras ?b0 s] =>
    pose proof (triple_for_inv expo_nodup body cameras b0
                  (fun b x _ => calculate_camera_nodup _ _ _ _ _ _ b x) s HI) as Hloop;
    destruct (for_method body cameras b0 s) as [s' [[hd ht]| |]]; done
  end.
Qed.

(** C8: within one traversal direction the list of visited point indices
    of every camera holds no index twice: if the lists are duplicate-free
    when the pass starts (they are empty at first), they are duplicate-free
    when it ends, whether it returns or raises. *)
Theorem visited_points_distinct backward self :
  expo_nodup self -> expo_nodup (calculate_direction backward self).1.
Proof.
  intros HI. unfold calculate_direction.
  unfold mbind, method_bind, self_get, mret, method_ret. cbn beta iota.
  match goal with |- context [for_method ?body ?l ?b0 self] =>
    pose proof (triple_for_inv expo_nodup body l b0
                  (fun b x _ => calculate_point_nodup backward b x) self HI) as Hloop;
    destruct (for_method body l b0 self) as [s' [[ts tm]| |]]; done
  end.
Qed.

(** ** Exposure totals are not negative *)

Lemma for_method_post {A B} (Q : B -> Prop) (body : B -> A -> method B) (l : list A) :
  (forall b x s, Q b -> match body b x s with (_, Ok b') => Q b' | _ => True end) ->
  forall b s, Q b -> match for_method body l b s with (_, Ok b') => Q b' | _ => True end.
Proof.
  intros Hbody. induction l as [|x l IH]; intros b s Hb; simpl; [done|].
  unfold mbind, method_bind. specialize (Hbody b x s Hb).
  destruct (body b x s) as [s' [b'| |]]; try done. by apply IH.
Qed.

Lemma calculate_camera_nonneg backward point_ind other_point distance npoints course
    highest cam s :
  nonneg_highest highest ->
  match calculate_camera backward point_ind other_point distance npoints course highest cam s
  with
  | (_, Ok highest') => nonneg_highest highest'
  | _ => True
  end.
Proof.
  destruct highest as [hd ht]. intros [Hd Ht]. simpl in Hd, Ht. unfold calculate_camera.
  unfold mbind, method_bind, self_get, self_set, update_expo, lift, mret, method_ret.
  cbn beta iota.
  destruct (cam_expo s !! cam); cbn beta iota.
  all: destruct (negb backward && _); [done|].
  all: destruct (bool_decide (point_ind ∉ _)); cbn beta iota; unfold self_set.
  all: destruct (if backward && _ then _ else _) as [pp| |]; try done.
  all: destruct (exposure_time _ _ _ _ _) as [[ct|]| |]; try done.
  all: split; simpl; try case_decide; lra.
Qed.

Lemma calculate_point_nonneg backward totals item s :
  nonneg_totals totals ->
  match calculate_point backward totals item s with
  | (_, Ok totals') => nonneg_totals totals'
  | _ => True
  end.
Proof.
  destruct totals as [ts tm]. intros [Hs Hm]. simpl in Hs, Hm.
  unfold calculate_point. destruct item as [point_ind cameras].
  unfold mbind, method_bind, self_get, lift, mret, method_ret. cbn beta iota.
  destruct (neighbour backward (length (points s)) point_ind) as [other_point|]; [|done].
  destruct (py_index (points s) (Z.of_nat point_ind)) as [p| |]; try done.
  destruct (py_index (points s) (Z.of_nat other_point)) as [q| |]; try done.
  match goal with |- context [for_method ?body cameras ?b0 s] =>
    pose proof (for_method_post nonneg_highest body cameras
                  (fun b x s => calculate_camera_nonneg _ _ _ _ _ _ b x s) b0 s) as Hloop;
    destruct (for_method body cameras b0 s) as [s' [[hd ht]| |]]; try done
  end.
  destruct Hloop as [H1 H2]; [split; simpl; lra|]. simpl in H1, H2.
  split; simpl; [rewrite num_val_add|]; lra.
Qed.

Lemma calculate_direction_nonneg backward s :
  match calculate_direction backward s with
  | (_, Ok (meters, seconds)) => (0 <= meters)%R /\ (0 <= num_val seconds)%R
  | _ => True
  end.
Proof.
  unfold calculate_direction.
  unfold mbind, method_bind, self_get, mret, method_ret. cbn beta iota.
  match goal with |- context [for_method ?body ?l ?b0 s] =>
    pose proof (for_method_post nonneg_totals body l
                  (fun b x s => calculate_point_nonneg backward b x s) b0 s) as Hloop;
    destruct (for_method body l b0 s) as [s' [[ts tm]| |]]; try done
  end.
  destruct Hloop as [H1 H2]; [split; simpl; lra|]. by split.
Qed.

Lemma time_and_distance_nonneg s :
  match time_and_distance_in_camera_fov s with
  | (_, Ok (meters, seconds)) => (0 <= meters)%R /\ (0 <= num_val seconds)%R
  | _ => True
  end.
Proof.
  unfold time_and_distance_in_camera_fov. unfold mbind, method_bind.
  pose proof (calculate_direction_nonneg true s) as Hb.
  destruct (calculate_direction true s) as [s1 [[bd bt]| |]]; try done.
  pose proof (calculate_direction_nonneg false s1) as Hf.
  destruct (calculate_direction false s1) as [s2 [[fd ft]| |]]; try done.
  simpl. rewrite num_val_add. lra.
Qed.

Lemma same_but_expo_set s0 s e :
  same_but_expo s0 s -> same_but_expo s0 (set_cam_expo e s).
Proof. unfold same_but_expo. intros <-. reflexivity. Qed.

Lemma calculate_camera_frame s0 backward point_ind other_point distance npoints course
    highest cam :
  triple (same_but_expo s0)
    (calculate_camera backward point_ind other_point distance npoints course highest cam)
    (fun _ => same_but_expo s0) (same_but_expo s0).
Proof.
  intros s HI. unfold calculate_camera. destruct highest as [hd ht].
  unfold mbind, method_bind, self_get, self_set, update_expo, lift, mret, method_ret.
  cbn beta iota.
  destruct (cam_expo s !! cam); cbn beta iota.
  all: destruct (negb backward && _); [by try apply same_but_expo_set|].
  all: destruct (bool_decide (point_ind ∉ _)); cbn beta iota; unfold self_set.
  all: destruct (if backward && _ then _ else _) as [pp| |];
    try by repeat apply same_but_expo_set.
  all: destruct (exposure_time _ _ _ _ _) as [ct| |]; by repeat apply same_but_expo_set.
Qed.

Lemma calculate_point_frame s0 backward totals item :
  triple (same_but_expo s0) (calculate_point backward totals item)
    (fun _ => same_but_expo s0) (same_but_expo s0).
Proof.
  intros s HI. unfold calculate_point. destruct totals as [ts tm], item as [point_ind cameras].
  unfold mbind, method_bind, self_get, lift, mret, method_ret. cbn beta iota.
  destruct (neighbour backward (length (points s)) point_ind) as [other_point|]; [|done].
  destruct (py_index (points s) (Z.of_nat point_ind)) as [p| |]; try done.
  destruct (py_index (points s) (Z.of_nat other_point)) as [q| |]; try done.
  match goal with |- context [for_method ?body cameras ?b0 s] =>
    pose proof (triple_for_inv (same_but_expo s0) body cameras b0
                  (fun b x _ => calculate_camera_frame s0 _ _ _ _ _ _ b x) s HI) as Hloop;
    destruct (for_method body cameras b0 s) as [s' [[hd ht]| |]]; done
  end.
Qed.

Lemma calculate_direction_frame backward s :
  same_but_expo s (calculate_direction backward s).1.
Proof.
  unfold calculate_direction.
  unfold mbind, method_bind, self_get, mret, method_ret. cbn beta iota.
  match goal with |- context [for_method ?body ?l ?b0 s] =>
    pose proof (triple_for_inv (same_but_expo s) body l b0
                  (fun b x _ => calculate_point_frame s backward b x) s eq_refl) as Hloop;
    destruct (for_method body l b0 s) as [s' [[ts tm]| |]]; done
  end.
Qed.

Lemma time_and_distance_frame s :
  same_but_expo s (time_and_distance_in_camera_fov s).1.
Proof.
  unfold time_and_distance_in_camera_fov. unfold mbind, method_bind.
  pose proof (calculate_direction_frame true s) as Hb.
  destruct (calculate_direction true s) as [s1 [[bd bt]| |]]; try done.
  pose proof (calculate_direction_frame false s1) as Hf.
  destruct (calculate_direction false s1) as [s2 [[fd ft]| |]]; simpl in *;
    unfold same_but_expo in *; congruence.
Qed.

Lemma rint_nonneg x : (0 <= x)%R -> (0 <= rint x)%Z.
Proof.
  intros Hx. unfold rint.
  assert (Hf : (0 <= Zfloor x)%Z) by (apply Zfloor_lub; simpl; lra).
  repeat case_decide; try done; try lia. destruct (Z.even _); lia.
Qed.

Lemma rint_lower x : (x - 1 / 2 <= IZR (rint x))%R.
Proof.
  unfold rint. destruct (Zfloor_bound x) as [Hlo Hhi].
  repeat case_decide; try lra.
  - rewrite plus_IZR. lra.
  - destruct (Z.even _); [|rewrite plus_IZR]; lra.
Qed.

Lemma round2_nonneg x : (0 <= x)%R -> (0 <= round2 x)%R.
Proof.
  intros Hx. unfold round2.
  assert (H : (0 <= rint (x * 100))%Z) by (apply rint_nonneg; lra).
  apply IZR_le in H. lra.
Qed.

Lemma round2_lower x : (x - 1 / 200 <= round2 x)%R.
Proof. unfold round2. pose proof (rint_lower (x * 100)). lra. Qed.

Lemma num_round2_nonneg n : (0 <= num_val n)%R -> (0 <= num_val (num_round2 n))%R.
Proof. destruct n; simpl; [done| |]; apply round2_nonneg. Qed.

Lemma num_val_mul a b : num_val (num_mul a b) = (num_val a * num_val b)%R.
Proof. destruct a, b; simpl; try done. by rewrite mult_IZR. Qed.

Lemma num_div_Ok a b q :
  num_div a b = Ok q -> num_val b <> 0%R /\ num_val q = (num_val a / num_val b)%R.
Proof.
  unfold num_div. destruct (is_np a || is_np b); case_decide; try done.
  all: by intros [= <-].
Qed.

Lemma quotient_nonneg a b : (0 <= a)%R -> (0 < b)%R -> (0 <= a / b * 100)%R.
Proof.
  intros Ha Hb. apply Rmult_le_pos; [|lra].
  apply Rmult_le_pos; [done|]. left. by apply Rinv_0_lt_compat.
Qed.

(** ** A track outside every camera *)

Lemma is_in_fov_outside self cam p :
  outside (radius self) cam p ->
  exists d, is_in_fov self cam (latitude p) (longitude p) 0 = Ok (d, false).
Proof.
  intros (clat & clon & r & Hlat & Hlon & Hr & Hd).
  exists (quick_distance (latitude p) (longitude p) clat clon).
  unfold is_in_fov. rewrite Hlat, Hlon. simpl.
  unfold check_dist_to_cam. rewrite fov_radius_effective, Hr. simpl.
  rewrite decide_False by lra. reflexivity.
Qed.

Lemma elem_of_enumerate_from {A} (k i : nat) (x : A) (l : list A) :
  (i, x) ∈ enumerate_from k l -> x ∈ l.
Proof.
  revert k. induction l as [|y l IH]; intros k; simpl.
  - by intros ?%elem_of_nil.
  - intros [[= -> ->]|H]%elem_of_cons; [left|right; by eapply IH].
Qed.

Lemma point_in_camera_fov_loop_outside self p (cs : list camera) (k : nat) (ds0 : list R) :
  (forall cam, cam ∈ cs -> outside (radius self) cam p) ->
  exists ds,
    for_result
      (fun (acc : list nat * list R) (item : nat * camera) =>
         let '(results, distances) := acc in
         let '(cam_id, cam) := item in
         '(distance, b) ← is_in_fov self cam (latitude p) (longitude p) 0%R;
         let distances := distances ++ [distance] in
         if (b : bool) then Ok (results ++ [cam_id], distances) else Ok (results, distances))
      (enumerate_from k cs) ([], ds0) = Ok ([], ds).
Proof.
  revert k ds0. induction cs as [|cam cs IH]; intros k ds0 Hout; simpl; [eauto|].
  destruct (is_in_fov_outside self cam p) as [d Hd]; [apply Hout; left|].
  rewrite Hd. simpl. apply IH. intros c Hc. apply Hout. by right.
Qed.

Lemma point_in_camera_fov_outside self p :
  (forall cam, cam ∈ cams self -> outside (radius self) cam p) ->
  exists ds, point_in_camera_fov self (latitude p) (longitude p) = Ok ([], ds).
Proof. apply point_in_camera_fov_loop_outside. Qed.

Section OutsideTrack.
Variable override : option Z.
Variable catalog : list camera.
Variable segment : list point.
Hypothesis all_outside :
  forall p cam, p ∈ segment -> cam ∈ catalog -> outside override cam p.

Lemma track_point_outside seen item :
  item.2 ∈ segment ->
  triple (outside_inv override catalog segment seen) (track_point item)
    (fun _ => outside_inv override catalog segment (seen ++ [item])) (fun _ => False).
Proof.
  destruct item as [index p]. simpl. intros Hp s (Hrad & Hcams & Hpts & Hcpp & Huniq & Htime).
  unfold track_point.
  unfold mbind, method_bind, self_get, self_set, lift, mret, method_ret. cbn beta iota.
  assert (Hfov : forall s1, radius s1 = override -> cams s1 = catalog ->
            exists ds, point_in_camera_fov s1 (latitude p) (longitude p) = Ok ([], ds)).
  { intros s1 Hrad1 Hcams1. apply point_in_camera_fov_outside.
    intros cam Hcam. rewrite Hrad1. rewrite Hcams1 in Hcam. by apply all_outside. }
  destruct (time p) as [t|] eqn:Htp; cbn beta iota.
  all: match goal with |- context [point_in_camera_fov ?s1 _ _] =>
         destruct (Hfov s1) as [ds Hds]; [done | done | rewrite Hds]
       end.
  all: cbn beta iota.
  all: destruct (speed p) as [v|]; [case_bool_decide|]; cbn beta iota.
  all: repeat split; try done.
  all: intros Hen item Hitem; simpl in Hen; try discriminate.
  all: apply elem_of_app in Hitem as [Hi|Hi%list_elem_of_singleton];
    [by apply Htime | subst item; simpl; congruence].
Qed.

Lemma track_route_outside s :
  outside_inv override catalog segment [] s ->
  exists s', track_route s = (s', Ok tt)
             /\ outside_inv override catalog segment (enumerate segment) s' /\ cam_amount s' = 0.
Proof.
  intros HI. unfold track_route.
  unfold mbind, method_bind, self_get, self_set, mret, method_ret. cbn beta iota.
  assert (Hpts : points s = segment) by apply HI. rewrite Hpts.
  match goal with |- context [for_method ?body ?l ?b0 s] =>
    pose proof (triple_for (fun seen _ => outside_inv override catalog segment seen) (fun _ => False) body l b0) as Hloop
  end.
  simpl in Hloop. specialize (Hloop (fun pre x post b Hl =>
    track_point_outside pre x
      (elem_of_enumerate_from 0 x.1 x.2 segment
         ltac:(destruct x; unfold enumerate in Hl; rewrite Hl; set_solver))) s HI).
  destruct (for_method _ _ _ s) as [s' [[]| |]]; try done.
  eexists. split; [reflexivity|].
  destruct Hloop as (? & ? & ? & ? & Huniq & ?).
  split; [repeat split; done|]. simpl. rewrite Huniq. apply size_empty.
Qed.
End OutsideTrack.

Lemma elem_of_enumerate_from_inv {A} (k : nat) (x : A) (l : list A) :
  x ∈ l -> exists i, (i, x) ∈ enumerate_from k l.
Proof.
  revert k. induction l as [|y l IH]; intros k; simpl.
  - by intros ?%elem_of_nil.
  - intros [->|H]%elem_of_cons.
    + exists k. left.
    + destruct (IH (S k) H) as [i Hi]. exists i. by right.
Qed.

Lemma py_index_last {A} (l : list A) :
  l <> [] -> exists x, py_index l (-1) = Ok x /\ x ∈ l.
Proof.
  intros Hl. assert (Hlen : 0 < length l) by (destruct l; [done|simpl; lia]).
  pose proof (py_index_from_end l 0 Hlen) as H. simpl in H.
  destruct (lookup_lt_is_Some_2 l (length l - 1 - 0)) as [x Hx]; [lia|].
  rewrite Hx in H. exists x. split; [done|]. by eapply list_elem_of_lookup_2.
Qed.

Lemma py_index_first {A} (l : list A) :
  l <> [] -> exists x, py_index l 0 = Ok x /\ x ∈ l.
Proof.
  destruct l as [|x l]; [done|]. intros _. exists x. split; [done|left].
Qed.

(** From a point to one further south on its meridian. *)
Lemma quick_distance_south lat0 lat1 lon :
  (lat1 <= lat0)%R -> quick_distance lat0 lon lat1 lon = (111319 * (lat0 - lat1))%R.
Proof.
  intros H. rewrite quick_distance_meridian.
  replace (lat1 - lat0)%R with (- (lat0 - lat1))%R by lra.
  rewrite Rabs_Ropp, Rabs_pos_eq by lra. reflexivity.
Qed.

Lemma calculate_direction_no_cameras backward s :
  cameras_per_point s = [] -> calculate_direction backward s = (s, Ok (0%R, PyFloat 0)).
Proof.
  intros H. unfold calculate_direction.
  unfold mbind, method_bind, self_get, mret, method_ret. cbn beta iota.
  by rewrite H.
Qed.

Lemma time_and_distance_no_cameras s :
  cameras_per_point s = [] ->
  exists meters seconds,
    time_and_distance_in_camera_fov s = (s, Ok (meters, seconds))
    /\ meters = 0%R /\ num_val seconds = 0%R.
Proof.
  intros Hcpp. unfold time_and_distance_in_camera_fov. unfold mbind, method_bind.
  rewrite calculate_direction_no_cameras by done.
  rewrite calculate_direction_no_cameras by done.
  eexists _, _. split; [reflexivity|]. simpl. split; lra.
Qed.

(** C7: when every point of a track lies outside the effective radius of
    every camera of the catalogue, the membership pass returns and counts
    no camera, and on the object [__init__] completes from it the exposure
    computation returns a distance of 0 and a time of 0. *)
Theorem outside_track_no_exposure args_radius catalog segment :
  (forall p cam, p ∈ segment -> cam ∈ catalog -> outside args_radius cam p) ->
  exists self,
    track_route (fresh_exposure args_radius catalog segment) = (self, Ok tt)
    /\ cam_amount self = 0
    /\ forall distance elapsed,
         let e := set_totals distance elapsed self in
         exists meters seconds,
           time_and_distance_in_camera_fov e = (e, Ok (meters, seconds))
           /\ meters = 0%R /\ num_val seconds = 0%R.
Proof.
  intros Hout.
  destruct (track_route_outside args_radius catalog segment Hout
              (fresh_exposure args_radius catalog segment))
    as (s' & Hroute & (Hrad & Hcams & Hpts & Hcpp & Huniq & Htime) & Hamount).
  { repeat split; try done. intros _ item Hitem. by apply elem_of_nil in Hitem. }
  exists s'. split; [exact Hroute|]. split; [exact Hamount|].
  intros distance elapsed e. by apply time_and_distance_no_cameras.
Qed.

Lemma load_catalog_origin : load_cameras (Ok catalog_origin) = Ok [cam_origin].
Proof. vm_compute. reflexivity. Qed.

Lemma track_far_outside p cam :
  p ∈ track_far -> cam ∈ [cam_origin] -> outside None cam p.
Proof.
  intros Hp Hcam. apply list_elem_of_singleton in Hcam. subst cam.
  exists 0%R, 0%R, 10%R.
  split; [exact py_float_zero|]. split; [exact py_float_zero|]. split; [reflexivity|].
  unfold track_far in Hp. apply elem_of_cons in Hp as [->|Hp].
  - cbn [latitude longitude]. rewrite quick_distance_south by lra. lra.
  - apply list_elem_of_singleton in Hp. subst p. cbn [latitude longitude].
    rewrite quick_distance_south by lra. lra.
Qed.

Lemma outside_track_no_exposure_witness :
  exists self,
    track_route (fresh_exposure None [cam_origin] track_far) = (self, Ok tt)
    /\ cam_amount self = 0
    /\ forall distance elapsed,
         let e := set_totals distance elapsed self in
         exists meters seconds,
           time_and_distance_in_camera_fov e = (e, Ok (meters, seconds))
           /\ meters = 0%R /\ num_val seconds = 0%R.
Proof.
  apply (outside_track_no_exposure None [cam_origin] track_far).
  exact track_far_outside.
Defined.

(** For a track that is not empty, [__init__] as a whole returns, and the
    exposure computation on its object returns a distance and a time of 0. *)
Lemma outside_track_init args_radius camfile segment catalog :
  load_cameras camfile = Ok catalog ->
  segment <> [] ->
  (forall p cam, p ∈ segment -> cam ∈ catalog -> outside args_radius cam p) ->
  exists e, init args_radius camfile segment = Ok e
    /\ cam_amount e = 0
    /\ exists meters seconds,
         time_and_distance_in_camera_fov e = (e, Ok (meters, seconds))
         /\ meters = 0%R /\ num_val seconds = 0%R.
Proof.
  intros Hload Hne Hout. unfold init. rewrite Hload. simpl.
  destruct (track_route_outside args_radius catalog segment Hout
              (fresh_exposure args_radius catalog segment))
    as (s' & Hroute & (Hrad & Hcams & Hpts & Hcpp & Huniq & Htime) & Hamount).
  { repeat split; try done. intros _ item Hitem. by apply elem_of_nil in Hitem. }
  rewrite Hroute.
  destruct (total_distance_loop_sum (points s') (PyInt 0)) as (n & Hn & _).
  unfold get_total_distance. fold (total_distance_loop (points s') (PyInt 0)).
  rewrite Hn. simpl.
  assert (Helapsed : exists t,
    (if time_enabled s' then
       last_point ← py_index (points s') (-1);
       first_point ← py_index (points s') 0;
       time_diff (time last_point) (time first_point)
     else Ok 0%R) = Ok t).
  { destruct (time_enabled s') eqn:Hen; [|eauto].
    rewrite Hpts.
    destruct (py_index_last segment Hne) as (pl & -> & Hpl).
    destruct (py_index_first segment Hne) as (pf & -> & Hpf). simpl.
    destruct (elem_of_enumerate_from_inv 0 pl segment Hpl) as [il Hil].
    destruct (elem_of_enumerate_from_inv 0 pf segment Hpf) as [jf Hjf].
    pose proof (Htime eq_refl _ Hil) as Hl. pose proof (Htime eq_refl _ Hjf) as Hf.
    simpl in Hl, Hf. destruct (time pl), (time pf); try done. simpl. eauto. }
  destruct Helapsed as [t ->]. simpl.
  eexists. split; [reflexivity|]. split; [exact Hamount|].
  by apply time_and_distance_no_cameras.
Qed.

(** ** A short track under one camera *)

Lemma is_in_fov_origin self lat addon :
  radius self = None ->
  is_in_fov self cam_origin lat 0 addon
  = Ok (quick_distance lat 0 0 0, bool_decide (quick_distance lat 0 0 0 <= 10 + addon)%R).
Proof.
  intros Hrad. unfold is_in_fov.
  replace (dict_get cam_origin "latitude" VNone) with (VStr "0") by reflexivity.
  replace (dict_get cam_origin "longitude" VNone) with (VStr "0") by reflexivity.
  rewrite py_float_zero. simpl.
  rewrite (check_round _ _ _ _ _ _ 10%R); [done | reflexivity |].
  unfold fov_radius. rewrite Hrad. reflexivity.
Qed.

(** Unfold the methods and reduce the loops and the attribute accesses of a
    closed run, leaving the arithmetic and the tests on reals in place. *)
Ltac run_model :=
  cbv beta iota zeta delta
    [main_segment init time_and_distance_in_camera_fov calculate_direction
     calculate_point calculate_camera neighbour update_expo seen_at
     exposure_time avg_speed_per_point time_diff timestamp
     track_route track_point point_in_camera_fov get_total_distance
     fresh_exposure enumerate py_index cams_lookup test_points
     mbind method_bind result_bind mret method_ret result_ret
     fmap result_fmap option_fmap option_map
     self_get self_set lift
     for_method for_result enumerate_from assoc_get fst snd app length seq
     negb andb orb default
     Z.of_nat Z.to_nat Z.ltb Z.add Z.sub Z.opp Z.compare Pos.to_nat Pos.iter_op
     Pos.of_succ_nat Pos.succ Pos.compare Pos.compare_cont CompOpp Z.pos_sub
     Pos.pred_double Pos.double_pred_mask Pos.sub_mask Pos.double_mask Pos.succ_double_mask
     Pos.add Nat.add Nat.sub Init.Nat.add Init.Nat.sub Z.double Z.succ_double Z.pred_double
     radius accept_range cams time_enabled points distances cameras_per_point
     unique_cameras cam_amount cam_expo speed_enabled total_distance total_time
     set_time_enabled set_speed_enabled set_distances set_cameras_per_point
     set_unique_cameras set_cam_amount set_cam_expo set_totals
     expo_points expo_dist expo_time expo_append expo_add_time expo_add_dist new_expo
     latitude longitude time speed
     num_val is_np num_add num_mul num_div num_round2 np_div nan_add nan_round2].

Lemma quick_distance_origin : quick_distance 0 0 0 0 = 0%R.
Proof. rewrite quick_distance_south by lra. lra. Qed.

Lemma quick_distance_short : quick_distance (1 / 1000000) 0 0 0 = (111319 / 1000000)%R.
Proof. rewrite quick_distance_south by lra. lra. Qed.

(** Settle a test in the goal: on reals by linear arithmetic, otherwise by
    computation. *)
Ltac settle_test :=
  match goal with
  | |- context [decide ?P] =>
      first [ rewrite (decide_True (P := P)) by lra
            | rewrite (decide_False (P := P)) by lra ]
  | |- context [bool_decide ?P] =>
      first [ rewrite (bool_decide_eq_true_2 P) by lra
            | rewrite (bool_decide_eq_false_2 P) by lra
            | let b := eval vm_compute in (bool_decide P) in
              match b with
              | true => change (bool_decide P) with true
              | false => change (bool_decide P) with false
              end ]
  end.

Lemma quick_distance_short_back :
  quick_distance 0 0 (1 / 1000000) 0 = (111319 / 1000000)%R.
Proof. rewrite quick_distance_sym. apply quick_distance_short. Qed.

Ltac list_lookups :=
  repeat match goal with
    | |- context [(?x :: ?l) !! 0%nat] => change ((x :: l) !! 0%nat) with (Some x)
    | |- context [(?x :: ?l) !! S ?n] => change ((x :: l) !! S n) with (l !! n)
    end.

Lemma Rabs_0_minus x : (0 <= x)%R -> Rabs (0 - x) = x.
Proof. intros H. rewrite Rminus_0_l, Rabs_Ropp. by apply Rabs_pos_eq. Qed.

Lemma Rabs_minus_0 x : (0 <= x)%R -> Rabs (x - 0) = x.
Proof. intros H. rewrite Rminus_0_r. by apply Rabs_pos_eq. Qed.

Ltac run_demo :=
  repeat progress
    (run_model; list_lookups; unfold resolution;
     rewrite ?Rabs_0_minus, ?Rabs_minus_0 by lra;
     rewrite ?is_in_fov_origin by reflexivity;
     rewrite ?quick_distance_origin, ?quick_distance_short, ?quick_distance_short_back;
     rewrite ?lookup_empty, ?lookup_insert_eq, ?alter_insert_eq, ?lookup_alter_eq;
     repeat settle_test).

Lemma seen_camera_0 : (∅ ∪ list_to_set [0] ∪ list_to_set [0] : gset nat) = {[0]}.
Proof. set_solver. Qed.

Lemma init_track_short : init None (Ok catalog_origin) track_short = Ok demo_exposure.
Proof.
  unfold init. rewrite load_catalog_origin. unfold track_short.
  run_demo. rewrite seen_camera_0, size_singleton.
  unfold demo_exposure, track_short. do 2 f_equal; [f_equal|]; lra.
Qed.

(** The report for [track_short]: the backward pass attributes one step of
    0.5 m to the gap of 0.111319 m between the two points, which takes
    10 s. *)
Lemma report_track_short :
  exists rep,
    main_segment None (Ok catalog_origin) track_short = Ok rep
    /\ (100 < num_val (dist_percentage rep))%R
    /\ exists avg_speed time_percentage exposure_time,
         timing rep = Some (avg_speed, time_percentage, exposure_time)
         /\ (100 < num_val time_percentage)%R.
Proof.
  unfold main_segment. rewrite init_track_short.
  unfold demo_exposure, track_short.
  run_demo. rewrite elements_singleton. run_demo.
  eexists. split; [reflexivity|]. cbn [dist_percentage timing num_val]. split.
  - eapply Rlt_le_trans; [|apply round2_lower]. lra.
  - eexists _, _, _. split; [reflexivity|]. cbn [num_val].
    eapply Rlt_le_trans; [|apply round2_lower]. lra.
Qed.

(** C5 as stated fails: [track_short] has a total distance of 0.111319 m
    and a total time of 10 s, both positive, and its reported distance
    percentage and time percentage both exceed 100. *)
Lemma percentages_above_100 :
  exists e rep,
    init None (Ok catalog_origin) track_short = Ok e
    /\ main_segment None (Ok catalog_origin) track_short = Ok rep
    /\ (0 < num_val (total_distance e))%R
    /\ time_enabled e = true /\ (0 < total_time e)%R
    /\ ~ (num_val (dist_percentage rep) <= 100)%R
    /\ exists avg_speed time_percentage exposure_time,
         timing rep = Some (avg_speed, time_percentage, exposure_time)
         /\ ~ (num_val time_percentage <= 100)%R.
Proof.
  destruct report_track_short as (rep & Hrep & Hd & a & p & x & Ht & Hp).
  exists demo_exposure, rep. split; [exact init_track_short|]. split; [exact Hrep|].
  split; [simpl; lra|]. split; [reflexivity|]. split; [simpl; lra|]. split; [lra|].
  exists a, p, x. split; [exact Ht|lra].
Qed.

(** After the backward pass over [track_short], camera 0 has visited
    point 1. *)
Lemma backward_track_short_expo :
  exists d t,
    cam_expo (calculate_direction true demo_exposure).1 = <[0 := Expo [1] d t]> ∅.
Proof.
  unfold demo_exposure, track_short. run_demo. eexists _, _. reflexivity.
Qed.

Lemma visited_points_distinct_witness :
  expo_nodup (calculate_direction false (calculate_direction true demo_exposure).1).1.
Proof.
  apply (visited_points_distinct false (calculate_direction true demo_exposure).1).
  destruct backward_track_short_expo as (d & t & H).
  intros cam e. rewrite H, lookup_insert. case_decide.
  - intros [= <-]. simpl. apply NoDup_singleton.
  - rewrite lookup_empty. discriminate.
Defined.

(** ** Degenerate tracks *)

Lemma num_div_zero a b :
  num_val b = 0%R -> num_div a b = Raise ZeroDivisionError \/ num_div a b = NonFinite.
Proof.
  intros H. unfold num_div. rewrite !decide_True by done.
  destruct (is_np a || is_np b); auto.
Qed.

Lemma num_div_nonzero a b : num_val b <> 0%R -> exists q, num_div a b = Ok q.
Proof.
  intros H. unfold num_div. rewrite !decide_False by done.
  destruct (is_np a || is_np b); eauto.
Qed.

(** C2, amended: for a track whose total distance is zero, or whose total
    time is zero when timestamps are present, no percentage division is
    guarded: once the exposure pass has returned, the report ends in a
    [ZeroDivisionError] or in a non-finite percentage, and no insufficient
    data condition exists. *)
Theorem zero_totals_unguarded args_radius camfile segment e e' meters seconds :
  init args_radius camfile segment = Ok e ->
  time_and_distance_in_camera_fov e = (e', Ok (meters, seconds)) ->
  num_val (total_distance e) = 0%R \/ (time_enabled e = true /\ total_time e = 0%R) ->
  main_segment args_radius camfile segment = Raise ZeroDivisionError
  \/ main_segment args_radius camfile segment = NonFinite.
Proof.
  intros Hinit Hpass Hzero. unfold main_segment. rewrite Hinit.
  cbn [mbind result_bind].
  pose proof (time_and_distance_frame e) as Hframe. rewrite Hpass in Hframe.
  cbn [fst] in Hframe. unfold same_but_expo in Hframe. rewrite Hpass.
  rewrite (f_equal total_distance Hframe : total_distance e' = total_distance e).
  rewrite (f_equal time_enabled Hframe : time_enabled e' = time_enabled e).
  rewrite (f_equal total_time Hframe : total_time e' = total_time e).
  destruct (decide (num_val (total_distance e) = 0%R)) as [Hd|Hd].
  - destruct (num_div_zero (PyFloat meters) (total_distance e) Hd) as [-> | ->];
      cbn [mbind result_bind]; auto.
  - destruct Hzero as [Hz|[Hen Ht]]; [done|].
    destruct (num_div_nonzero (PyFloat meters) (total_distance e) Hd) as [ratio ->].
    cbn [mbind result_bind].
    rewrite Hen.
    destruct (num_div_zero seconds (PyFloat (total_time e)) Ht) as [-> | ->];
      cbn [mbind result_bind]; auto.
Qed.

Lemma seen_camera_0_once : (∅ ∪ list_to_set [0] : gset nat) = {[0]}.
Proof. set_solver. Qed.

Lemma init_track_single : init None (Ok catalog_origin) track_single = Ok single_exposure.
Proof.
  unfold init. rewrite load_catalog_origin. unfold track_single.
  run_demo. rewrite seen_camera_0_once, size_singleton.
  unfold single_exposure, track_single. do 2 f_equal; lra.
Qed.

Lemma pass_track_single :
  time_and_distance_in_camera_fov single_exposure
  = (single_exposure, Ok ((0 + 0)%R, PyFloat (0 + 0))).
Proof. unfold single_exposure, track_single. run_demo. reflexivity. Qed.

Lemma zero_totals_unguarded_witness :
  main_segment None (Ok catalog_origin) track_single = Raise ZeroDivisionError
  \/ main_segment None (Ok catalog_origin) track_single = NonFinite.
Proof.
  apply (zero_totals_unguarded None (Ok catalog_origin) track_single
           single_exposure single_exposure (0 + 0)%R (PyFloat (0 + 0))).
  - exact init_track_single.
  - exact pass_track_single.
  - left. reflexivity.
Defined.

(** C2 as stated fails: the track of the single point (0, 0), under the
    camera at the origin, has total distance 0, and the report raises
    [ZeroDivisionError] at the distance percentage. *)
Lemma single_point_division_fault :
  total_distance single_exposure = PyInt 0
  /\ main_segment None (Ok catalog_origin) track_single = Raise ZeroDivisionError
  /\ ~ division_guarded (main_segment None (Ok catalog_origin) track_single).
Proof.
  assert (H : main_segment None (Ok catalog_origin) track_single = Raise ZeroDivisionError).
  { unfold main_segment. rewrite init_track_single. cbn [mbind result_bind].
    rewrite pass_track_single. unfold single_exposure. run_demo. reflexivity. }
  split; [reflexivity|]. split; [exact H|]. rewrite H. intros [Hne _]. by apply Hne.
Qed.

(** ** Speed handling *)



Lemma py_index_nat {A} (l : list A) (i : nat) :
  py_index l (Z.of_nat i) =
    match l !! i with
    | Some a => Ok a
    | None => Raise IndexError
    end.
Proof.
  assert (H : (Z.of_nat i <? 0)%Z = false) by (apply Z.ltb_ge; lia).
  unfold py_index. rewrite H. cbv zeta. by rewrite H, Nat2Z.id.
Qed.



Lemma track_route_track_speed :
  track_route (fresh_exposure None [cam_origin] track_speed) = (speed_exposure, Ok tt).
Proof.
  unfold track_speed. run_demo. rewrite seen_camera_0, size_singleton. reflexivity.
Qed.


(** On [track_speed] the whole exposure computation stops with the type
    error: the backward pass attributes point 1, whose speed is [None]. *)
Lemma pass_track_speed :
  (time_and_distance_in_camera_fov speed_exposure).2 = Raise TypeError.
Proof. unfold speed_exposure, track_speed. run_demo. reflexivity. Qed.

(** * Further properties *)

(** ** Geometry *)

Lemma PI_lower : (31415 / 10000 < PI)%R.
Proof.
  destruct (PI_2_3_7_ineq 1) as [H _].
  unfold sum_f_R0, tg_alt, PI_2_3_7_tg, Ratan_seq in H. simpl in H. lra.
Qed.

(** X1: the quick distance is symmetric, never negative, and 0 from a point to
    itself. *)
Theorem quick_distance_symmetric_nonneg lat0 lon0 lat1 lon1 :
  quick_distance lat0 lon0 lat1 lon1 = quick_distance lat1 lon1 lat0 lon0
  /\ (0 <= quick_distance lat0 lon0 lat1 lon1)%R
  /\ quick_distance lat0 lon0 lat0 lon0 = 0%R.
Proof.
  split; [apply quick_distance_sym|]. split; [apply quick_distance_nonneg|].
  rewrite quick_distance_meridian.
  replace (lat0 - lat0)%R with 0%R by lra. rewrite Rabs_R0. lra.
Qed.

(** Along a meridian, and along the equator, the quick distance is 111319 m
    per degree. *)
Lemma quick_distance_per_degree a b c :
  quick_distance a c b c = (111319 * Rabs (b - a))%R
  /\ quick_distance 0 a 0 b = (111319 * Rabs (b - a))%R.
Proof.
  split; [apply quick_distance_meridian|].
  unfold quick_distance. f_equal.
  replace ((0 + 0) * (872664626 / 100000000000))%R with 0%R by lra.
  rewrite cos_0.
  replace ((0 - 0) * (0 - 0) + (b - a) * 1 * ((b - a) * 1))%R with (Rsqr (b - a))
    by (unfold Rsqr; ring).
  apply sqrt_Rsqr_abs.
Qed.

Lemma mercator_angle lat :
  (-90 < lat < 90)%R -> (0 < deg2rad lat / 2 + PI / 4 < PI / 2)%R.
Proof. intros H. pose proof PI_RGT_0. unfold deg2rad. split; nra. Qed.

(** The [dphi] of [get_bearing] for two points of one latitude. *)
Lemma dphi_same_latitude lat :
  (-90 < lat < 90)%R ->
  ln (tan (deg2rad lat / 2 + PI / 4) / tan (deg2rad lat / 2 + PI / 4)) = 0%R.
Proof.
  intros H. pose proof (mercator_angle lat H) as Ha.
  assert (0 < tan (deg2rad lat / 2 + PI / 4))%R by (apply tan_gt_0; lra).
  unfold Rdiv. rewrite Rinv_r by lra. apply ln_1.
Qed.

Lemma dphi_southwards lat0 lat1 :
  (-90 < lat1)%R -> (lat1 < lat0)%R -> (lat0 < 90)%R ->
  (ln (tan (deg2rad lat1 / 2 + PI / 4) / tan (deg2rad lat0 / 2 + PI / 4)) < 0)%R.
Proof.
  intros H1 H10 H0.
  pose proof (mercator_angle lat0 ltac:(lra)) as Ha0.
  pose proof (mercator_angle lat1 ltac:(lra)) as Ha1.
  set (a0 := (deg2rad lat0 / 2 + PI / 4)%R) in *.
  set (a1 := (deg2rad lat1 / 2 + PI / 4)%R) in *.
  assert (Ha10 : (a1 < a0)%R).
  { unfold a0, a1, deg2rad. pose proof PI_RGT_0. nra. }
  assert (Ht1 : (0 < tan a1)%R) by (apply tan_gt_0; lra).
  assert (Ht10 : (tan a1 < tan a0)%R) by (apply tan_increasing; lra).
  rewrite <- ln_1. apply ln_increasing.
  - apply Rdiv_lt_0_compat; lra.
  - apply (Rmult_lt_reg_r (tan a0)); [lra|].
    unfold Rdiv. rewrite Rmult_assoc, Rinv_l by lra. lra.
Qed.

(** X4: along a meridian, for latitudes within 89 degrees of the equator
    that are at least a millionth of a degree apart, the bearing is 0 going
    north and 180 going south. *)
Theorem bearing_along_meridian lat0 lat1 lon :
  (-89 <= lat0 <= 89)%R -> (-89 <= lat1 <= 89)%R ->
  ((1 / 1000000 <= lat1 - lat0)%R -> get_bearing lat0 lon lat1 lon = 0%R)
  /\ ((1 / 1000000 <= lat0 - lat1)%R -> get_bearing lat0 lon lat1 lon = 180%R).
Proof.
  intros H0 H1. split; intros Hlt.
  - apply get_bearing_north; lra.
  - unfold get_bearing. pose proof PI_RGT_0 as Hpi.
    replace (deg2rad lon - deg2rad lon)%R with 0%R by ring.
    rewrite Rabs_R0. rewrite (decide_False (P := (PI < 0)%R)) by lra.
    pose proof (dphi_southwards lat0 lat1 ltac:(lra) ltac:(lra) ltac:(lra)) as Hphi.
    unfold arctan2. rewrite decide_False by lra. rewrite decide_True by lra.
    rewrite decide_True by lra.
    unfold Rdiv at 1. rewrite Rmult_0_l, atan_0, Rplus_0_l.
    replace (degrees PI) with 180%R by (unfold degrees; field; lra).
    rewrite (py_fmod_eq _ _ 1%Z) by lra. lra.
Qed.

Lemma bearing_along_meridian_witness :
  ((1 / 1000000 <= 1 - 0)%R -> get_bearing 0 0 1 0 = 0%R)
  /\ ((1 / 1000000 <= 0 - 1)%R -> get_bearing 0 0 1 0 = 180%R).
Proof. apply (bearing_along_meridian 0 1 0); lra. Defined.

(** X5: along a parallel, for longitudes in [[-180, 180]] that are at least
    a millionth of a degree and at most 179 degrees apart, the bearing is 90
    going east and 270 going west. *)
Theorem bearing_along_parallel lat lon0 lon1 :
  (-90 < lat < 90)%R -> (-180 <= lon0 <= 180)%R -> (-180 <= lon1 <= 180)%R ->
  ((1 / 1000000 <= lon1 - lon0 <= 179)%R -> get_bearing lat lon0 lat lon1 = 90%R)
  /\ ((1 / 1000000 <= lon0 - lon1 <= 179)%R -> get_bearing lat lon0 lat lon1 = 270%R).
Proof.
  intros Hlat _ _. pose proof PI_RGT_0 as Hpi. split; intros Hlon.
  - unfold get_bearing. rewrite dphi_same_latitude by done.
    assert (Hd : (0 < deg2rad lon1 - deg2rad lon0 <= PI)%R).
    { unfold deg2rad. split; nra. }
    rewrite (decide_False (P := (PI < _)%R)) by (rewrite Rabs_pos_eq; lra).
    unfold arctan2. rewrite !(decide_False (P := (0 < 0)%R)) by lra.
    rewrite decide_True by lra.
    replace (degrees (PI / 2)) with 90%R by (unfold degrees; field; lra).
    rewrite (py_fmod_eq _ _ 1%Z) by lra. lra.
  - unfold get_bearing. rewrite dphi_same_latitude by done.
    assert (Hd : (- PI <= deg2rad lon1 - deg2rad lon0 < 0)%R).
    { unfold deg2rad. split; nra. }
    rewrite (decide_False (P := (PI < _)%R)) by (rewrite Rabs_left; lra).
    unfold arctan2. rewrite !(decide_False (P := (0 < 0)%R)) by lra.
    rewrite (decide_False (P := (0 < _)%R)) by lra.
    rewrite decide_True by lra.
    replace (degrees (- (PI / 2))) with (- 90)%R by (unfold degrees; field; lra).
    rewrite (py_fmod_eq _ _ 0%Z) by lra. lra.
Qed.

Lemma bearing_along_parallel_witness :
  ((1 / 1000000 <= 1 - 0 <= 179)%R -> get_bearing 0 0 0 1 = 90%R)
  /\ ((1 / 1000000 <= 0 - 1 <= 179)%R -> get_bearing 0 0 0 1 = 270%R).
Proof. apply (bearing_along_parallel 0 0 1); lra. Defined.

(** X6: across the antimeridian the longitude difference is corrected: for
    longitudes in [[-180, 180]] that are between 181 and 359 degrees apart
    the bearing along the parallel takes the short way, 90 from 170 east
    to 170 west, say, and 270 the other way. *)
Theorem bearing_across_antimeridian lat lon0 lon1 :
  (-90 < lat < 90)%R -> (-180 <= lon0 <= 180)%R -> (-180 <= lon1 <= 180)%R ->
  ((181 <= lon0 - lon1 <= 359)%R -> get_bearing lat lon0 lat lon1 = 90%R)
  /\ ((181 <= lon1 - lon0 <= 359)%R -> get_bearing lat lon0 lat lon1 = 270%R).
Proof.
  intros Hlat _ _. pose proof PI_RGT_0 as Hpi. split; intros Hlon.
  - unfold get_bearing. rewrite dphi_same_latitude by done.
    assert (Hd : (- (2 * PI) < deg2rad lon1 - deg2rad lon0 < - PI)%R).
    { unfold deg2rad. split; nra. }
    rewrite (decide_True (P := (PI < _)%R)) by (rewrite Rabs_left; lra).
    rewrite (decide_False (P := (0 < deg2rad lon1 - deg2rad lon0)%R)) by lra.
    unfold arctan2. rewrite !(decide_False (P := (0 < 0)%R)) by lra.
    rewrite decide_True by lra.
    replace (degrees (PI / 2)) with 90%R by (unfold degrees; field; lra).
    rewrite (py_fmod_eq _ _ 1%Z) by lra. lra.
  - unfold get_bearing. rewrite dphi_same_latitude by done.
    assert (Hd : (PI < deg2rad lon1 - deg2rad lon0 < 2 * PI)%R).
    { unfold deg2rad. split; nra. }
    rewrite (decide_True (P := (PI < _)%R)) by (rewrite Rabs_pos_eq; lra).
    rewrite (decide_True (P := (0 < deg2rad lon1 - deg2rad lon0)%R)) by lra.
    unfold arctan2. rewrite !(decide_False (P := (0 < 0)%R)) by lra.
    rewrite (decide_False (P := (0 < _)%R)) by lra.
    rewrite decide_True by lra.
    replace (degrees (- (PI / 2))) with (- 90)%R by (unfold degrees; field; lra).
    rewrite (py_fmod_eq _ _ 0%Z) by lra. lra.
Qed.

Lemma bearing_across_antimeridian_witness :
  ((181 <= 170 - -170 <= 359)%R -> get_bearing 0 170 0 (-170) = 90%R)
  /\ ((181 <= -170 - 170 <= 359)%R -> get_bearing 0 170 0 (-170) = 270%R).
Proof. apply (bearing_across_antimeridian 0 170 (-170)); lra. Defined.

Lemma route_length_quick_nonneg (l : list point) : (0 <= route_length quick_leg l)%R.
Proof.
  induction l as [|p [|q l] IH]; simpl; try lra.
  pose proof (quick_distance_nonneg (latitude p) (longitude p) (latitude q) (longitude q)).
  unfold quick_leg at 1. simpl in IH. lra.
Qed.

(** X9: the total distance is never negative; it is the int 0 for a track of
    fewer than two points and a numpy float otherwise. *)
Theorem total_distance_kind (self : exposure) :
  exists n, get_total_distance self = Ok n
            /\ (0 <= num_val n)%R
            /\ (length (points self) < 2 -> n = PyInt 0)
            /\ (2 <= length (points self) -> is_np n = true).
Proof.
  destruct (total_distance_loop_sum (points self) (PyInt 0)) as (n & Hn & Hval & Hshort & Hnp).
  exists n. split; [exact Hn|]. split; [|by split].
  rewrite Hval. simpl. pose proof (route_length_quick_nonneg (points self)). lra.
Qed.

(** ** The field-of-view test *)

(** X10: a point the test accepts is still accepted at a smaller distance and
    with a larger margin. *)
Theorem check_dist_monotone self d d' cam lat lon addon addon' :
  check_dist_to_cam self d cam lat lon addon = Ok true ->
  (d' <= d)%R -> (addon <= addon')%R ->
  check_dist_to_cam self d' cam lat lon addon' = Ok true.
Proof.
  unfold check_dist_to_cam.
  destruct (fov_radius self cam) as [r| |]; cbn [mbind result_bind]; try done.
  intros H Hd Ha. destruct (decide (d <= r + addon)%R) as [Hin|]; [|done].
  by rewrite decide_True by lra.
Qed.

Lemma check_dist_monotone_witness :
  check_dist_to_cam (fresh_exposure None [] []) 3 cam_origin 0 0 1 = Ok true.
Proof.
  apply (check_dist_monotone (fresh_exposure None [] []) 5 3 cam_origin 0 0 0 1).
  - rewrite (check_round _ _ _ _ _ _ 10%R); [|reflexivity|reflexivity].
    by rewrite bool_decide_eq_true_2 by lra.
  - lra.
  - lra.
Defined.

(** ** The camera table *)

Lemma load_cameras_loop_length columns reader (acc cs : list camera) :
  for_result (fun cams row => cam ← load_row columns row; Ok (cams ++ [cam])) reader acc
    = Ok cs ->
  length cs = length acc + length reader.
Proof.
  revert acc. induction reader as [|row reader IH]; intros acc; simpl.
  - intros [= <-]. lia.
  - destruct (load_row columns row) as [cam| |]; simpl; try done.
    intros H. apply IH in H. rewrite length_app in H. simpl in H. lia.
Qed.

(** The catalogue holds one record per row below the header, blank rows
    included. *)
Lemma load_cameras_one_per_row columns reader cs :
  load_cameras (Ok (columns :: reader)) = Ok cs -> length cs = length reader.
Proof.
  unfold load_cameras. cbn [mbind result_bind]. intros H.
  by apply load_cameras_loop_length in H.
Qed.

Lemma load_row_loop_lookup columns row :
  NoDup columns ->
  forall cells pre acc,
    row = pre ++ cells ->
    length row <= length columns ->
    (forall i name, columns !! i = Some name ->
       acc !! name = if decide (i < length pre) then cell_value row i else None) ->
    exists cam, load_row_loop columns (length pre) cells acc = Ok cam
      /\ forall i name, columns !! i = Some name -> cam !! name = cell_value row i.
Proof.
  intros Hnodup. induction cells as [|cell cells IH]; intros pre acc Hrow Hlen Hacc.
  - exists acc. split; [done|]. intros i name Hi. rewrite (Hacc i name Hi).
    case_decide; [done|]. unfold cell_value.
    rewrite lookup_ge_None_2; [done|]. rewrite Hrow, app_nil_r. lia.
  - unfold load_row_loop. cbn [enumerate_from for_result].
    assert (Hk : row !! length pre = Some cell).
    { rewrite Hrow. by rewrite list_lookup_middle. }
    assert (Hklen : length pre < length columns).
    { apply lookup_lt_Some in Hk. lia. }
    destruct (lookup_lt_is_Some_2 columns (length pre) Hklen) as [name_k Hname].
    assert (Hnext : row = (pre ++ [cell]) ++ cells) by by rewrite <- app_assoc.
    assert (Hlen' : length (pre ++ [cell]) = S (length pre))
      by (rewrite length_app; simpl; lia).
    case_bool_decide as Hcell.
    + rewrite py_index_nat, Hname. cbn [mbind result_bind].
      destruct (IH (pre ++ [cell]) (<[name_k := VStr cell]> acc) Hnext Hlen) as (cam & Hcam & Hlook).
      { intros i name Hi. rewrite Hlen'. rewrite lookup_insert. case_decide as Heq.
        - subst name. assert (i = length pre) by by eapply NoDup_lookup. subst i.
          rewrite decide_True by lia. unfold cell_value. rewrite Hk.
          by rewrite bool_decide_eq_true_2.
        - rewrite (Hacc i name Hi).
          assert (i <> length pre) by (intros ->; congruence).
          repeat case_decide; try done; lia. }
      exists cam. split; [|done]. rewrite <- Hcam. unfold load_row_loop.
      by rewrite Hlen'.
    + cbn [mbind result_bind].
      destruct (IH (pre ++ [cell]) acc Hnext Hlen) as (cam & Hcam & Hlook).
      { intros i name Hi. rewrite Hlen'. rewrite (Hacc i name Hi).
        destruct (decide (i = length pre)) as [->|Hne].
        - rewrite decide_False, decide_True by lia. unfold cell_value. rewrite Hk.
          case_bool_decide; [contradiction|done].
        - repeat case_decide; try done; lia. }
      exists cam. split; [|done]. rewrite <- Hcam. unfold load_row_loop.
      by rewrite Hlen'.
Qed.

(** X12: reading a row back: when the header names are distinct and the row is
    not longer than the header, the record holds under each header name the
    cell of that column, as a string, and nothing for an empty or missing
    cell. *)
Theorem load_row_lookup columns row :
  NoDup columns ->
  length row <= length columns ->
  exists cam, load_row columns row = Ok cam
    /\ forall i name, columns !! i = Some name -> cam !! name = cell_value row i.
Proof.
  intros Hnodup Hlen.
  apply (load_row_loop_lookup columns row Hnodup row [] ∅); [done|done|].
  intros i name _. rewrite lookup_empty. case_decide; [simpl in *; lia|done].
Qed.

Lemma load_row_lookup_witness :
  exists cam, load_row ["latitude"; "longitude"; "radius"] ["60.1"; ""] = Ok cam
    /\ forall i name, ["latitude"; "longitude"; "radius"] !! i = Some name ->
         cam !! name = cell_value ["60.1"; ""] i.
Proof.
  apply (load_row_lookup ["latitude"; "longitude"; "radius"] ["60.1"; ""]).
  - apply NoDup_ListNoDup. repeat constructor; simpl; intuition discriminate.
  - simpl. lia.
Defined.

Lemma load_row_loop_keys columns k cells (acc cam : camera) :
  load_row_loop columns k cells acc = Ok cam ->
  (forall key v, acc !! key = Some v ->
     key ∈ columns /\ exists s, v = VStr s /\ s ≠ "") ->
  (forall key v, cam !! key = Some v ->
     key ∈ columns /\ exists s, v = VStr s /\ s ≠ "")
  /\ forall i cell, cells !! i = Some cell -> cell ≠ "" -> k + i < length columns.
Proof.
  revert k acc. induction cells as [|cell cells IH]; intros k acc; unfold load_row_loop;
    cbn [enumerate_from for_result].
  - intros [= <-] Hacc. split; [done|]. intros i cell Hi. by rewrite lookup_nil in Hi.
  - case_bool_decide as Hcell.
    + rewrite py_index_nat.
      destruct (columns !! k) as [name|] eqn:Hname; cbn [mbind result_bind]; [|done].
      intros Hrun Hacc.
      destruct (IH (S k) (<[name := VStr cell]> acc) Hrun) as [Hkeys Hcells].
      { intros key v. rewrite lookup_insert. case_decide.
        - intros [= <-]. subst key. split; [by eapply list_elem_of_lookup_2|eauto].
        - apply Hacc. }
      split; [done|]. intros [|i] c Hi Hc.
      * apply lookup_lt_Some in Hname. lia.
      * specialize (Hcells i c Hi Hc). lia.
    + cbn [mbind result_bind]. intros Hrun Hacc.
      destruct (IH (S k) acc Hrun Hacc) as [Hkeys Hcells].
      split; [done|]. intros [|i] c Hi Hc.
      * simpl in Hi. congruence.
      * specialize (Hcells i c Hi Hc). lia.
Qed.

Lemma load_row_outcome columns k cells (acc : camera) :
  (exists cam, load_row_loop columns k cells acc = Ok cam)
  \/ load_row_loop columns k cells acc = Raise IndexError.
Proof.
  revert k acc. induction cells as [|cell cells IH]; intros k acc; unfold load_row_loop;
    cbn [enumerate_from for_result]; [eauto|].
  case_bool_decide.
  - rewrite py_index_nat. destruct (columns !! k); cbn [mbind result_bind]; [|auto].
    apply IH.
  - cbn [mbind result_bind]. apply IH.
Qed.

(** X13: every key of a loaded record is a name of the header row, and every
    value is a non-empty string. *)
Theorem loaded_keys_from_header columns reader cs (cam : camera) key v :
  load_cameras (Ok (columns :: reader)) = Ok cs ->
  cam ∈ cs ->
  cam !! key = Some v ->
  key ∈ columns /\ exists s, v = VStr s /\ s ≠ "".
Proof.
  unfold load_cameras. cbn [mbind result_bind]. intros Hload Hcam.
  assert (Hgen : forall reader (acc cs : list camera),
    for_result (fun cams row => cam ← load_row columns row; Ok (cams ++ [cam])) reader acc
      = Ok cs ->
    (forall c, c ∈ acc -> forall key v, c !! key = Some v ->
       key ∈ columns /\ exists s, v = VStr s /\ s ≠ "") ->
    forall c, c ∈ cs -> forall key v, c !! key = Some v ->
       key ∈ columns /\ exists s, v = VStr s /\ s ≠ "").
  { clear. induction reader as [|row reader IH]; intros acc cs; simpl.
    - by intros [= <-].
    - destruct (load_row columns row) as [cam| |] eqn:Hrow; simpl; try done.
      intros Hrun Hacc. apply (IH _ _ Hrun).
      intros c [Hc|Hc%list_elem_of_singleton]%elem_of_app; [by apply Hacc|]. subst c.
      apply (load_row_loop_keys columns 0 row ∅ cam Hrow).
      intros k w. by rewrite lookup_empty. }
  apply (Hgen reader [] cs Hload); [|done].
  intros c Hc. by apply elem_of_nil in Hc.
Qed.

Lemma loaded_keys_from_header_witness :
  "direction" ∈ ["latitude"; "longitude"; "camera type"; "angle of view"; "direction"]
  /\ exists s, VStr "350" = VStr s /\ s ≠ "".
Proof.
  apply (loaded_keys_from_header
           ["latitude"; "longitude"; "camera type"; "angle of view"; "direction"]
           [["0"; "0"; "directed"; "40"; "350"]] [cam_directed_350] cam_directed_350).
  - exact load_catalog_directed.
  - apply list_elem_of_here.
  - reflexivity.
Defined.

(** X14: a row that reaches beyond the header with a non-empty cell makes the
    loading fail with an [IndexError]; nothing is loaded. *)
Theorem load_cameras_surplus_cell columns reader row :
  row ∈ reader ->
  surplus_cell columns row ->
  load_cameras (Ok (columns :: reader)) = Raise IndexError.
Proof.
  intros Hrow (i & cell & Hi & Hcell & Hlen).
  unfold load_cameras. cbn [mbind result_bind].
  assert (Hbad : load_row columns row = Raise IndexError).
  { destruct (load_row_outcome columns 0 row ∅) as [[cam Hcam]|Hraise]; [|done].
    destruct (load_row_loop_keys columns 0 row ∅ cam Hcam) as [_ Hcells].
    { intros k w. by rewrite lookup_empty. }
    specialize (Hcells i cell Hi Hcell). lia. }
  assert (Hgen : forall rows (acc : list camera), row ∈ rows ->
    for_result (fun cams row => cam ← load_row columns row; Ok (cams ++ [cam])) rows acc
      = Raise IndexError).
  { clear Hrow. induction rows as [|r rows IH]; intros acc Hrow.
    - by apply elem_of_nil in Hrow.
    - simpl. destruct (load_row_outcome columns 0 r ∅) as [[cam Hcam]|Hraise];
        change (load_row_loop columns 0 r ∅) with (load_row columns r) in *.
      + rewrite Hcam. simpl. apply elem_of_cons in Hrow as [->|Hrow]; [congruence|].
        by apply IH.
      + by rewrite Hraise. }
  by apply Hgen.
Qed.

Lemma load_cameras_surplus_cell_witness :
  load_cameras (Ok [["latitude"; "longitude"]; ["0"; "0"]; ["1"; "1"; "15"]])
  = Raise IndexError.
Proof.
  apply (load_cameras_surplus_cell ["latitude"; "longitude"]
           [["0"; "0"]; ["1"; "1"; "15"]] ["1"; "1"; "15"]).
  - apply list_elem_of_further, list_elem_of_here.
  - exists 2, "15". split; [reflexivity|]. split; [discriminate|]. simpl. lia.
Defined.

(** ** The membership pass *)

Lemma point_in_camera_fov_loop_spec self lat lon (cs : list camera) k res0 ds0 res ds :
  for_result
    (fun (acc : list nat * list R) (item : nat * camera) =>
       let '(results, distances) := acc in
       let '(cam_id, cam) := item in
       '(distance, b) ← is_in_fov self cam lat lon 0%R;
       let distances := distances ++ [distance] in
       if (b : bool) then Ok (results ++ [cam_id], distances) else Ok (results, distances))
    (enumerate_from k cs) (res0, ds0) = Ok (res, ds) ->
  length ds = length ds0 + length cs
  /\ (forall j d, ds0 !! j = Some d -> ds !! j = Some d)
  /\ (forall c, c ∈ res0 -> c ∈ res)
  /\ (forall c, c ∈ res -> c ∈ res0 \/ k <= c < k + length cs)
  /\ forall j cam, cs !! j = Some cam ->
       exists d b, is_in_fov self cam lat lon 0 = Ok (d, b)
                   /\ (b = true -> k + j ∈ res)
                   /\ (k + j ∈ res -> b = true \/ k + j ∈ res0)
                   /\ ds !! (length ds0 + j) = Some d.
Proof.
  revert k res0 ds0. induction cs as [|cam cs IH]; intros k res0 ds0; simpl.
  - intros [= <- <-]. split; [lia|]. split; [done|]. split; [done|].
    split; [by left|]. intros j c Hj. by rewrite lookup_nil in Hj.
  - destruct (is_in_fov self cam lat lon 0) as [[d b]| |] eqn:Hfov; simpl; try done.
    set (res1 := if b then res0 ++ [k] else res0).
    replace (if b then Ok (res0 ++ [k], ds0 ++ [d]) else Ok (res0, ds0 ++ [d]))
      with (@Ok (list nat * list R) (res1, ds0 ++ [d])) by (unfold res1; by destruct b).
    cbn [mbind result_bind]. intros Hrun.
    destruct (IH (S k) res1 (ds0 ++ [d]) Hrun) as (Hlen & Hds & Hsub & Hlt & Hspec).
    rewrite length_app in Hlen, Hspec. simpl in Hlen, Hspec.
    assert (Hsub1 : forall c, c ∈ res0 -> c ∈ res1).
    { intros c Hc. unfold res1. destruct b; [|done]. apply elem_of_app. by left. }
    assert (Hin1 : forall c, c ∈ res1 -> c ∈ res0 \/ (b = true /\ c = k)).
    { intros c. unfold res1. destruct b; [|by left].
      intros [Hc|Hc%list_elem_of_singleton]%elem_of_app; [by left|by right]. }
    split; [lia|]. split; [|split; [|split]].
    + intros j x Hj. apply Hds. by apply lookup_app_l_Some.
    + intros c Hc. by apply Hsub, Hsub1.
    + intros c Hc. destruct (Hlt c Hc) as [Hc1|Hc1]; [|lia].
      destruct (Hin1 c Hc1) as [?|[_ ->]]; [by left|lia].
    + intros [|j] c Hj; simpl in Hj.
      * injection Hj as <-. exists d, b. rewrite Nat.add_0_r. split; [done|].
        split; [|split].
        -- intros ->. apply Hsub. unfold res1. apply elem_of_app. right. left.
        -- intros Hk. destruct (Hlt k Hk) as [Hk1|Hk1]; [|lia].
           destruct (Hin1 k Hk1) as [?|[? _]]; [by right|by left].
        -- apply Hds. by apply list_lookup_middle.
      * destruct (Hspec j c Hj) as (x & bx & Hx & Htrue & Hres & Hdx). exists x, bx.
        replace (k + S j) with (S k + j) by lia. split; [done|]. split; [done|].
        split.
        -- intros Hk. destruct (Hres Hk) as [?|Hk1]; [by left|].
           destruct (Hin1 _ Hk1) as [?|[_ ?]]; [by right|lia].
        -- by replace (length ds0 + S j) with (length ds0 + 1 + j) by lia.
Qed.

Lemma point_in_camera_fov_member self lat lon predictions dists c cam :
  point_in_camera_fov self lat lon = Ok (predictions, dists) ->
  cams self !! c = Some cam ->
  exists d, is_in_fov self cam lat lon 0 = Ok (d, bool_decide (c ∈ predictions))
            /\ dists !! c = Some d.
Proof.
  intros Hrun Hc. unfold point_in_camera_fov, enumerate in Hrun.
  destruct (point_in_camera_fov_loop_spec self lat lon (cams self) 0 [] [] _ _ Hrun)
    as (_ & _ & _ & _ & Hspec).
  destruct (Hspec c cam Hc) as (d & b & Hfov & Htrue & Hres & Hd).
  exists d. split; [|done]. rewrite Hfov. do 2 f_equal. simpl in *.
  destruct b.
  - by rewrite bool_decide_eq_true_2 by auto.
  - rewrite bool_decide_eq_false_2; [done|]. intros Hin.
    destruct (Hres Hin) as [?|Hnil]; [done|by apply elem_of_nil in Hnil].
Qed.

Lemma point_in_camera_fov_bounds self lat lon predictions dists :
  point_in_camera_fov self lat lon = Ok (predictions, dists) ->
  length dists = length (cams self)
  /\ forall c, c ∈ predictions -> c < length (cams self).
Proof.
  intros Hrun. unfold point_in_camera_fov, enumerate in Hrun.
  destruct (point_in_camera_fov_loop_spec self lat lon (cams self) 0 [] [] _ _ Hrun)
    as (Hlen & _ & _ & Hlt & _).
  split; [done|].
  intros c Hc. destruct (Hlt c Hc) as [Hnil|?]; [by apply elem_of_nil in Hnil|lia].
Qed.

(** X15: the membership pass for one point, when it returns: [distances] lists
    the quick distance to every camera in catalogue order, and
    [predictions] holds exactly the cameras whose FOV test is true. *)
Theorem point_in_camera_fov_spec self lat lon predictions dists :
  point_in_camera_fov self lat lon = Ok (predictions, dists) ->
  length dists = length (cams self)
  /\ (forall c, c ∈ predictions -> c < length (cams self))
  /\ forall c cam, cams self !! c = Some cam ->
       exists d, is_in_fov self cam lat lon 0 = Ok (d, bool_decide (c ∈ predictions))
                 /\ dists !! c = Some d.
Proof.
  intros Hrun. destruct (point_in_camera_fov_bounds _ _ _ _ _ Hrun) as [Hlen Hlt].
  split; [done|]. split; [done|].
  intros c cam Hc. by apply (point_in_camera_fov_member _ _ _ _ _ c cam Hrun).
Qed.

Lemma point_in_camera_fov_origin :
  point_in_camera_fov (fresh_exposure None [cam_origin] []) 0 0
  = Ok ([0], [quick_distance 0 0 0 0]).
Proof.
  unfold point_in_camera_fov, enumerate. cbn [cams fresh_exposure enumerate_from for_result].
  rewrite is_in_fov_origin by reflexivity. rewrite quick_distance_origin.
  by rewrite bool_decide_eq_true_2 by lra.
Qed.

Lemma point_in_camera_fov_spec_witness :
  length [quick_distance 0 0 0 0] = length (cams (fresh_exposure None [cam_origin] []))
  /\ (forall c, c ∈ [0] -> c < length (cams (fresh_exposure None [cam_origin] [])))
  /\ forall c cam, cams (fresh_exposure None [cam_origin] []) !! c = Some cam ->
       exists d, is_in_fov (fresh_exposure None [cam_origin] []) cam 0 0 0
                 = Ok (d, bool_decide (c ∈ [0]))
                 /\ [quick_distance 0 0 0 0] !! c = Some d.
Proof.
  apply (point_in_camera_fov_spec (fresh_exposure None [cam_origin] []) 0 0).
  exact point_in_camera_fov_origin.
Defined.

(** ** The pass over the track *)

Lemma is_in_fov_ext s s' cam lat lon addon :
  radius s = radius s' -> is_in_fov s cam lat lon addon = is_in_fov s' cam lat lon addon.
Proof.
  intros Hr. unfold is_in_fov, check_dist_to_cam, fov_radius. by rewrite Hr.
Qed.

Lemma point_in_camera_fov_ext s s' lat lon :
  radius s = radius s' -> cams s = cams s' ->
  point_in_camera_fov s lat lon = point_in_camera_fov s' lat lon.
Proof.
  intros Hr Hc. unfold point_in_camera_fov. rewrite Hc.
  apply for_result_ext. intros [results ds] [cam_id cam].
  by rewrite (is_in_fov_ext s s' cam lat lon 0 Hr).
Qed.

Lemma track_point_Ok index p s s' :
  track_point (index, p) s = (s', Ok tt) ->
  exists predictions dists,
    point_in_camera_fov s (latitude p) (longitude p) = Ok (predictions, dists)
    /\ s' = after_track_point index p predictions dists s.
Proof.
  unfold track_point, after_track_point.
  unfold mbind, method_bind, self_get, self_set, lift, mret, method_ret. cbn beta iota.
  assert (Hext : point_in_camera_fov (set_time_enabled false s) (latitude p) (longitude p)
                 = point_in_camera_fov s (latitude p) (longitude p))
    by by apply point_in_camera_fov_ext.
  destruct (time p); cbn beta iota; rewrite ?Hext.
  all: destruct (point_in_camera_fov _ _ _) as [[preds ds]| |]; [|done|done].
  all: cbn beta iota.
  all: destruct (speed p) as [v|]; [case_bool_decide|]; cbn beta iota.
  all: destruct preds; cbn beta iota.
  all: intros [= <-]; by eexists _, _.
Qed.

Lemma after_track_point_fields index p predictions dists s :
  let s' := after_track_point index p predictions dists s in
  radius s' = radius s /\ cams s' = cams s /\ points s' = points s
  /\ cam_expo s' = cam_expo s
  /\ distances s' = distances s ++ dists
  /\ time_enabled s' = match time p with Some _ => time_enabled s | None => false end
  /\ speed_enabled s' = match speed p with
                        | Some v => if bool_decide (v ≠ 0%R) then true else speed_enabled s
                        | None => speed_enabled s
                        end
  /\ cameras_per_point s' = match predictions with
                            | [] => cameras_per_point s
                            | _ => cameras_per_point s ++ [(index, predictions)]
                            end
  /\ unique_cameras s' = match predictions with
                         | [] => unique_cameras s
                         | _ => unique_cameras s ∪ list_to_set predictions
                         end.
Proof.
  unfold after_track_point.
  destruct (time p), (speed p) as [v|]; [case_bool_decide| |case_bool_decide|].
  all: by destruct predictions.
Qed.

Lemma enumerate_from_lookup {A} (k j : nat) (x : A) (l : list A) :
  l !! j = Some x -> enumerate_from k l !! j = Some (k + j, x).
Proof.
  revert k j. induction l as [|y l IH]; intros k j; [by rewrite lookup_nil|].
  destruct j as [|j]; simpl.
  - intros [= ->]. by rewrite Nat.add_0_r.
  - intros Hj. rewrite (IH (S k) j Hj). do 2 f_equal. lia.
Qed.

Lemma enumerate_from_fst {A} (k : nat) (l : list A) :
  (enumerate_from k l).*1 = seq k (length l).
Proof.
  revert k. induction l as [|y l IH]; intros k; simpl; [done|]. by rewrite IH.
Qed.

Lemma enumerate_from_elem {A} (k i : nat) (x : A) (l : list A) :
  (i, x) ∈ enumerate_from k l -> k <= i /\ l !! (i - k) = Some x.
Proof.
  revert k. induction l as [|y l IH]; intros k; simpl.
  - by intros ?%elem_of_nil.
  - intros [[= -> ->]|H]%elem_of_cons.
    + split; [lia|]. by rewrite Nat.sub_diag.
    + destruct (IH (S k) H) as [Hle Hl]. split; [lia|].
      replace (i - k) with (S (i - S k)) by lia. done.
Qed.

Lemma track_point_inv s0 seen item :
  triple (track_inv s0 seen) (track_point item)
    (fun _ => track_inv s0 (seen ++ [item])) (fun _ => True).
Proof.
  destruct item as [index p]. intros s HI.
  destruct (track_point (index, p) s) as [s' [[]| |]] eqn:Hrun; [|done|done].
  destruct (track_point_Ok index p s s' Hrun) as (preds & dists & Hfov & ->).
  destruct HI as (Hrad & Hcams & Hpts & Hexpo & Hlen & Hmat & Htime & Hspeed & Hret
                  & (added & Hcpp & Hsub & Hadded) & Huniq).
  rewrite (point_in_camera_fov_ext s s0) in Hfov by done.
  destruct (point_in_camera_fov_bounds s0 _ _ _ _ Hfov) as [Hdl _].
  destruct (after_track_point_fields index p preds dists s)
    as (Hr' & Hcm' & Hp' & He' & Hd' & Ht' & Hs' & Hc' & Hu').
  unfold track_inv. rewrite Hr', Hcm', Hp', He'.
  split; [done|]. split; [done|]. split; [done|]. split; [done|].
  split; [|split; [|split; [|split; [|split; [|split]]]]].
  - rewrite Hd', !length_app. simpl. rewrite Hlen, Hdl. lia.
  - intros k item ds c d Hk Hds Hc. rewrite Hd'.
    apply lookup_app_Some in Hk as [Hk|[Hge Hk]].
    + apply lookup_app_l_Some. by eapply Hmat.
    + apply list_lookup_singleton_Some in Hk as [Hk0 <-]. simpl in Hds.
      rewrite Hfov in Hds. injection Hds as <-. simpl in Hc.
      replace k with (length seen) by lia.
      rewrite lookup_app_r by lia.
      by replace (length (distances s0) + length seen * length (cams s0) + c
                  - length (distances s)) with c by lia.
  - rewrite Ht'. split.
    + intros Hen. destruct (time p) as [t|] eqn:Htp; [|done].
      apply Htime in Hen as [H0 Hall]. split; [done|].
      intros it [Hin|Heq%list_elem_of_singleton]%elem_of_app; [by apply Hall|].
      subst it. simpl. by rewrite Htp.
    + intros [H0 Hall]. destruct (time p) as [t|] eqn:Htp.
      * apply Htime. split; [done|]. intros it Hin. apply Hall, elem_of_app. by left.
      * exfalso. apply (Hall (index, p)); [|done]. apply elem_of_app. right. left.
  - rewrite Hs'. split.
    + intros Hen.
      assert (Hcase : has_speed p \/ speed_enabled s = true).
      { destruct (speed p) as [v|] eqn:Hv; [|by right].
        case_bool_decide; [|by right]. left. by exists v. }
      destruct Hcase as [Hp|Hold].
      * right. exists (index, p). split; [|done]. apply elem_of_app. right. left.
      * apply Hspeed in Hold as [?|(it & Hin & Hit)]; [by left|].
        right. exists it. split; [|done]. apply elem_of_app. by left.
    + intros Hor.
      assert (Hcase : has_speed p \/ speed_enabled s = true).
      { destruct Hor as [H0|(it & [Hin|Heq%list_elem_of_singleton]%elem_of_app & Hit)].
        - right. apply Hspeed. by left.
        - right. apply Hspeed. right. by exists it.
        - subst it. by left. }
      destruct Hcase as [(v & Hv & Hne)|Hold].
      * rewrite Hv. by rewrite bool_decide_eq_true_2.
      * destruct (speed p); [case_bool_decide|]; done.
  - intros it [Hin|Heq%list_elem_of_singleton]%elem_of_app; [by apply Hret|].
    subst it. by exists (preds, dists).
  - exists (match preds with [] => added | _ => added ++ [(index, preds)] end).
    split; [|split].
    + rewrite Hc', Hcpp. destruct preds; [done|]. by rewrite app_assoc.
    + rewrite fmap_app. simpl. destruct preds.
      * by apply sublist_inserts_r.
      * rewrite fmap_app. simpl. by apply sublist_app.
    + intros i ps. split.
      * intros Hin.
        assert (Hcase : (i, ps) ∈ added \/ (ps <> [] /\ i = index /\ ps = preds)).
        { destruct preds; [by left|].
          apply elem_of_app in Hin as [?|[= -> ->]%list_elem_of_singleton];
            [by left|by right]. }
        destruct Hcase as [Hold|(Hne & -> & ->)].
        -- apply Hadded in Hold as (Hne & q & ds & Hq & Hfq). split; [done|].
           exists q, ds. split; [|done]. apply elem_of_app. by left.
        -- split; [done|]. exists p, dists. split; [|done]. apply elem_of_app. right. left.
      * intros (Hne & q & ds & [Hq|[= -> ->]%list_elem_of_singleton]%elem_of_app & Hfq).
        -- assert ((i, ps) ∈ added) by (apply Hadded; eauto).
           destruct preds; [done|]. apply elem_of_app. by left.
        -- rewrite Hfov in Hfq. injection Hfq as <- <-.
           destruct preds; [done|]. apply elem_of_app. right. left.
  - intros c.
    assert (Hu'' : c ∈ unique_cameras (after_track_point index p preds dists s)
                   <-> c ∈ unique_cameras s \/ c ∈ preds).
    { rewrite Hu'. destruct preds as [|c0 preds].
      - split; [by left|]. intros [?|?%elem_of_nil]; done.
      - by rewrite elem_of_union, elem_of_list_to_set. }
    rewrite Hu'', Huniq. split.
    + intros [[?|(it & ps & ds & Hin & Hf & Hc)]|Hc]; [by left| |].
      * right. exists it, ps, ds. split; [|done]. apply elem_of_app. by left.
      * right. exists (index, p), preds, dists. split; [|done]. apply elem_of_app. right. left.
    + intros [?|(it & ps & ds & [Hin|Heq%list_elem_of_singleton]%elem_of_app & Hf & Hc)].
      * left. by left.
      * left. right. by exists it, ps, ds.
      * subst it. simpl in Hf. rewrite Hfov in Hf. injection Hf as <- <-. by right.
Qed.

Lemma track_inv_start s0 : track_inv s0 [] s0.
Proof.
  split; [done|]. split; [done|]. split; [done|]. split; [done|].
  split; [simpl; lia|]. split; [intros k item ds c d Hk; by rewrite lookup_nil in Hk|].
  split; [|split; [|split; [|split]]].
  - split; [|by intros [? _]]. intros ?. split; [done|]. by intros it ?%elem_of_nil.
  - split; [by left|]. intros [?|(it & ?%elem_of_nil & _)]; done.
  - by intros it ?%elem_of_nil.
  - exists []. rewrite app_nil_r. split; [done|]. split; [done|].
    intros i ps. split; [by intros ?%elem_of_nil|].
    by intros (_ & q & ds & ?%elem_of_nil & _).
  - intros c. split; [by left|].
    intros [?|(it & ps & ds & ?%elem_of_nil & _)]; done.
Qed.

Lemma track_route_inv s0 s' :
  track_route s0 = (s', Ok tt) ->
  exists s1, track_inv s0 (enumerate (points s0)) s1
             /\ s' = set_cam_amount (size (unique_cameras s1)) s1.
Proof.
  intros Hroute. unfold track_route in Hroute.
  unfold mbind, method_bind, self_get, self_set, mret, method_ret in Hroute.
  cbn beta iota in Hroute.
  match type of Hroute with context [for_method ?body ?l ?b0 s0] =>
    pose proof (triple_for (fun seen _ => track_inv s0 seen) (fun _ => True) body l b0
                  (fun pre x post b _ => track_point_inv s0 pre x) s0
                  (track_inv_start s0)) as Hloop;
    destruct (for_method body l b0 s0) as [s1 [[]| |]]; try done
  end.
  injection Hroute as <-. by exists s1.
Qed.

Lemma is_in_fov_distance self cam lat lon addon d b :
  is_in_fov self cam lat lon addon = Ok (d, b) ->
  exists clat clon,
    py_float (dict_get cam "latitude" VNone) = Ok clat
    /\ py_float (dict_get cam "longitude" VNone) = Ok clon
    /\ d = quick_distance lat lon clat clon.
Proof.
  unfold is_in_fov.
  destruct (py_float (dict_get cam "latitude" VNone)) as [clat| |]; [|done|done].
  destruct (py_float (dict_get cam "longitude" VNone)) as [clon| |]; [|done|done].
  cbn [mbind result_bind].
  destruct (check_dist_to_cam _ _ _ _ _ _) as [b'| |]; [|done|done].
  cbn [mbind result_bind]. intros [= <- <-]. by exists clat, clon.
Qed.

(** X16: after [track_route], [distances] is the table of quick distances,
    one row per point in track order and one column per camera in
    catalogue order. *)
Theorem track_route_distance_table args_radius loaded pts self :
  track_route (fresh_exposure args_radius loaded pts) = (self, Ok tt) ->
  length (distances self) = length pts * length loaded
  /\ forall i p c cam, pts !! i = Some p -> loaded !! c = Some cam ->
       exists clat clon,
         py_float (dict_get cam "latitude" VNone) = Ok clat
         /\ py_float (dict_get cam "longitude" VNone) = Ok clon
         /\ distances self !! (i * length loaded + c)
            = Some (quick_distance (latitude p) (longitude p) clat clon).
Proof.
  intros Hroute. destruct (track_route_inv _ _ Hroute) as (s1 & HI & ->).
  destruct HI as (_ & _ & _ & _ & Hlen & Hmat & _ & _ & Hret & _).
  cbn [fresh_exposure distances cams points set_cam_amount] in *.
  unfold enumerate in *. split.
  - rewrite Hlen. simpl. f_equal.
    by rewrite <- (length_fmap fst), enumerate_from_fst, length_seq.
  - intros i p c cam Hi Hc.
    pose proof (enumerate_from_lookup 0 i p pts Hi) as Hk.
    destruct (Hret (0 + i, p)) as [[preds ds] Hfov]; [by eapply list_elem_of_lookup_2|].
    simpl in Hfov.
    destruct (point_in_camera_fov_member _ _ _ _ _ c cam Hfov Hc) as (d & Hd & Hds).
    destruct (is_in_fov_distance _ _ _ _ _ _ _ Hd) as (clat & clon & Hlat & Hlon & ->).
    exists clat, clon. split; [done|]. split; [done|].
    by apply (Hmat i (0 + i, p) (preds, ds) c).
Qed.

Lemma track_route_distance_table_witness :
  length (distances speed_exposure) = length track_speed * length [cam_origin]
  /\ forall i p c cam, track_speed !! i = Some p -> [cam_origin] !! c = Some cam ->
       exists clat clon,
         py_float (dict_get cam "latitude" VNone) = Ok clat
         /\ py_float (dict_get cam "longitude" VNone) = Ok clon
         /\ distances speed_exposure !! (i * length [cam_origin] + c)
            = Some (quick_distance (latitude p) (longitude p) clat clon).
Proof.
  apply (track_route_distance_table None [cam_origin] track_speed speed_exposure).
  exact track_route_track_speed.
Defined.

(** X17: after [track_route], [time_enabled] holds exactly when every point of
    the track has a time, and [speed_enabled] exactly when some point has a
    speed other than zero. *)
Theorem track_route_flags args_radius loaded pts self :
  track_route (fresh_exposure args_radius loaded pts) = (self, Ok tt) ->
  (time_enabled self = true <-> forall p, p ∈ pts -> time p <> None)
  /\ (speed_enabled self = true <-> exists p, p ∈ pts /\ has_speed p).
Proof.
  intros Hroute. destruct (track_route_inv _ _ Hroute) as (s1 & HI & ->).
  destruct HI as (_ & _ & _ & _ & _ & _ & Htime & Hspeed & _).
  cbn [fresh_exposure time_enabled speed_enabled points set_cam_amount] in *.
  unfold enumerate in *. split.
  - rewrite Htime. split.
    + intros [_ Hall] p Hp.
      destruct (elem_of_enumerate_from_inv 0 p pts Hp) as [i Hi]. by apply (Hall (i, p)).
    + intros Hall. split; [done|]. intros [i p] Hi. simpl.
      by eapply Hall, elem_of_enumerate_from.
  - rewrite Hspeed. split.
    + intros [?|([i p] & Hi & Hp)]; [done|]. exists p. split; [|done].
      by eapply elem_of_enumerate_from.
    + intros (p & Hp & Hsp). right.
      destruct (elem_of_enumerate_from_inv 0 p pts Hp) as [i Hi]. by exists (i, p).
Qed.

Lemma track_route_flags_witness :
  (time_enabled speed_exposure = true <-> forall p, p ∈ track_speed -> time p <> None)
  /\ (speed_enabled speed_exposure = true <-> exists p, p ∈ track_speed /\ has_speed p).
Proof.
  apply (track_route_flags None [cam_origin] track_speed speed_exposure).
  exact track_route_track_speed.
Defined.

(** X18: after [track_route], [cameras_per_point] has an entry for a point
    index exactly when the membership pass of that point found a camera, the
    entry is what the pass returned, and no index has two entries. *)
Theorem track_route_cameras_per_point args_radius loaded pts self :
  track_route (fresh_exposure args_radius loaded pts) = (self, Ok tt) ->
  NoDup (cameras_per_point self).*1
  /\ forall i preds, (i, preds) ∈ cameras_per_point self <->
       preds <> [] /\ exists p dists, pts !! i = Some p
         /\ point_in_camera_fov self (latitude p) (longitude p) = Ok (preds, dists).
Proof.
  intros Hroute. destruct (track_route_inv _ _ Hroute) as (s1 & HI & ->).
  destruct HI as (Hrad & Hcams & _ & _ & _ & _ & _ & _ & _ & (added & Hcpp & Hsub & Hadded) & _).
  assert (Hext : forall lat lon,
            point_in_camera_fov (set_cam_amount (size (unique_cameras s1)) s1) lat lon
            = point_in_camera_fov (fresh_exposure args_radius loaded pts) lat lon)
    by (intros; by apply point_in_camera_fov_ext).
  cbn [fresh_exposure cameras_per_point points set_cam_amount] in *.
  rewrite app_nil_l in Hcpp. subst added. unfold enumerate in *. split.
  - eapply sublist_NoDup; [|exact Hsub]. rewrite enumerate_from_fst. apply NoDup_seq.
  - intros i preds. rewrite Hadded. split.
    + intros (Hne & p & ds & Hp & Hfov). split; [done|]. exists p, ds.
      destruct (enumerate_from_elem 0 i p pts Hp) as [_ Hi].
      rewrite Nat.sub_0_r in Hi. by rewrite Hext.
    + intros (Hne & p & ds & Hp & Hfov). split; [done|]. exists p, ds.
      rewrite Hext in Hfov. split; [|done].
      eapply list_elem_of_lookup_2. by apply (enumerate_from_lookup 0 i p pts).
Qed.

Lemma track_route_cameras_per_point_witness :
  NoDup (cameras_per_point speed_exposure).*1
  /\ forall i preds, (i, preds) ∈ cameras_per_point speed_exposure <->
       preds <> [] /\ exists p dists, track_speed !! i = Some p
         /\ point_in_camera_fov speed_exposure (latitude p) (longitude p)
            = Ok (preds, dists).
Proof.
  apply (track_route_cameras_per_point None [cam_origin] track_speed speed_exposure).
  exact track_route_track_speed.
Defined.

(** X19: after [track_route], [unique_cameras] holds exactly the cameras whose
    field-of-view test is true at some point of the track, and [cam_amount]
    is their number, at most the size of the catalogue. *)
Theorem track_route_unique_cameras args_radius loaded pts self :
  track_route (fresh_exposure args_radius loaded pts) = (self, Ok tt) ->
  (forall c, c ∈ unique_cameras self <->
     exists p cam d, p ∈ pts /\ loaded !! c = Some cam
       /\ is_in_fov self cam (latitude p) (longitude p) 0 = Ok (d, true))
  /\ cam_amount self = size (unique_cameras self)
  /\ cam_amount self <= length loaded.
Proof.
  intros Hroute. destruct (track_route_inv _ _ Hroute) as (s1 & HI & ->).
  destruct HI as (Hrad & Hcams & _ & _ & _ & _ & _ & _ & Hret & _ & Huniq).
  assert (Hext : forall cam lat lon,
            is_in_fov (set_cam_amount (size (unique_cameras s1)) s1) cam lat lon 0
            = is_in_fov (fresh_exposure args_radius loaded pts) cam lat lon 0)
    by (intros; by apply is_in_fov_ext).
  cbn [fresh_exposure unique_cameras points cam_amount set_cam_amount] in *.
  unfold enumerate in *.
  assert (Hlt : forall c, c ∈ unique_cameras s1 -> c < length loaded).
  { intros c [Hc|(it & ps & ds & _ & Hfov & Hc)]%Huniq; [by apply elem_of_empty in Hc|].
    by apply (point_in_camera_fov_bounds _ _ _ _ _ Hfov). }
  split; [|split; [done|]].
  - intros c. rewrite Huniq. split.
    + intros [Hc|([i p] & ps & ds & Hin & Hfov & Hc)]; [by apply elem_of_empty in Hc|].
      simpl in Hfov.
      destruct (point_in_camera_fov_bounds _ _ _ _ _ Hfov) as [_ Hb].
      destruct (lookup_lt_is_Some_2 loaded c (Hb c Hc)) as [cam Hcam].
      destruct (point_in_camera_fov_member _ _ _ _ _ c cam Hfov Hcam) as (d & Hd & _).
      rewrite bool_decide_eq_true_2 in Hd by done.
      exists p, cam, d. split; [by eapply elem_of_enumerate_from|]. split; [done|].
      by rewrite Hext.
    + intros (p & cam & d & Hp & Hcam & Hd). right. rewrite Hext in Hd.
      destruct (elem_of_enumerate_from_inv 0 p pts Hp) as [i Hi].
      destruct (Hret (i, p) Hi) as [[ps ds] Hfov]. simpl in Hfov.
      destruct (point_in_camera_fov_member _ _ _ _ _ c cam Hfov Hcam) as (d' & Hd' & _).
      rewrite Hd in Hd'. injection Hd' as _ Hb.
      exists (i, p), ps, ds. split; [done|]. split; [done|].
      symmetry in Hb. by apply bool_decide_eq_true_1 in Hb.
  - transitivity (size (list_to_set (seq 0 (length loaded)) : gset nat)).
    + apply subseteq_size. intros c Hc. apply elem_of_list_to_set, elem_of_seq.
      specialize (Hlt c Hc). lia.
    + rewrite size_list_to_set by apply NoDup_seq. by rewrite length_seq.
Qed.

Lemma track_route_unique_cameras_witness :
  (forall c, c ∈ unique_cameras speed_exposure <->
     exists p cam d, p ∈ track_speed /\ [cam_origin] !! c = Some cam
       /\ is_in_fov speed_exposure cam (latitude p) (longitude p) 0 = Ok (d, true))
  /\ cam_amount speed_exposure = size (unique_cameras speed_exposure)
  /\ cam_amount speed_exposure <= length [cam_origin].
Proof.
  apply (track_route_unique_cameras None [cam_origin] track_speed speed_exposure).
  exact track_route_track_speed.
Defined.

Lemma track_point_returns index p s ds :
  point_in_camera_fov s (latitude p) (longitude p) = Ok ds ->
  exists s', track_point (index, p) s = (s', Ok tt).
Proof.
  intros Hfov. unfold track_point.
  unfold mbind, method_bind, self_get, self_set, lift, mret, method_ret. cbn beta iota.
  assert (Hext : point_in_camera_fov (set_time_enabled false s) (latitude p) (longitude p)
                 = point_in_camera_fov s (latitude p) (longitude p))
    by by apply point_in_camera_fov_ext.
  destruct (time p); cbn beta iota; rewrite ?Hext, Hfov.
  all: destruct ds as [preds ds]; cbn beta iota.
  all: destruct (speed p) as [v|]; [case_bool_decide|]; cbn beta iota.
  all: destruct preds; cbn beta iota.
  all: by eexists.
Qed.

(** X20: [track_route] returns exactly when the membership pass returns at
    every point of the track. *)
Theorem track_route_returns args_radius loaded pts :
  (exists self, track_route (fresh_exposure args_radius loaded pts) = (self, Ok tt))
  <-> forall p, p ∈ pts ->
        exists ds, point_in_camera_fov (fresh_exposure args_radius loaded pts)
                     (latitude p) (longitude p) = Ok ds.
Proof.
  set (s0 := fresh_exposure args_radius loaded pts). split.
  - intros [self Hroute] p Hp. destruct (track_route_inv _ _ Hroute) as (s1 & HI & _).
    destruct HI as (_ & _ & _ & _ & _ & _ & _ & _ & Hret & _).
    destruct (elem_of_enumerate_from_inv 0 p pts Hp) as [i Hi].
    by apply (Hret (i, p)).
  - intros Hall. unfold track_route.
    unfold mbind, method_bind, self_get, self_set, mret, method_ret. cbn beta iota.
    match goal with |- context [for_method ?body ?l ?b0 s0] =>
      pose proof (triple_for (fun seen _ => track_inv s0 seen) (fun _ => False) body l b0)
        as Hloop
    end.
    simpl in Hloop.
    assert (Hbody : forall pre x post (b : unit),
              enumerate (points s0) = pre ++ x :: post ->
              triple (track_inv s0 pre) (track_point x)
                (fun _ => track_inv s0 (pre ++ [x])) (fun _ => False)).
    { intros pre [i p] post b Hl s HI.
      pose proof (track_point_inv s0 pre (i, p) s HI) as Hstep.
      assert (Hp : p ∈ pts).
      { apply (elem_of_enumerate_from 0 i). fold (enumerate pts).
        change pts with (points s0). rewrite Hl. apply elem_of_app. right. left. }
      destruct (Hall p Hp) as [ds Hds].
      rewrite <- (point_in_camera_fov_ext s s0) in Hds by apply HI.
      destruct (track_point_returns i p s ds Hds) as [s' Hs']. by rewrite Hs' in *. }
    specialize (Hloop Hbody s0 (track_inv_start s0)).
    destruct (for_method _ _ _ s0) as [s1 [[]| |]]; try done. by eexists.
Qed.

(** ** The exposure pass *)

Lemma pseudo_point_shift lat lon course k :
  pseudo_point lat lon course (S k)
  = pseudo_point (get_coordinates lat lon course resolution).1
      (get_coordinates lat lon course resolution).2 course k.
Proof.
  unfold pseudo_point. rewrite Nat.iter_succ_r. cbn [fst snd].
  by destruct (get_coordinates lat lon course resolution).
Qed.

Lemma test_points_loop_spec self cam course n lat lon res r :
  test_points_loop self cam course n lat lon res = Ok r ->
  exists m : nat,
    r = (res + Z.of_nat m)%Z /\ m <= n
    /\ (forall k, 0 < k <= m ->
          hop_in_fov self cam (pseudo_point lat lon course k) = Ok true)
    /\ (m < n -> hop_in_fov self cam (pseudo_point lat lon course (S m)) = Ok false).
Proof.
  revert lat lon res. induction n as [|n IH]; intros lat lon res; cbn [test_points_loop].
  - intros [= <-]. exists 0. split; [lia|]. split; [lia|]. split; intros; lia.
  - pose proof (pseudo_point_shift lat lon course) as Hshift.
    assert (Hone : pseudo_point lat lon course 1 = get_coordinates lat lon course resolution)
      by reflexivity.
    destruct (get_coordinates lat lon course resolution) as [new_lat new_lon] eqn:Hnew.
    cbn [fst snd] in Hshift.
    assert (Hhop : hop_in_fov self cam (new_lat, new_lon) =
                   (c ← cams_lookup self cam;
                    '(_, b) ← is_in_fov self c new_lat new_lon (accept_range self);
                    Ok b)) by reflexivity.
    destruct (cams_lookup self cam) as [c| |]; cbn [mbind result_bind] in *; [|done|done].
    destruct (is_in_fov self c new_lat new_lon (accept_range self)) as [[d b]| |];
      cbn [mbind result_bind] in *; [|done|done].
    destruct b.
    + intros Hrun. destruct (IH _ _ _ Hrun) as (m & -> & Hm & Hacc & Hrej).
      exists (S m). split; [lia|]. split; [lia|]. split.
      * intros k Hk. destruct k as [|[|k]]; [lia| |].
        -- by rewrite Hone.
        -- rewrite Hshift. apply Hacc. lia.
      * intros Hlt. rewrite Hshift. apply Hrej. lia.
    + intros [= <-]. exists 0. split; [lia|]. split; [lia|]. split; [intros; lia|].
      intros _. by rewrite Hone.
Qed.

(** X21: [test_points] counts the leading pseudo points that pass the FOV test
    with the acceptance margin: the result lies between 0 and the number of
    hops asked for, every hop up to the result passes the test, and when
    the result is below the number asked for the next hop fails it. *)
Theorem test_points_counts_hops self ind npoints cam course p r :
  points self !! ind = Some p ->
  test_points self ind npoints cam course = Ok r ->
  (0 <= r <= Z.max 0 npoints)%Z
  /\ (forall k, 0 < k <= Z.to_nat r ->
        hop_in_fov self cam (pseudo_point (latitude p) (longitude p) course k) = Ok true)
  /\ ((r < npoints)%Z ->
        hop_in_fov self cam
          (pseudo_point (latitude p) (longitude p) course (S (Z.to_nat r))) = Ok false).
Proof.
  intros Hp. unfold test_points. rewrite py_index_nat, Hp. cbn [mbind result_bind].
  intros Hrun. destruct (test_points_loop_spec _ _ _ _ _ _ _ _ Hrun) as (m & -> & Hm & Hacc & Hrej).
  rewrite Z.add_0_l, Nat2Z.id. split; [lia|]. split; [done|].
  intros Hlt. apply Hrej. lia.
Qed.

Lemma quick_distance_latitude_lower lat0 lon0 lat1 lon1 :
  (111319 * Rabs (lat1 - lat0) <= quick_distance lat0 lon0 lat1 lon1)%R.
Proof.
  unfold quick_distance. apply Rmult_le_compat_l; [lra|].
  rewrite <- sqrt_Rsqr_abs. apply sqrt_le_1_alt. unfold Rsqr.
  match goal with |- (_ <= _ + ?y * ?y)%R => pose proof (Rle_0_sqr y) as Hy end.
  unfold Rsqr in Hy. lra.
Qed.

Lemma is_in_fov_cam_origin self lat lon addon :
  radius self = None ->
  is_in_fov self cam_origin lat lon addon
  = Ok (quick_distance lat lon 0 0, bool_decide (quick_distance lat lon 0 0 <= 10 + addon)%R).
Proof.
  intros Hrad. unfold is_in_fov.
  replace (dict_get cam_origin "latitude" VNone) with (VStr "0") by reflexivity.
  replace (dict_get cam_origin "longitude" VNone) with (VStr "0") by reflexivity.
  rewrite py_float_zero. cbn [mbind result_bind].
  rewrite (check_round _ _ _ _ _ _ 10%R); [done | reflexivity |].
  unfold fov_radius. rewrite Hrad. reflexivity.
Qed.

Lemma hop_north_latitude :
  (1 <= (get_coordinates 1 0 0 resolution).1)%R.
Proof.
  unfold get_coordinates. cbn [fst]. pose proof PI_RGT_0 as Hpi.
  pose proof PI_upper as Hup. pose proof PI_lower as Hlow.
  replace (deg2rad 0) with 0%R by (unfold deg2rad; lra). rewrite cos_0, Rmult_1_r.
  rewrite <- sin_plus.
  set (delta := (resolution / 1000 / R_earth)%R).
  assert (Hd : (0 < delta < 1 / 1000)%R).
  { unfold delta, resolution, R_earth. split; lra. }
  assert (Ha : (0 < deg2rad 1 < 1 / 10)%R) by (unfold deg2rad; split; lra).
  rewrite asin_sin by lra.
  unfold degrees.
  replace 1%R with (deg2rad 1 * (180 / PI))%R at 1 by (unfold deg2rad; field; lra).
  apply Rmult_le_compat_r; [|lra].
  apply Rlt_le, Rdiv_lt_0_compat; lra.
Qed.

Lemma test_points_first_hop_rejected :
  test_points (fresh_exposure None [cam_origin] track_far) 0 1 0 0 = Ok 0%Z.
Proof.
  unfold test_points. rewrite py_index_nat.
  change (points (fresh_exposure None [cam_origin] track_far) !! 0)
    with (Some (Point 1 0 None None)).
  cbn [mbind result_bind latitude longitude]. change (Z.to_nat 1) with 1.
  cbn [test_points_loop]. pose proof hop_north_latitude as Hlat.
  destruct (get_coordinates 1 0 0 resolution) as [new_lat new_lon]. cbn [fst] in Hlat.
  change (cams_lookup (fresh_exposure None [cam_origin] track_far) 0) with (Ok cam_origin).
  cbn [mbind result_bind]. rewrite is_in_fov_cam_origin by reflexivity.
  cbn [mbind result_bind accept_range fresh_exposure].
  rewrite bool_decide_eq_false_2; [reflexivity|].
  pose proof (quick_distance_latitude_lower new_lat new_lon 0 0) as Hq.
  rewrite Rabs_left1 in Hq by lra. lra.
Qed.

Lemma test_points_counts_hops_witness :
  (0 <= 0 <= Z.max 0 1)%Z
  /\ (forall k, 0 < k <= Z.to_nat 0 ->
        hop_in_fov (fresh_exposure None [cam_origin] track_far) 0
          (pseudo_point (latitude (Point 1 0 None None))
             (longitude (Point 1 0 None None)) 0 k) = Ok true)
  /\ ((0 < 1)%Z ->
        hop_in_fov (fresh_exposure None [cam_origin] track_far) 0
          (pseudo_point (latitude (Point 1 0 None None))
             (longitude (Point 1 0 None None)) 0 (S (Z.to_nat 0))) = Ok false).
Proof.
  apply (test_points_counts_hops (fresh_exposure None [cam_origin] track_far) 0 1 0 0
           (Point 1 0 None None) 0).
  - reflexivity.
  - exact test_points_first_hop_rejected.
Defined.

(** The average speed between two points does not depend on their order:
    the elapsed time enters by its absolute value, and a missing point or a
    missing time gives the same exception either way. *)
Lemma avg_speed_per_point_symmetric self dist point1 point2 :
  avg_speed_per_point self dist point1 point2
  = avg_speed_per_point self dist point2 point1.
Proof.
  unfold avg_speed_per_point. rewrite !py_index_nat.
  destruct (points self !! point1) as [a|], (points self !! point2) as [b|];
    cbn [mbind result_bind]; try done.
  unfold time_diff. destruct (time a) as [ta|], (time b) as [tb|];
    cbn [mbind result_bind]; try done.
  by rewrite Rabs_minus_sym.
Qed.

(** *** A track with two points of equal time *)

Lemma seen_camera_0_thrice :
  (∅ ∪ list_to_set [0] ∪ list_to_set [0] ∪ list_to_set [0] : gset nat) = {[0]}.
Proof.
  apply set_eq. intros c. rewrite !elem_of_union, !elem_of_list_to_set, elem_of_singleton.
  rewrite !list_elem_of_singleton. split; [|by right].
  intros [[[H|H]|H]|H]; [by apply elem_of_empty in H|done..].
Qed.

Lemma init_track_stall : init None (Ok catalog_origin) track_stall = Ok stall_exposure.
Proof.
  unfold init. rewrite load_catalog_origin. unfold track_stall.
  run_demo. rewrite seen_camera_0_thrice, size_singleton.
  unfold stall_exposure, track_stall. do 2 f_equal. lra.
Qed.

(** Between the two points of equal time the speed is [inf] and the time in
    view 0: the pass goes on and returns 1 m and 44.9 s for a track of
    0.22 m and 10 s. *)
Lemma pass_track_stall :
  time_and_distance_in_camera_fov stall_exposure
  = (stall_passed, Ok (stall_meters, stall_seconds)).
Proof. unfold stall_exposure, track_stall. run_demo. reflexivity. Qed.

Lemma report_track_stall :
  exists rep, main_segment None (Ok catalog_origin) track_stall = Ok rep.
Proof.
  unfold main_segment. rewrite init_track_stall. cbn [mbind result_bind].
  rewrite pass_track_stall. unfold stall_passed, stall_exposure, stall_meters, stall_seconds.
  run_demo. rewrite elements_singleton. run_demo. eexists. reflexivity.
Qed.

(** For two identical points of equal time the speed is [nan], and so is
    the time in view that the report lists for the camera. *)
Lemma report_track_still :
  exists rep d,
    main_segment None (Ok catalog_origin) track_still = Ok rep
    /\ rep_cameras rep = [(0, (Nan, d))].
Proof.
  unfold main_segment, init. rewrite load_catalog_origin. unfold track_still.
  run_demo. rewrite seen_camera_0_thrice, size_singleton. run_demo.
  rewrite elements_singleton. run_demo.
  eexists _, _. split; reflexivity.
Qed.

Lemma whole_steps_max x y :
  whole_steps x -> whole_steps y -> whole_steps (if decide (x < y)%R then y else x).
Proof. intros Hx Hy. by case_decide. Qed.

Lemma whole_steps_add x y : whole_steps x -> whole_steps y -> whole_steps (x + y).
Proof. intros [k ->] [j ->]. exists (k + j)%Z. rewrite plus_IZR. lra. Qed.

Lemma whole_steps_0 : whole_steps 0.
Proof. exists 0%Z. simpl. lra. Qed.

Lemma whole_steps_pseudo (pseudo_points : Z) :
  whole_steps (IZR pseudo_points / (1 / resolution)).
Proof. exists pseudo_points. unfold resolution. lra. Qed.

Lemma calculate_camera_steps backward point_ind other_point distance npoints course
    highest cam s :
  whole_steps highest.1 ->
  match calculate_camera backward point_ind other_point distance npoints course highest cam s
  with
  | (_, Ok highest') => whole_steps highest'.1
  | _ => True
  end.
Proof.
  destruct highest as [hd ht]. cbn [fst]. intros Hd. unfold calculate_camera.
  unfold mbind, method_bind, self_get, self_set, update_expo, lift, mret, method_ret.
  cbn beta iota.
  destruct (cam_expo s !! cam); cbn beta iota.
  all: destruct (negb backward && _); [done|].
  all: destruct (bool_decide (point_ind ∉ _)); cbn beta iota; unfold self_set.
  all: destruct (if backward && _ then _ else _) as [pp| |]; try done.
  all: destruct (exposure_time _ _ _ _ _) as [ct| |]; try done.
  all: cbn [fst]; apply whole_steps_max; [done|apply whole_steps_pseudo].
Qed.

Lemma calculate_point_steps backward totals item s :
  whole_steps totals.2 ->
  match calculate_point backward totals item s with
  | (_, Ok totals') => whole_steps totals'.2
  | _ => True
  end.
Proof.
  destruct totals as [ts tm]. cbn [snd]. intros Hm.
  unfold calculate_point. destruct item as [point_ind cameras].
  unfold mbind, method_bind, self_get, lift, mret, method_ret. cbn beta iota.
  destruct (neighbour backward (length (points s)) point_ind) as [other_point|]; [|done].
  destruct (py_index (points s) (Z.of_nat point_ind)) as [p| |]; try done.
  destruct (py_index (points s) (Z.of_nat other_point)) as [q| |]; try done.
  match goal with |- context [for_method ?body cameras ?b0 s] =>
    pose proof (for_method_post (fun b : R * num => whole_steps b.1) body cameras
                  (fun b x s => calculate_camera_steps _ _ _ _ _ _ b x s) b0 s) as Hloop;
    destruct (for_method body cameras b0 s) as [s' [[hd ht]| |]]; try done
  end.
  cbn [snd]. apply whole_steps_add; [done|]. apply Hloop, whole_steps_0.
Qed.

Lemma calculate_direction_steps backward s :
  match calculate_direction backward s with
  | (_, Ok (meters, seconds)) => whole_steps meters
  | _ => True
  end.
Proof.
  unfold calculate_direction.
  unfold mbind, method_bind, self_get, mret, method_ret. cbn beta iota.
  match goal with |- context [for_method ?body ?l ?b0 s] =>
    pose proof (for_method_post (fun b : num * R => whole_steps b.2) body l
                  (fun b x s => calculate_point_steps backward b x s) b0 s) as Hloop;
    destruct (for_method body l b0 s) as [s' [[ts tm]| |]]; try done
  end.
  apply Hloop, whole_steps_0.
Qed.

(** X22: the exposure distance is a whole, non-negative number of steps of
    [resolution] (half a metre). *)
Theorem exposure_distance_whole_steps s s' meters seconds :
  time_and_distance_in_camera_fov s = (s', Ok (meters, seconds)) ->
  exists k : Z, (0 <= k)%Z /\ meters = (IZR k * resolution)%R.
Proof.
  intros Hrun. pose proof (time_and_distance_nonneg s) as Hpos. rewrite Hrun in Hpos.
  assert (Hsteps : whole_steps meters).
  { revert Hrun. unfold time_and_distance_in_camera_fov. unfold mbind, method_bind.
    pose proof (calculate_direction_steps true s) as Hb.
    destruct (calculate_direction true s) as [s1 [[bd bt]| |]]; try done.
    pose proof (calculate_direction_steps false s1) as Hf.
    destruct (calculate_direction false s1) as [s2 [[fd ft]| |]]; try done.
    intros [= _ <- _]. by apply whole_steps_add. }
  destruct Hsteps as [k ->]. exists k. split; [|done].
  apply le_IZR. unfold resolution in Hpos. lra.
Qed.

Lemma exposure_distance_whole_steps_witness :
  exists k : Z, (0 <= k)%Z /\ stall_meters = (IZR k * resolution)%R.
Proof.
  apply (exposure_distance_whole_steps stall_exposure stall_passed stall_meters
           stall_seconds).
  exact pass_track_stall.
Defined.

(** X23: the exposure pass writes [cam_expo] only: every other attribute of the
    object is as before, whether the pass returns or stops with an
    exception. *)
Theorem exposure_pass_frame s :
  let s' := (time_and_distance_in_camera_fov s).1 in
  radius s' = radius s /\ accept_range s' = accept_range s /\ cams s' = cams s
  /\ points s' = points s /\ distances s' = distances s
  /\ cameras_per_point s' = cameras_per_point s
  /\ unique_cameras s' = unique_cameras s /\ cam_amount s' = cam_amount s
  /\ time_enabled s' = time_enabled s /\ speed_enabled s' = speed_enabled s
  /\ total_distance s' = total_distance s /\ total_time s' = total_time s.
Proof.
  intros s'. pose proof (time_and_distance_frame s) as H. fold s' in H.
  unfold same_but_expo in H.
  repeat split;
    match goal with |- ?f s' = _ => exact (f_equal f H) end.
Qed.

Lemma expo_between_insert D U cam e s :
  cam ∈ U -> expo_between D U s ->
  expo_between (D ∪ {[cam]}) U (set_cam_expo (<[cam := e]> (cam_expo s)) s).
Proof.
  intros Hcam [HD HU]. unfold expo_between. cbn [cam_expo set_cam_expo].
  rewrite dom_insert_L. split.
  - intros c [Hc|Hc]%elem_of_union; apply elem_of_union; [right; by apply HD|by left].
  - intros c [Hc|Hc]%elem_of_union; [|by apply HU].
    apply elem_of_singleton in Hc. by subst c.
Qed.

Lemma expo_between_alter D U cam f s :
  expo_between D U s -> expo_between D U (set_cam_expo (alter f cam (cam_expo s)) s).
Proof.
  intros [HD HU]. unfold expo_between. cbn [cam_expo set_cam_expo].
  by rewrite dom_alter_L.
Qed.

Lemma expo_between_known D U cam e s :
  cam_expo s !! cam = Some e -> expo_between D U s -> expo_between (D ∪ {[cam]}) U s.
Proof.
  intros Hk [HD HU]. split; [|done].
  apply elem_of_dom_2 in Hk.
  intros c [Hc|Hc]%elem_of_union; [by apply HD|].
  apply elem_of_singleton in Hc. by subst c.
Qed.

Lemma calculate_camera_between D U backward point_ind other_point distance npoints course
    highest cam :
  cam ∈ U ->
  triple (expo_between D U)
    (calculate_camera backward point_ind other_point distance npoints course highest cam)
    (fun _ => expo_between (D ∪ {[cam]}) U) (fun _ => True).
Proof.
  intros Hcam s HI. unfold calculate_camera. destruct highest as [hd ht].
  unfold mbind, method_bind, self_get, self_set, update_expo, lift, mret, method_ret.
  cbn beta iota.
  assert (H1 : expo_between (D ∪ {[cam]}) U
                 match cam_expo s !! cam with
                 | Some _ => s
                 | None => set_cam_expo (<[cam:=new_expo]> (cam_expo s)) s
                 end).
  { destruct (cam_expo s !! cam) eqn:Hk.
    - by eapply expo_between_known.
    - by apply expo_between_insert. }
  destruct (cam_expo s !! cam); cbn beta iota.
  all: destruct (negb backward && _); [done|].
  all: destruct (bool_decide (point_ind ∉ _)); cbn beta iota; unfold self_set.
  all: destruct (if backward && _ then _ else _) as [pp| |]; try done.
  all: destruct (exposure_time _ _ _ _ _) as [ct| |]; try done.
  all: repeat apply expo_between_alter; done.
Qed.

Lemma attributed_snoc backward n items item :
  attributed backward n (items ++ [item])
  = attributed backward n items
    ∪ match neighbour backward n item.1 with
      | Some _ => list_to_set item.2
      | None => ∅
      end.
Proof.
  unfold attributed. rewrite fmap_app, union_list_app_L. simpl.
  by rewrite (right_id_L ∅ (∪)).
Qed.

Lemma calculate_point_between s0 D U backward totals item :
  list_to_set item.2 ⊆ U ->
  triple (fun s => same_but_expo s0 s /\ expo_between D U s)
    (calculate_point backward totals item)
    (fun _ s => same_but_expo s0 s
                /\ expo_between
                     (D ∪ match neighbour backward (length (points s0)) item.1 with
                          | Some _ => list_to_set item.2
                          | None => ∅
                          end) U s)
    (fun _ => True).
Proof.
  intros HU s [Hsame HI].
  pose proof (calculate_point_frame s0 backward totals item s Hsame) as Hframe.
  assert (Hpts : points s = points s0) by exact (f_equal points Hsame).
  unfold calculate_point in *. destruct totals as [ts tm], item as [point_ind cameras].
  cbn [fst snd] in *.
  unfold mbind, method_bind, self_get, lift, mret, method_ret in *. cbn beta iota in *.
  rewrite Hpts in *.
  destruct (neighbour backward (length (points s0)) point_ind) as [other_point|].
  2: { split; [done|]. by rewrite (right_id_L ∅ (∪)). }
  destruct (py_index (points s0) (Z.of_nat point_ind)) as [p| |]; try done.
  destruct (py_index (points s0) (Z.of_nat other_point)) as [q| |]; try done.
  match goal with |- context [for_method ?body cameras ?b0 s] =>
    pose proof (triple_for (fun pre _ => expo_between (D ∪ list_to_set pre) U)
                  (fun _ => True) body cameras b0) as Hloop
  end.
  cbn beta in Hloop.
  match type of Hloop with ?P -> _ => assert (Hbody : P) end.
  { intros pre x post b Hl s1 H1.
    assert (Hx : x ∈ U).
    { apply HU, elem_of_list_to_set. rewrite Hl. apply elem_of_app. right. left. }
    match goal with |- context [calculate_camera ?a1 ?a2 ?a3 ?a4 ?a5 ?a6 b x s1] =>
      pose proof (calculate_camera_between (D ∪ list_to_set pre) U a1 a2 a3 a4 a5 a6
                    b x Hx s1 H1) as Hstep
    end.
    destruct (calculate_camera _ _ _ _ _ _ _ _ _) as [s2 [b'| |]]; try done.
    rewrite list_to_set_app_L. simpl. rewrite (right_id_L ∅ (∪)).
    by rewrite (assoc_L (∪)). }
  specialize (Hloop Hbody s).
  destruct (for_method _ cameras _ s) as [s' [[hd ht]| |]]; try done.
  split; [done|]. apply Hloop. simpl. by rewrite (right_id_L ∅ (∪)).
Qed.

Lemma calculate_direction_between D U backward s :
  (forall item, item ∈ cameras_per_point s -> list_to_set item.2 ⊆ U) ->
  expo_between D U s ->
  match calculate_direction backward s with
  | (s', Ok _) =>
      expo_between (D ∪ attributed backward (length (points s)) (cameras_per_point s)) U s'
  | _ => True
  end.
Proof.
  intros HU HI. unfold calculate_direction.
  unfold mbind, method_bind, self_get, mret, method_ret. cbn beta iota.
  match goal with |- context [for_method ?body ?l ?b0 s] =>
    pose proof (triple_for
                  (fun pre _ s' =>
                     same_but_expo s s'
                     /\ expo_between (D ∪ attributed backward (length (points s)) pre) U s')
                  (fun _ => True) body l b0) as Hloop
  end.
  cbn beta in Hloop.
  match type of Hloop with ?P -> _ => assert (Hbody : P) end.
  { intros pre x post b Hl s1 H1.
    assert (Hx : list_to_set x.2 ⊆ U).
    { apply HU. rewrite Hl. apply elem_of_app. right. left. }
    pose proof (calculate_point_between s _ U backward b x Hx s1 H1) as Hstep.
    destruct (calculate_point backward b x s1) as [s2 [b'| |]]; try done.
    destruct Hstep as [Hs Hb]. split; [done|].
    by rewrite attributed_snoc, (assoc_L (∪)). }
  specialize (Hloop Hbody s).
  destruct (for_method _ _ _ s) as [s' [[ts tm]| |]]; try done.
  apply Hloop. split; [done|]. unfold attributed. simpl. by rewrite (right_id_L ∅ (∪)).
Qed.

Lemma attributed_both n items c :
  2 <= n ->
  (exists item, item ∈ items /\ c ∈ item.2) ->
  c ∈ attributed true n items ∪ attributed false n items.
Proof.
  intros Hn (item & Hitem & Hc). unfold attributed.
  destruct (decide (item.1 = 0)) as [H0|H0].
  - apply elem_of_union_r, elem_of_union_list.
    eexists. split; [apply list_elem_of_fmap; by exists item|].
    unfold neighbour. rewrite bool_decide_eq_true_2 by lia.
    by apply elem_of_list_to_set.
  - apply elem_of_union_l, elem_of_union_list.
    eexists. split; [apply list_elem_of_fmap; by exists item|].
    unfold neighbour. rewrite bool_decide_eq_true_2 by done.
    by apply elem_of_list_to_set.
Qed.

Lemma time_and_distance_between U s :
  (forall item, item ∈ cameras_per_point s -> list_to_set item.2 ⊆ U) ->
  dom (cam_expo s) ⊆ U ->
  match time_and_distance_in_camera_fov s with
  | (s', Ok _) =>
      expo_between (attributed true (length (points s)) (cameras_per_point s)
                    ∪ attributed false (length (points s)) (cameras_per_point s)) U s'
  | _ => True
  end.
Proof.
  intros HU Hdom. unfold time_and_distance_in_camera_fov. unfold mbind, method_bind.
  pose proof (calculate_direction_between ∅ U true s HU) as Hb.
  pose proof (calculate_direction_frame true s) as Hframe.
  destruct (calculate_direction true s) as [s1 [[bd bt]| |]]; try done.
  cbn [fst] in Hframe. unfold same_but_expo in Hframe.
  pose proof (f_equal points Hframe) as Hpts.
  pose proof (f_equal cameras_per_point Hframe) as Hcpp. simpl in Hpts, Hcpp.
  specialize (Hb (conj (empty_subseteq _) Hdom)). rewrite (left_id_L ∅ (∪)) in Hb.
  pose proof (calculate_direction_between _ U false s1
                ltac:(by rewrite Hcpp) Hb) as Hf.
  destruct (calculate_direction false s1) as [s2 [[fd ft]| |]]; try done.
  by rewrite Hpts, Hcpp in Hf.
Qed.

(** ** Construction and report *)

Lemma init_Ok args_radius camfile segment e :
  init args_radius camfile segment = Ok e ->
  exists loaded s1 distance elapsed,
    load_cameras camfile = Ok loaded
    /\ track_route (fresh_exposure args_radius loaded segment) = (s1, Ok tt)
    /\ get_total_distance s1 = Ok distance
    /\ (if time_enabled s1 then
          last_point ← py_index (points s1) (-1);
          first_point ← py_index (points s1) 0;
          time_diff (time last_point) (time first_point)
        else Ok 0%R) = Ok elapsed
    /\ e = set_totals distance elapsed s1.
Proof.
  unfold init. destruct (load_cameras camfile) as [loaded| |]; [|done|done].
  cbn [mbind result_bind].
  destruct (track_route _) as [s1 [[]| |]] eqn:Hroute; [|done|done].
  destruct (get_total_distance s1) as [distance| |] eqn:Hdist;
    cbn [mbind result_bind]; [|done|done].
  destruct (if time_enabled s1 then _ else _) as [elapsed| |] eqn:Hel;
    cbn [mbind result_bind]; [|done|done].
  intros [= <-]. by exists loaded, s1, distance, elapsed.
Qed.

Lemma track_route_entries s0 s' :
  track_route s0 = (s', Ok tt) ->
  cameras_per_point s0 = [] -> unique_cameras s0 = ∅ ->
  points s' = points s0 /\ cam_expo s' = cam_expo s0
  /\ forall c, c ∈ unique_cameras s' <->
       exists item, item ∈ cameras_per_point s' /\ c ∈ item.2.
Proof.
  intros Hroute Hcpp0 Huniq0. destruct (track_route_inv _ _ Hroute) as (s1 & HI & ->).
  destruct HI as (_ & _ & Hpts & Hexpo & _ & _ & _ & _ & _
                  & (added & Hcpp & _ & Hadded) & Huniq).
  cbn [points cam_expo unique_cameras cameras_per_point set_cam_amount].
  split; [done|]. split; [done|].
  rewrite Hcpp0, app_nil_l in Hcpp. subst added.
  intros c. rewrite Huniq, Huniq0. split.
  - intros [Hc|([i p] & ps & ds & Hin & Hfov & Hc)]; [by apply elem_of_empty in Hc|].
    exists (i, ps). split; [|done]. apply Hadded. split.
    + intros ->. by apply elem_of_nil in Hc.
    + by exists p, ds.
  - intros ([i ps] & Hin & Hc). right.
    apply Hadded in Hin as (_ & p & ds & Hp & Hfov). by exists (i, p), ps, ds.
Qed.

(** X24: on an empty segment [__init__] stops with an [IndexError]: the pass
    over no points leaves time enabled, and the total time then reads the
    last point. *)
Theorem init_empty_track args_radius camfile loaded :
  load_cameras camfile = Ok loaded ->
  init args_radius camfile [] = Raise IndexError
  /\ main_segment args_radius camfile [] = Raise IndexError.
Proof.
  intros Hload.
  assert (H : init args_radius camfile [] = Raise IndexError).
  { unfold init. rewrite Hload. reflexivity. }
  split; [done|]. unfold main_segment. by rewrite H.
Qed.

Lemma init_empty_track_witness :
  init None (Ok catalog_origin) [] = Raise IndexError
  /\ main_segment None (Ok catalog_origin) [] = Raise IndexError.
Proof.
  apply (init_empty_track None (Ok catalog_origin) [cam_origin]).
  exact load_catalog_origin.
Defined.

(** X25: when [__init__] returns, the object holds the points of the segment and
    an empty [cam_expo], and the total time is the time of the last point
    minus the time of the first when time is enabled, and 0 otherwise. *)
Theorem init_totals args_radius camfile segment e :
  init args_radius camfile segment = Ok e ->
  points e = segment /\ cam_expo e = ∅ /\ radius e = args_radius
  /\ match time_enabled e with
     | true => exists first_point last_point t0 t1,
                 head segment = Some first_point /\ last segment = Some last_point
                 /\ time first_point = Some t0 /\ time last_point = Some t1
                 /\ total_time e = (t1 - t0)%R
     | false => total_time e = 0%R
     end.
Proof.
  intros Hinit.
  destruct (init_Ok _ _ _ _ Hinit) as (loaded & s1 & distance & elapsed
                                        & _ & Hroute & _ & Hel & ->).
  destruct (track_route_inv _ _ Hroute) as (s2 & HI & Hs1).
  destruct HI as (Hrad & _ & Hpts & Hexpo & _). subst s1.
  cbn [points cam_expo radius time_enabled total_time set_totals set_cam_amount
       fresh_exposure] in *.
  split; [done|]. split; [done|]. split; [done|].
  rewrite Hpts in Hel. destruct (time_enabled s2); [|by injection Hel as <-].
  pose proof (py_index_nat segment 0) as H0. change (Z.of_nat 0) with 0%Z in H0.
  rewrite H0 in Hel. clear H0.
  destruct segment as [|p0 segment]; [discriminate Hel|].
  pose proof (py_index_from_end (p0 :: segment) 0 ltac:(simpl; lia)) as Hlast.
  change (-1 - Z.of_nat 0)%Z with (-1)%Z in Hlast. rewrite Hlast in Hel. clear Hlast.
  rewrite Nat.sub_0_r in Hel.
  replace (length (p0 :: segment) - 1) with (length segment) in Hel by (simpl; lia).
  destruct ((p0 :: segment) !! length segment) as [pl|] eqn:Hl; [|done].
  change ((p0 :: segment) !! 0) with (Some p0) in Hel.
  cbn [mbind result_bind] in Hel. unfold time_diff in Hel.
  destruct (time pl) as [t1|] eqn:H1; [|done].
  destruct (time p0) as [t0|] eqn:H0; [|done]. injection Hel as <-.
  exists p0, pl, t0, t1. split; [done|]. split; [|done].
  rewrite last_lookup. by replace (Init.Nat.pred (length (p0 :: segment))) with (length segment).
Qed.

Lemma init_totals_witness :
  points demo_exposure = track_short /\ cam_expo demo_exposure = ∅
  /\ radius demo_exposure = None
  /\ match time_enabled demo_exposure with
     | true => exists first_point last_point t0 t1,
                 head track_short = Some first_point /\ last track_short = Some last_point
                 /\ time first_point = Some t0 /\ time last_point = Some t1
                 /\ total_time demo_exposure = (t1 - t0)%R
     | false => total_time demo_exposure = 0%R
     end.
Proof.
  apply (init_totals None (Ok catalog_origin) track_short demo_exposure).
  exact init_track_short.
Defined.

(** X26: after an exposure pass that returns on a segment of at least two
    points, the cameras with an entry in [cam_expo] are exactly the
    observed cameras, so the report finds an entry for each of them. *)
Theorem exposure_pass_covers_cameras args_radius camfile segment e e' res :
  init args_radius camfile segment = Ok e ->
  time_and_distance_in_camera_fov e = (e', Ok res) ->
  2 <= length segment ->
  dom (cam_expo e') = unique_cameras e'.
Proof.
  intros Hinit Hpass Hlen.
  destruct (init_Ok _ _ _ _ Hinit) as (loaded & s1 & distance & elapsed
                                        & _ & Hroute & _ & _ & ->).
  destruct (track_route_entries _ _ Hroute eq_refl eq_refl) as (Hpts & Hexpo & Huniq).
  set (e := set_totals distance elapsed s1) in *.
  pose proof (time_and_distance_frame e) as Hframe. rewrite Hpass in Hframe.
  cbn [fst] in Hframe. unfold same_but_expo in Hframe.
  rewrite (f_equal unique_cameras Hframe : unique_cameras e' = unique_cameras e).
  pose proof (time_and_distance_between (unique_cameras e) e) as Hbetween.
  rewrite Hpass in Hbetween. cbn [unique_cameras cameras_per_point cam_expo points e set_totals]
    in *.
  destruct Hbetween as [Hlow Hup].
  - intros item Hitem c Hc%elem_of_list_to_set. apply Huniq. by exists item.
  - rewrite Hexpo. cbn [cam_expo fresh_exposure]. by rewrite dom_empty_L.
  - apply set_eq. intros c. split; [apply Hup|].
    intros Hc%Huniq. apply Hlow, attributed_both; [|done].
    rewrite Hpts. by cbn [points fresh_exposure].
Qed.

Lemma exposure_pass_covers_cameras_witness :
  dom (cam_expo stall_passed) = unique_cameras stall_passed.
Proof.
  apply (exposure_pass_covers_cameras None (Ok catalog_origin) track_stall stall_exposure
           stall_passed (stall_meters, stall_seconds)).
  - exact init_track_stall.
  - exact pass_track_stall.
  - simpl. lia.
Defined.

Lemma report_cameras_keys (m : gmap nat expo) (l : list nat) acc out :
  for_result
    (fun acc cam =>
       match m !! cam with
       | Some e => Ok (acc ++ [(cam, (expo_time e, expo_dist e))])
       | None => Raise KeyError
       end) l acc = Ok out ->
  out.*1 = acc.*1 ++ l.
Proof.
  revert acc. induction l as [|cam l IH]; intros acc; simpl.
  - intros [= <-]. by rewrite app_nil_r.
  - destruct (m !! cam) as [e|]; cbn [mbind result_bind]; [|done].
    intros Hrun. rewrite (IH _ Hrun), fmap_app. simpl. by rewrite <- app_assoc.
Qed.

Lemma num_val_percentage a b q :
  num_div a b = Ok q ->
  num_val (num_round2 (num_mul q (PyInt 100))) = round2 (num_val a / num_val b * 100).
Proof.
  unfold num_div. destruct (is_np a || is_np b); case_decide; try done.
  all: by intros [= <-].
Qed.

Lemma main_segment_Ok args_radius camfile segment rep :
  main_segment args_radius camfile segment = Ok rep ->
  exists e e' dist elapsed ratio timing per_camera,
    init args_radius camfile segment = Ok e
    /\ time_and_distance_in_camera_fov e = (e', Ok (dist, elapsed))
    /\ num_div (PyFloat dist) (total_distance e') = Ok ratio
    /\ (timing = None <-> time_enabled e' = false)
    /\ for_result
         (fun acc cam =>
            match cam_expo e' !! cam with
            | Some e => Ok (acc ++ [(cam, (expo_time e, expo_dist e))])
            | None => Raise KeyError
            end) (elements (unique_cameras e')) [] = Ok per_camera
    /\ rep = Report (total_distance e') (cam_amount e') dist
               (num_round2 (num_mul ratio (PyInt 100))) timing
               match radius e' with
               | Some r => if bool_decide (r ≠ 0%Z) then Some r else None
               | None => None
               end per_camera.
Proof.
  unfold main_segment.
  destruct (init args_radius camfile segment) as [e| |] eqn:Hinit; cbn [mbind result_bind];
    [|done|done].
  destruct (time_and_distance_in_camera_fov e) as [e' [[dist elapsed]| |]] eqn:Hpass;
    [|done|done].
  destruct (num_div (PyFloat dist) (total_distance e')) as [ratio| |] eqn:Hratio;
    cbn [mbind result_bind]; [|done|done].
  destruct (if time_enabled e' then _ else _) as [timing| |] eqn:Htiming;
    cbn [mbind result_bind]; [|done|done].
  destruct (for_result _ _ _) as [per_camera| |] eqn:Hcams;
    cbn [mbind result_bind]; [|done|done].
  intros [= <-]. exists e, e', dist, elapsed, ratio, timing, per_camera.
  split; [done|]. split; [done|]. split; [done|]. split; [|by split]. split.
  - intros ->. destruct (time_enabled e'); [|done].
    destruct (num_div elapsed _); cbn [mbind result_bind] in Htiming; try done.
    destruct (num_div (total_distance e') _); cbn [mbind result_bind] in Htiming; done.
  - intros Hen. rewrite Hen in Htiming. by injection Htiming as <-.
Qed.

(** X27: [main] reports on a segment only when it has at least two points: with
    none [__init__] fails, and with one the total distance is the int 0 and
    the distance percentage divides by it. *)
Theorem main_segment_needs_two_points args_radius camfile segment rep :
  main_segment args_radius camfile segment = Ok rep -> 2 <= length segment.
Proof.
  intros Hmain.
  destruct (main_segment_Ok _ _ _ _ Hmain)
    as (e & e' & dist & elapsed & ratio & timing & per_camera
        & Hinit & Hpass & Hratio & _).
  pose proof (time_and_distance_frame e) as Hframe. rewrite Hpass in Hframe.
  cbn [fst] in Hframe. unfold same_but_expo in Hframe.
  rewrite (f_equal total_distance Hframe : total_distance e' = total_distance e) in Hratio.
  destruct (init_Ok _ _ _ _ Hinit) as (loaded & s1 & distance & el & _ & Hroute & Hdist & _ & ->).
  destruct (track_route_inv _ _ Hroute) as (s2 & HI & ->).
  destruct HI as (_ & _ & Hpts & _).
  cbn [total_distance set_totals] in Hratio.
  destruct (total_distance_loop_sum (points (set_cam_amount (size (unique_cameras s2)) s2))
              (PyInt 0)) as (n & Hn & _ & Hshort & _).
  change (get_total_distance (set_cam_amount (size (unique_cameras s2)) s2) = Ok n) in Hn.
  rewrite Hdist in Hn. injection Hn as <-.
  cbn [points set_cam_amount fresh_exposure] in *. rewrite Hpts in Hshort.
  destruct (decide (2 <= length segment)) as [|Hlt]; [done|].
  rewrite Hshort in Hratio by lia. unfold num_div in Hratio. simpl in Hratio.
  by rewrite decide_True in Hratio.
Qed.

Lemma main_segment_needs_two_points_witness : 2 <= length track_short.
Proof.
  destruct report_track_short as (rep & Hrep & _).
  exact (main_segment_needs_two_points None (Ok catalog_origin) track_short rep Hrep).
Defined.

(** X28: when the report is produced with finite percentages, it agrees
    with the object: the total distance and the number of cameras are those
    of [__init__], the cameras listed are the observed cameras, each once,
    the timing entries are present exactly when time is enabled, and the
    distance percentage is the exposure distance over the total distance,
    times 100, rounded to two places. *)
Theorem report_consistent args_radius camfile segment e rep :
  init args_radius camfile segment = Ok e ->
  main_segment args_radius camfile segment = Ok rep ->
  rep_total_distance rep = total_distance e
  /\ number_of_unique_cams rep = length (rep_cameras rep)
  /\ (rep_cameras rep).*1 = elements (unique_cameras e)
  /\ NoDup (rep_cameras rep).*1
  /\ (timing rep = None <-> time_enabled e = false)
  /\ num_val (dist_percentage rep)
     = round2 (exposure_distance rep / num_val (rep_total_distance rep) * 100).
Proof.
  intros Hinit Hmain.
  destruct (main_segment_Ok _ _ _ _ Hmain)
    as (e0 & e' & dist & elapsed & ratio & tm & per_camera
        & Hinit' & Hpass & Hratio & Htiming & Hcams & ->).
  rewrite Hinit in Hinit'. injection Hinit' as <-.
  pose proof (time_and_distance_frame e) as Hframe. rewrite Hpass in Hframe.
  cbn [fst] in Hframe. unfold same_but_expo in Hframe.
  rewrite (f_equal total_distance Hframe : total_distance e' = total_distance e) in *.
  rewrite (f_equal time_enabled Hframe : time_enabled e' = time_enabled e) in *.
  rewrite (f_equal unique_cameras Hframe : unique_cameras e' = unique_cameras e) in *.
  rewrite (f_equal cam_amount Hframe : cam_amount e' = cam_amount e) in *.
  cbn [rep_total_distance number_of_unique_cams rep_cameras timing dist_percentage
       exposure_distance].
  apply report_cameras_keys in Hcams. simpl in Hcams.
  split; [done|]. split; [|split; [done|split; [|split; [done|]]]].
  - rewrite <- (length_fmap fst), Hcams.
    destruct (init_Ok _ _ _ _ Hinit) as (loaded & s1 & distance & el & _ & Hroute & _ & _ & ->).
    destruct (track_route_inv _ _ Hroute) as (s2 & _ & ->). reflexivity.
  - rewrite Hcams. apply NoDup_elements.
  - by rewrite (num_val_percentage _ _ _ Hratio).
Qed.

Lemma report_consistent_witness :
  exists rep,
    main_segment None (Ok catalog_origin) track_stall = Ok rep
    /\ rep_total_distance rep = total_distance stall_exposure
    /\ number_of_unique_cams rep = length (rep_cameras rep)
    /\ (rep_cameras rep).*1 = elements (unique_cameras stall_exposure)
    /\ NoDup (rep_cameras rep).*1
    /\ (timing rep = None <-> time_enabled stall_exposure = false)
    /\ num_val (dist_percentage rep)
       = round2 (exposure_distance rep / num_val (rep_total_distance rep) * 100).
Proof.
  destruct report_track_stall as (rep & Hrep). exists rep. split; [exact Hrep|].
  exact (report_consistent None (Ok catalog_origin) track_stall stall_exposure rep
           init_track_stall Hrep).
Defined.

(** ** Distance statistics *)

Lemma sum_bounds lo hi (l : list R) :
  (forall d, d ∈ l -> lo <= d <= hi)%R ->
  (lo * INR (length l) <= foldr Rplus 0 l <= hi * INR (length l))%R.
Proof.
  induction l as [|x l IH]; intros Hall.
  - simpl. lra.
  - assert (Hx : (lo <= x <= hi)%R) by (apply Hall; left).
    assert (Hl : (lo * INR (length l) <= foldr Rplus 0 l <= hi * INR (length l))%R).
    { apply IH. intros d Hd. apply Hall. by right. }
    change (length (x :: l)) with (S (length l)). rewrite S_INR.
    cbn [foldr]. lra.
Qed.

Lemma average_bounds lo hi (l : list R) :
  l <> [] -> (forall d, d ∈ l -> lo <= d <= hi)%R -> (lo <= average l <= hi)%R.
Proof.
  intros Hne Hall. pose proof (sum_bounds lo hi l Hall) as [H1 H2].
  assert (Hn : (0 < INR (length l))%R).
  { apply lt_0_INR. destruct l; [done|simpl; lia]. }
  unfold average. split.
  - apply Rmult_le_reg_r with (INR (length l)); [done|].
    unfold Rdiv. rewrite Rmult_assoc, Rinv_l by lra. lra.
  - apply Rmult_le_reg_r with (INR (length l)); [done|].
    unfold Rdiv. rewrite Rmult_assoc, Rinv_l by lra. lra.
Qed.

Lemma sorted_lookup_bounds lo hi (l : list R) i :
  (forall d, d ∈ l -> lo <= d <= hi)%R -> i < length l ->
  (lo <= default 0 (merge_sort Rle l !! i) <= hi)%R.
Proof.
  intros Hall Hi.
  destruct (lookup_lt_is_Some_2 (merge_sort Rle l) i) as [x Hx].
  { by rewrite (Permutation_length (merge_sort_Permutation Rle l)). }
  rewrite Hx. simpl. apply Hall.
  rewrite <- (merge_sort_Permutation Rle l). by eapply list_elem_of_lookup_2.
Qed.

Lemma median_bounds lo hi (l : list R) :
  l <> [] -> (forall d, d ∈ l -> lo <= d <= hi)%R -> (lo <= median l <= hi)%R.
Proof.
  intros Hne Hall.
  assert (Hn : 0 < length l) by (destruct l; [done|simpl; lia]).
  assert (Hhalf : length l / 2 < length l) by (apply Nat.div_lt; lia).
  unfold median. destruct (Nat.even (length l)).
  - pose proof (sorted_lookup_bounds lo hi l (length l / 2 - 1) Hall ltac:(lia)).
    pose proof (sorted_lookup_bounds lo hi l (length l / 2) Hall Hhalf). lra.
  - by apply sorted_lookup_bounds.
Qed.

Lemma median_odd_member (l : list R) :
  Nat.odd (length l) = true -> median l ∈ l.
Proof.
  intros Hodd.
  assert (Hn : 0 < length l) by (destruct l; [done|simpl; lia]).
  assert (Hhalf : length l / 2 < length l) by (apply Nat.div_lt; lia).
  unfold median. rewrite <- Nat.negb_odd, Hodd. cbn [negb].
  destruct (lookup_lt_is_Some_2 (merge_sort Rle l) (length l / 2)) as [x Hx].
  { by rewrite (Permutation_length (merge_sort_Permutation Rle l)). }
  rewrite Hx. simpl.
  rewrite <- (merge_sort_Permutation Rle l). by eapply list_elem_of_lookup_2.
Qed.

(** X29: the median lies between the smallest and the largest recorded
    distance, and is one of the recorded distances when their number is
    odd. *)
Theorem calc_distance_stats_median self lo hi :
  distances self <> [] ->
  (forall d, d ∈ distances self -> lo <= d <= hi)%R ->
  (lo <= num_val (calc_distance_stats self).2 <= hi)%R
  /\ (Nat.odd (length (distances self)) = true ->
      num_val (calc_distance_stats self).2 ∈ distances self).
Proof.
  intros Hne Hall. unfold calc_distance_stats.
  destruct (distances self) as [|d ds] eqn:Hd; [done|]. cbn [fst snd num_val].
  split; [by apply median_bounds|apply median_odd_member].
Qed.

Lemma calc_distance_stats_median_witness :
  (0 <= num_val (calc_distance_stats stall_exposure).2 <= 1)%R
  /\ (Nat.odd (length (distances stall_exposure)) = true ->
      num_val (calc_distance_stats stall_exposure).2 ∈ distances stall_exposure).
Proof.
  apply (calc_distance_stats_median stall_exposure 0 1).
  - discriminate.
  - intros d Hd. cbn [distances stall_exposure] in Hd.
    apply elem_of_cons in Hd as [->|Hd]; [lra|].
    apply elem_of_cons in Hd as [->|Hd]; [lra|].
    apply list_elem_of_singleton in Hd as ->. lra.
Defined.

(** X30: on the object [track_route] leaves, both statistics are non-negative;
    they are the int 0 when the track or the catalogue is empty. *)
Theorem distance_stats_nonneg args_radius loaded pts self :
  track_route (fresh_exposure args_radius loaded pts) = (self, Ok tt) ->
  (0 <= num_val (calc_distance_stats self).1)%R
  /\ (0 <= num_val (calc_distance_stats self).2)%R
  /\ (pts = [] \/ loaded = [] -> calc_distance_stats self = (PyInt 0, PyInt 0)).
Proof.
  intros Hroute. destruct (track_route_inv _ _ Hroute) as (s1 & HI & ->).
  destruct HI as (_ & _ & _ & _ & Hlen & Hmat & _ & _ & Hret & _).
  cbn [fresh_exposure distances cams points set_cam_amount] in *.
  unfold enumerate in *.
  assert (Hlen' : length (distances s1) = length pts * length loaded).
  { rewrite Hlen. simpl. f_equal.
    by rewrite <- (length_fmap fst), enumerate_from_fst, length_seq. }
  assert (Hpos : forall d, d ∈ distances s1 -> (0 <= d)%R).
  { intros d [j Hj]%list_elem_of_lookup_1.
    pose proof (lookup_lt_Some _ _ _ Hj) as Hlt. rewrite Hlen' in Hlt.
    assert (Hn : 0 < length loaded) by (destruct (length loaded); lia).
    assert (Hi : j / length loaded < length pts).
    { apply Nat.Div0.div_lt_upper_bound. lia. }
    destruct (lookup_lt_is_Some_2 pts _ Hi) as [p Hp].
    destruct (lookup_lt_is_Some_2 loaded (j mod length loaded)) as [cam Hcam].
    { apply Nat.mod_upper_bound. lia. }
    pose proof (enumerate_from_lookup 0 _ p pts Hp) as Hk.
    destruct (Hret (0 + j / length loaded, p)) as [[preds ds] Hfov];
      [by eapply list_elem_of_lookup_2|].
    cbn [snd] in Hfov.
    destruct (point_in_camera_fov_member _ _ _ _ _ _ cam Hfov Hcam) as (d' & Hd' & Hds).
    destruct (is_in_fov_distance _ _ _ _ _ _ _ Hd') as (clat & clon & _ & _ & ->).
    pose proof (Hmat _ _ (preds, ds) _ _ Hk Hfov Hds) as Hj'.
    simpl in Hj'.
    replace (j / length loaded * length loaded + j mod length loaded) with j in Hj'.
    - rewrite Hj in Hj'. injection Hj' as ->. apply quick_distance_nonneg.
    - rewrite (Nat.div_mod_eq j (length loaded)) at 1. lia. }
  unfold calc_distance_stats. cbn [distances set_cam_amount].
  destruct (distances s1) as [|d ds] eqn:Hd.
  - simpl. repeat split; first [lra | done].
  - cbn [fst snd num_val]. rewrite <- Hd in *.
    assert (Hne : distances s1 <> []) by (rewrite Hd; discriminate).
    assert (Hhi : exists hi, forall x, x ∈ distances s1 -> (0 <= x <= hi)%R).
    { revert Hpos. generalize (distances s1). intros l. induction l as [|x l IH]; intros Hpos.
      - exists 0%R. by intros x ?%elem_of_nil.
      - destruct IH as [hi Hhi]; [intros y Hy; apply Hpos; by right|].
        assert (0 <= x)%R by (apply Hpos; left).
        exists (Rmax x hi). intros y [->|Hy]%elem_of_cons.
        + split; [done|apply Rmax_l].
        + destruct (Hhi y Hy). split; [done|]. etransitivity; [|apply Rmax_r]. done. }
    destruct Hhi as [hi Hhi].
    split; [by apply (average_bounds 0 hi)|]. split; [by apply (median_bounds 0 hi)|].
    intros Hempty. exfalso.
    assert (length (distances s1) = 0) as Hz
      by (rewrite Hlen'; destruct Hempty as [-> | ->]; simpl; lia).
    rewrite Hd in Hz. simpl in Hz. lia.
Qed.

Lemma distance_stats_nonneg_witness :
  (0 <= num_val (calc_distance_stats speed_exposure).1)%R
  /\ (0 <= num_val (calc_distance_stats speed_exposure).2)%R
  /\ (track_speed = [] \/ [cam_origin] = [] ->
      calc_distance_stats speed_exposure = (PyInt 0, PyInt 0)).
Proof.
  apply (distance_stats_nonneg None [cam_origin] track_speed speed_exposure).
  exact track_route_track_speed.
Defined.

(** ** The report for a non-degenerate segment *)

Lemma report_cameras_total (m : gmap nat expo) (l : list nat) acc :
  (forall cam, cam ∈ l -> is_Some (m !! cam)) ->
  exists out,
    for_result
      (fun acc cam =>
         match m !! cam with
         | Some e => Ok (acc ++ [(cam, (expo_time e, expo_dist e))])
         | None => Raise KeyError
         end) l acc = Ok out.
Proof.
  revert acc. induction l as [|cam l IH]; intros acc Hall; simpl; [by eexists|].
  destruct (Hall cam) as [e He]; [left|]. rewrite He. cbn [mbind result_bind].
  apply IH. intros c Hc. apply Hall. by right.
Qed.

Lemma positive_distance_two_points args_radius camfile segment e :
  init args_radius camfile segment = Ok e ->
  (0 < num_val (total_distance e))%R ->
  2 <= length segment.
Proof.
  intros Hinit Hpos.
  destruct (init_Ok _ _ _ _ Hinit) as (loaded & s1 & distance & el & _ & Hroute & Hdist & _ & ->).
  destruct (track_route_inv _ _ Hroute) as (s2 & HI & ->).
  destruct HI as (_ & _ & Hpts & _).
  cbn [total_distance set_totals] in Hpos.
  destruct (total_distance_loop_sum (points (set_cam_amount (size (unique_cameras s2)) s2))
              (PyInt 0)) as (n & Hn & _ & Hshort & _).
  change (get_total_distance (set_cam_amount (size (unique_cameras s2)) s2) = Ok n) in Hn.
  rewrite Hdist in Hn. injection Hn as <-.
  cbn [points set_cam_amount fresh_exposure] in *. rewrite Hpts in Hshort.
  destruct (decide (2 <= length segment)) as [|Hlt]; [done|].
  rewrite Hshort in Hpos by lia. simpl in Hpos. lra.
Qed.

Lemma observed_cameras_have_entry args_radius camfile segment e e' res :
  init args_radius camfile segment = Ok e ->
  time_and_distance_in_camera_fov e = (e', Ok res) ->
  (0 < num_val (total_distance e))%R ->
  forall cam, cam ∈ unique_cameras e' -> is_Some (cam_expo e' !! cam).
Proof.
  intros Hinit Hpass Hpos.
  pose proof (positive_distance_two_points _ _ _ _ Hinit Hpos) as Hlen.
  destruct (init_Ok _ _ _ _ Hinit) as (loaded & s1 & distance & elapsed
                                        & _ & Hroute & _ & _ & ->).
  destruct (track_route_entries _ _ Hroute eq_refl eq_refl) as (Hpts & Hexpo & Huniq).
  set (e := set_totals distance elapsed s1) in *.
  pose proof (time_and_distance_frame e) as Hframe. rewrite Hpass in Hframe.
  cbn [fst] in Hframe. unfold same_but_expo in Hframe.
  rewrite (f_equal unique_cameras Hframe : unique_cameras e' = unique_cameras e).
  pose proof (time_and_distance_between (unique_cameras e) e) as Hbetween.
  rewrite Hpass in Hbetween. cbn [unique_cameras cameras_per_point cam_expo points e set_totals]
    in *.
  destruct Hbetween as [Hlow _].
  - intros item Hitem c Hc%elem_of_list_to_set. apply Huniq. by exists item.
  - rewrite Hexpo. cbn [cam_expo fresh_exposure]. by rewrite dom_empty_L.
  - intros cam Hc%Huniq. apply elem_of_dom, Hlow, attributed_both; [|done].
    rewrite Hpts. by cbn [points fresh_exposure].
Qed.

(** C5, amended: for a segment whose total distance is positive, and whose
    total time is positive when time is enabled, once [__init__] and the
    exposure pass have returned the report is produced, and its distance
    percentage and time percentage are not negative.  (They are not bounded
    by 100.) *)
Theorem percentages_nonneg args_radius camfile segment e e' meters seconds :
  init args_radius camfile segment = Ok e ->
  time_and_distance_in_camera_fov e = (e', Ok (meters, seconds)) ->
  (0 < num_val (total_distance e))%R ->
  (time_enabled e = true -> (0 < total_time e)%R) ->
  exists rep,
    main_segment args_radius camfile segment = Ok rep
    /\ (0 <= num_val (dist_percentage rep))%R
    /\ (forall avg_speed time_percentage exposure_time,
          timing rep = Some (avg_speed, time_percentage, exposure_time) ->
          (0 <= num_val time_percentage)%R)
    /\ (timing rep = None <-> time_enabled e = false).
Proof.
  intros Hinit Hpass Hdist Htime.
  pose proof (observed_cameras_have_entry _ _ _ _ _ _ Hinit Hpass Hdist) as Hentry.
  pose proof (time_and_distance_nonneg e) as Hpos. rewrite Hpass in Hpos.
  destruct Hpos as [Hd Ht].
  pose proof (time_and_distance_frame e) as Hframe. rewrite Hpass in Hframe.
  cbn [fst] in Hframe. unfold same_but_expo in Hframe.
  unfold main_segment. rewrite Hinit. cbn [mbind result_bind]. rewrite Hpass.
  rewrite (f_equal total_distance Hframe : total_distance e' = total_distance e).
  rewrite (f_equal time_enabled Hframe : time_enabled e' = time_enabled e).
  rewrite (f_equal total_time Hframe : total_time e' = total_time e).
  destruct (num_div_nonzero (PyFloat meters) (total_distance e)) as [ratio Hratio]; [lra|].
  rewrite Hratio. cbn [mbind result_bind].
  apply num_div_Ok in Hratio as [_ Hratio]. simpl in Hratio.
  assert (Hpct : (0 <= num_val (num_round2 (num_mul ratio (PyInt 100))))%R).
  { apply num_round2_nonneg. rewrite num_val_mul, Hratio. simpl.
    by apply quotient_nonneg. }
  destruct (report_cameras_total (cam_expo e') (elements (unique_cameras e')) [])
    as [per_camera Hcams].
  { intros cam Hcam. apply Hentry. by apply elem_of_elements. }
  destruct (time_enabled e) eqn:Hen.
  - specialize (Htime eq_refl).
    destruct (num_div_nonzero seconds (PyFloat (total_time e))) as [tratio Htratio];
      [simpl; lra|].
    destruct (num_div_nonzero (total_distance e) (PyFloat (total_time e))) as [v Hv];
      [simpl; lra|].
    rewrite Htratio. cbn [mbind result_bind]. rewrite Hv. cbn [mbind result_bind].
    rewrite Hcams. cbn [mbind result_bind].
    apply num_div_Ok in Htratio as [_ Htratio]. simpl in Htratio.
    eexists. split; [reflexivity|]. cbn [dist_percentage timing].
    split; [done|]. split; [|done].
    intros a p x [= _ <- _]. apply num_round2_nonneg.
    rewrite num_val_mul, Htratio. simpl. by apply quotient_nonneg.
  - cbn [mbind result_bind]. rewrite Hcams. cbn [mbind result_bind].
    eexists. split; [reflexivity|]. cbn [dist_percentage timing].
    split; [done|]. split; [|done]. by intros a p x [=].
Qed.

Lemma percentages_nonneg_witness :
  exists rep,
    main_segment None (Ok catalog_origin) track_stall = Ok rep
    /\ (0 <= num_val (dist_percentage rep))%R
    /\ (forall avg_speed time_percentage exposure_time,
          timing rep = Some (avg_speed, time_percentage, exposure_time) ->
          (0 <= num_val time_percentage)%R)
    /\ (timing rep = None <-> time_enabled stall_exposure = false).
Proof.
  apply (percentages_nonneg None (Ok catalog_origin) track_stall stall_exposure
           stall_passed stall_meters stall_seconds).
  - exact init_track_stall.
  - exact pass_track_stall.
  - simpl. lra.
  - intros _. simpl. lra.
Defined.

(** ** The exposure pass does not stop on a division by zero *)















